(** * ItemDistributor: the work-item broker of flesnet

    A shallow embedding of [src/ItemDistributor.hpp]: the [Item] objects held
    through [std::shared_ptr], the [Worker] records of the [std::map]
    [workers_], the completion ledger [completed_items_], the three handlers
    of the event loop ([on_generator_pollin], [on_worker_pollin],
    [send_heartbeat]) and the drain [send_pending_completions].

    Conventions of the embedding:
    - [size_t] and [ItemID] are 64-bit unsigned integers, modelled as [N]
      below [2^64];
    - a [zmq::multipart_t] is the list of its parts, [peekstr] and [at] index
      it from zero as cppzmq does;
    - a handler returns an [outcome]: it returns normally, fails an [assert],
      lets an exception escape, or runs into undefined behaviour;
    - what a handler hands to the sockets and to [std::cout]/[std::cerr] is
      collected as a list of [output] records;
    - [message.send(worker_socket_)] returns [true], returns [false] or
      throws [zmq::error_t]; which of the three it does for an identity is
      the field [worker_socket_] of the state, which the handlers only read
      and which the event [peers] of the environment sets;
    - an [Item] is immutable, so a [std::shared_ptr<Item>] is modelled as the
      address of the object together with the object it points to; the
      control block (the object and its use count) lives in the store
      [heap_], and the destructor [~Item] runs when the count reaches zero. *)

From Stdlib Require Import NArith ZArith Ascii String.
From Stdlib Require OrderedTypeEx.
From stdpp Require Import gmap strings list fin_maps sorting.

Local Open Scope string_scope.
Local Open Scope N_scope.
Local Open Scope list_scope.

(** ** Results of a handler *)

Inductive exception :=
| invalid_argument      (* std::stoull: no conversion *)
| out_of_range          (* std::stoull: overflow; std::map::at: no such key *)
| zmq_error.            (* zmq::error_t: a send that the socket refuses *)

Inductive outcome (A : Type) :=
| Done (a : A)                 (* the handler returned *)
| Aborted                      (* an assert failed *)
| Thrown (e : exception)       (* an exception left the handler *)
| Undefined.                   (* undefined behaviour *)
Arguments Done {A} a.
Arguments Aborted {A}.
Arguments Thrown {A} e.
Arguments Undefined {A}.

#[global] Instance outcome_ret : MRet outcome := fun A a => Done a.
#[global] Instance outcome_bind : MBind outcome := fun A B k m =>
  match m with
  | Done a => k a
  | Aborted => Aborted
  | Thrown e => Thrown e
  | Undefined => Undefined
  end.

(** ** Text scanning: [std::stringstream] extraction and [std::stoull] *)

Module Scan.

(** [std::isspace] in the "C" locale: space and the characters 9 to 13. *)
Definition isspace (c : ascii) : bool :=
  let n := N_of_ascii c in (n =? 32) || ((9 <=? n) && (n <=? 13)).

Definition isdigit (c : ascii) : bool :=
  let n := N_of_ascii c in (48 <=? n) && (n <=? 57).

Definition digit_value (c : ascii) : N := N_of_ascii c - 48.

Fixpoint skipws (s : string) : string :=
  match s with
  | String c s' => if isspace c then skipws s' else s
  | EmptyString => s
  end.

(** The characters up to the next white space, and the rest. *)
Fixpoint take_word (s : string) : string * string :=
  match s with
  | String c s' =>
      if isspace c then (EmptyString, s)
      else let '(w, r) := take_word s' in (String c w, r)
  | EmptyString => (EmptyString, EmptyString)
  end.

(** [s >> str] for a [std::string]: skip white space, take the characters
    up to the next white space; no character taken sets [failbit]. *)
Definition extract_string (s : string) : option (string * string) :=
  match take_word (skipws s) with
  | (EmptyString, _) => None
  | (w, r) => Some (w, r)
  end.

(** Decimal digits at the front of [s], accumulated onto [acc]; the
    [bool] tells whether a digit was seen. *)
Fixpoint take_digits (s : string) (acc : N) (seen : bool) : N * bool * string :=
  match s with
  | String c s' =>
      if isdigit c then take_digits s' (10 * acc + digit_value c) true
      else (acc, seen, s)
  | EmptyString => (acc, seen, s)
  end.

Definition size_max : N := 2 ^ 64.

Inductive scan_result :=
| Scanned (v : N) (rest : string)
| NoConversion
| Overflow.

(** An unsigned 64-bit decimal number as [strtoull] and [num_get] read it:
    white space, an optional sign, digits. A minus sign negates in the
    unsigned type; a value that does not fit is an overflow. *)
Definition scan_unsigned (s : string) : scan_result :=
  let s0 := skipws s in
  let '(neg, s1) :=
    match s0 with
    | String "-"%char r => (true, r)
    | String "+"%char r => (false, r)
    | _ => (false, s0)
    end in
  match take_digits s1 0 false with
  | (_, false, _) => NoConversion
  | (v, true, r) =>
      if size_max <=? v then Overflow
      else Scanned (if neg then (size_max - v) mod size_max else v) r
  end.

(** [s >> n] for a [size_t]: any failure sets [failbit]. *)
Definition extract_size_t (s : string) : option (N * string) :=
  match scan_unsigned s with
  | Scanned v r => Some (v, r)
  | _ => None
  end.

(** [std::stoull(str)]. *)
Definition stoull (s : string) : exception + N :=
  match scan_unsigned s with
  | Scanned v _ => inr v
  | NoConversion => inl invalid_argument
  | Overflow => inl out_of_range
  end.

End Scan.

(** ** Data model *)

(** [ItemID] comes from [ItemWorkerProtocol.hpp]; a 64-bit unsigned integer. *)
Definition ItemID := N.

(** Modelled from the spec: [WorkerQueuePolicy] and its [operator>>] are
    declared in [ItemWorkerProtocol.hpp], which is not among the sources. The
    policy is one of [Async], [PrebufferOne], [Skip], and on the wire it is
    the token of that name. *)
Inductive WorkerQueuePolicy := Async | PrebufferOne | Skip.

#[global] Instance WorkerQueuePolicy_eq_dec : EqDecision WorkerQueuePolicy.
Proof. solve_decision. Defined.

Definition extract_policy (s : string) : option (WorkerQueuePolicy * string) :=
  match Scan.extract_string s with
  | Some ("Async", r) => Some (Async, r)
  | Some ("PrebufferOne", r) => Some (PrebufferOne, r)
  | Some ("Skip", r) => Some (Skip, r)
  | _ => None
  end.

(** [class Item]: [completed_items_] is the ledger of the one distributor. *)
Record Item := { id_ : ItemID; payload_ : string }.

#[global] Instance Item_eq_dec : EqDecision Item.
Proof. solve_decision. Defined.

(** [std::shared_ptr<Item>]. *)
Record ItemPtr := { address : nat; pointee : Item }.

#[global] Instance ItemPtr_eq_dec : EqDecision ItemPtr.
Proof. solve_decision. Defined.

(** [p->id()] and [p->payload()]. *)
Definition item_id (p : ItemPtr) : ItemID := id_ (pointee p).
Definition item_payload (p : ItemPtr) : string := payload_ (pointee p).

(** [struct Worker]; [time_point] counts clock ticks. *)
Record Worker := {
  stride : N;
  offset : N;
  queue_policy : WorkerQueuePolicy;
  client_name : string;
  waiting_items : list ItemPtr;
  outstanding_items : list ItemPtr;
  next_heartbeat_time : Z
}.

(** [Worker::wants_item]: [id % stride == offset]; the remainder by zero is
    undefined. *)
Definition wants_item (w : Worker) (n : ItemID) : outcome bool :=
  if stride w =? 0 then Undefined else Done (n mod stride w =? offset w).

(** What the broker hands to [worker_socket_]. *)
Inductive broker_msg :=
| WORK_ITEM (n : ItemID) (data : string)
| HEARTBEAT
| DISCONNECT.

Inductive output :=
| to_worker (identity : string) (m : broker_msg)   (* message.send(worker_socket_) *)
| to_producer (n : ItemID)                         (* generator_socket_.send *)
| cout (line : string)
| cerr (line : string).

(** What [message.send(worker_socket_)] does with a message for an
    identity. [zmq::multipart_t::send] returns [true] when every part has
    been sent and [false] when the socket takes none ([EAGAIN]); any other
    error leaves it as a [zmq::error_t], and with [router_mandatory] (set in
    the constructor) that is what a [ZMQ_ROUTER] socket does with an identity
    it cannot route to. *)
Inductive send_result :=
| Sent                  (* send returns true *)
| NotSent               (* send returns false *)
| Unroutable.           (* send throws zmq::error_t *)

#[global] Instance send_result_eq_dec : EqDecision send_result.
Proof. solve_decision. Defined.

(** The members of [ItemDistributor] and the store of the [Item] objects:
    [worker_socket_] is the socket as the handlers use it, the result of a
    send for each identity, which depends on the peers the socket has at the
    moment; [heap_] maps the address of each live object to the object and
    its use count, [next_address] is the next address [std::make_shared]
    hands out. *)
Record ItemDistributor := {
  completed_items_ : list ItemID;
  workers_ : list (string * Worker);
  worker_socket_ : string -> send_result;
  heap_ : gmap nat (Item * nat);
  next_address : nat
}.

Definition set_completed (l : list ItemID) (d : ItemDistributor) :=
  {| completed_items_ := l; workers_ := workers_ d;
     worker_socket_ := worker_socket_ d;
     heap_ := heap_ d; next_address := next_address d |}.
Definition set_workers (ws : list (string * Worker)) (d : ItemDistributor) :=
  {| completed_items_ := completed_items_ d; workers_ := ws;
     worker_socket_ := worker_socket_ d;
     heap_ := heap_ d; next_address := next_address d |}.
Definition set_socket (s : string -> send_result) (d : ItemDistributor) :=
  {| completed_items_ := completed_items_ d; workers_ := workers_ d;
     worker_socket_ := s;
     heap_ := heap_ d; next_address := next_address d |}.

(** The distributor after its constructor: nothing received, nobody
    registered, and a socket without peers, which can route to no identity. *)
Definition initial : ItemDistributor :=
  {| completed_items_ := []; workers_ := [];
     worker_socket_ := fun _ => Unroutable;
     heap_ := ∅; next_address := 0 |}.
Definition set_heap (h : gmap nat (Item * nat)) (d : ItemDistributor) :=
  {| completed_items_ := completed_items_ d; workers_ := workers_ d;
     worker_socket_ := worker_socket_ d;
     heap_ := h; next_address := next_address d |}.

Definition set_waiting (l : list ItemPtr) (w : Worker) :=
  {| stride := stride w; offset := offset w; queue_policy := queue_policy w;
     client_name := client_name w; waiting_items := l;
     outstanding_items := outstanding_items w;
     next_heartbeat_time := next_heartbeat_time w |}.
Definition set_outstanding (l : list ItemPtr) (w : Worker) :=
  {| stride := stride w; offset := offset w; queue_policy := queue_policy w;
     client_name := client_name w; waiting_items := waiting_items w;
     outstanding_items := l;
     next_heartbeat_time := next_heartbeat_time w |}.

(** ** [std::map<std::string, ...>]: an association list kept in ascending
    key order, the order in which a range-for visits it. *)

Module StdMap.
Section ops.
Context {V : Type}.

Fixpoint find (k : string) (m : list (string * V)) : option V :=
  match m with
  | [] => None
  | (k', v) :: m' => if String.eqb k k' then Some v else find k m'
  end.

(** [m[k] = v]. *)
Fixpoint assign (k : string) (v : V) (m : list (string * V)) : list (string * V) :=
  match m with
  | [] => [(k, v)]
  | (k', v') :: m' =>
      match String.compare k k' with
      | Lt => (k, v) :: m
      | Eq => (k, v) :: m'
      | Gt => (k', v') :: assign k v m'
      end
  end.

(** [m.erase(k)]: the map without the key. *)
Fixpoint erase (k : string) (m : list (string * V)) : list (string * V) :=
  match m with
  | [] => []
  | (k', v) :: m' => if String.eqb k k' then m' else (k', v) :: erase k m'
  end.
End ops.
End StdMap.

(** ** Shared ownership *)

(** [std::make_shared<Item>(completed_items_, id, payload)]. *)
Definition make_shared (it : Item) (d : ItemDistributor) : ItemPtr * ItemDistributor :=
  let a := next_address d in
  ({| address := a; pointee := it |},
   {| completed_items_ := completed_items_ d; workers_ := workers_ d;
      worker_socket_ := worker_socket_ d;
      heap_ := <[a := (it, 1%nat)]> (heap_ d); next_address := S a |}).

(** Copying a [shared_ptr]: one more owner. *)
Definition copy_ptr (p : ItemPtr) (d : ItemDistributor) : ItemDistributor :=
  match heap_ d !! address p with
  | Some (it, n) => set_heap (<[address p := (it, S n)]> (heap_ d)) d
  | None => d
  end.

(** Destroying or resetting a [shared_ptr]: one owner less; the last owner
    destroys the object, and [~Item] appends its id to the ledger. *)
Definition release (p : ItemPtr) (d : ItemDistributor) : ItemDistributor :=
  match heap_ d !! address p with
  | Some (it, S (S n)) => set_heap (<[address p := (it, S n)]> (heap_ d)) d
  | Some (it, _) =>
      {| completed_items_ := completed_items_ d ++ [id_ it];
         workers_ := workers_ d;
         worker_socket_ := worker_socket_ d;
         heap_ := delete (address p) (heap_ d);
         next_address := next_address d |}
  | None => d
  end.

(** Destroying the elements of a [std::deque], front to back. *)
Definition release_all (l : list ItemPtr) (d : ItemDistributor) : ItemDistributor :=
  foldl (fun d p => release p d) d l.

(** [~Worker]: the members go in reverse order of declaration, so
    [outstanding_items] before [waiting_items]. *)
Definition destroy_worker (w : Worker) (d : ItemDistributor) : ItemDistributor :=
  release_all (waiting_items w) (release_all (outstanding_items w) d).

(** ** The producer feedback path *)

(** [send_pending_completions]. [fail_at] is the behaviour of the producer
    socket during this drain: [Some k] when the send number [k] (from zero)
    throws [zmq::error_t], [None] when no send fails. The [catch] logs the
    error; [completed_items_.clear()] follows it in every case. *)
Definition send_pending_completions (fail_at : option nat) (d : ItemDistributor)
  : ItemDistributor * list output :=
  let ledger := completed_items_ d in
  let out :=
    match fail_at with
    | Some k =>
        if (k <? length ledger)%nat
        then (to_producer <$> take k ledger) ++ [cout "ERROR: "]
        else to_producer <$> ledger
    | None => to_producer <$> ledger
    end in
  (set_completed [] d, out).

(** ** Item intake *)

(** [receive_producer_item]: the first part is the id, read by
    [std::stoull]; a second part, when there is one, is the payload. *)
Definition receive_producer_item (message : list string) (d : ItemDistributor)
  : outcome (ItemPtr * ItemDistributor) :=
  match message with
  | [] => Undefined
  | first :: rest =>
      match Scan.stoull first with
      | inl e => Thrown e
      | inr n =>
          let data := match rest with [] => "" | second :: _ => second end in
          Done (make_shared {| id_ := n; payload_ := data |} d)
      end
  end.

(** ** Sending on the worker socket *)

(** The end of [send_work_item], [send_heartbeat(identity)] and
    [send_disconnect]: [if (!message.send(worker_socket_))] writes a line to
    [std::cerr]; an exception of the send leaves the function. *)
Definition send (identity : string) (m : broker_msg) (d : ItemDistributor)
  : outcome (list output) :=
  match worker_socket_ d identity with
  | Sent => Done [to_worker identity m]
  | NotSent => Done [cerr "Error: message send failed"]
  | Unroutable => Thrown zmq_error
  end.

(** [send_work_item]: the frames are the identity, an empty part,
    ["WORK_ITEM <id>"] and the payload when it is not empty. *)
Definition send_work_item (identity : string) (p : ItemPtr) (d : ItemDistributor)
  : outcome (list output) :=
  send identity (WORK_ITEM (item_id p) (item_payload p)) d.

(** [send_heartbeat(identity)] and [send_disconnect(identity)]. *)
Definition send_heartbeat_to (identity : string) (d : ItemDistributor)
  : outcome (list output) :=
  send identity HEARTBEAT d.
Definition send_disconnect (identity : string) (d : ItemDistributor)
  : outcome (list output) :=
  send identity DISCONNECT d.

(** The body of the range-for of [on_generator_pollin], for one worker. *)
Definition distribute_to (new_item : ItemPtr) (identity : string) (w : Worker)
    (d : ItemDistributor) : outcome (Worker * ItemDistributor * list output) :=
  wanted ← wants_item w (item_id new_item);
  if wanted : bool then
    let '(w, d) :=
      if decide (queue_policy w = PrebufferOne)
      then (set_waiting [] w, release_all (waiting_items w) d)
      else (w, d) in
    match outstanding_items w with
    | [] =>
        let w := set_outstanding (outstanding_items w ++ [new_item]) w in
        let d := copy_ptr new_item d in          (* push_back(new_item) *)
        out ← send_work_item identity new_item d;
        Done (w, d, out)
    | _ :: _ =>
        if decide (queue_policy w ≠ Skip)
        then Done (set_waiting (waiting_items w ++ [new_item]) w,
                   copy_ptr new_item d, [])
        else Done (w, d, [])
    end
  else Done (w, d, []).

(** The range-for over [workers_], in the order of the map. *)
Fixpoint distribute (new_item : ItemPtr) (ws : list (string * Worker))
    (d : ItemDistributor)
  : outcome (list (string * Worker) * ItemDistributor * list output) :=
  match ws with
  | [] => Done ([], d, [])
  | (identity, w) :: ws' =>
      '(w', d', out) ← distribute_to new_item identity w d;
      '(ws'', d'', out') ← distribute new_item ws' d';
      Done ((identity, w') :: ws'', d'', out ++ out')
  end.

(** [on_generator_pollin]. *)
Definition on_generator_pollin (fail_at : option nat) (message : list string)
    (d : ItemDistributor) : outcome (ItemDistributor * list output) :=
  '(new_item, d) ← receive_producer_item message d;
  '(ws, d, out) ← distribute new_item (workers_ d) d;
  let d := set_workers ws d in
  let d := release new_item d in          (* new_item = nullptr *)
  let '(d, out') := send_pending_completions fail_at d in
  Done (d, out ++ out').

(** ** Worker messages *)

Definition assert (b : bool) : outcome unit := if b then Done () else Aborted.

(** [message.at(i)] throws when out of range, [message.peekstr(i)] does
    not check. *)
Definition at_ (i : nat) (message : list string) : outcome string :=
  match message !! i with Some s => Done s | None => Thrown out_of_range end.
Definition peekstr (i : nat) (message : list string) : outcome string :=
  match message !! i with Some s => Done s | None => Undefined end.

(** [s >> command >> c->stride >> c->offset >> c->queue_policy >>
    c->client_name] on a value-initialised [Worker]; [None] when [s.fail()]. *)
Definition parse_register (message_string : string) : option Worker :=
  '(command, s) ← Scan.extract_string message_string;
  '(stride, s) ← Scan.extract_size_t s;
  '(offset, s) ← Scan.extract_size_t s;
  '(policy, s) ← extract_policy s;
  '(name, s) ← Scan.extract_string s;
  Some {| stride := stride; offset := offset; queue_policy := policy;
          client_name := name; waiting_items := []; outstanding_items := [];
          next_heartbeat_time := 0%Z |}.

(** [s >> command >> id]; [None] when [s.fail()]. *)
Definition parse_complete (message_string : string) : option ItemID :=
  '(command, s) ← Scan.extract_string message_string;
  '(n, s) ← Scan.extract_size_t s;
  Some n.

(** [std::find_if] over a queue with the predicate [i->id() == id]: the
    position of the first such entry. *)
Fixpoint find_if (n : ItemID) (l : list ItemPtr) : option nat :=
  match l with
  | [] => None
  | p :: l' => if item_id p =? n then Some 0%nat else S <$> find_if n l'
  end.

(** The disconnect notification: [workers_.erase(identity)]. *)
Definition handle_disconnect (identity : string) (d : ItemDistributor)
  : ItemDistributor * list output :=
  let info := cout "Info: received disconnect notification" in
  match StdMap.find identity (workers_ d) with
  | Some w =>
      (destroy_worker w (set_workers (StdMap.erase identity (workers_ d)) d),
       [info])
  | None => (d, [info; cerr "Error: disconnect from unknown worker"])
  end.

(** The [REGISTER] branch: [workers_[identity] = std::move(c)]; a record
    already filed under the identity is destroyed. *)
Definition handle_register (identity message_string : string)
    (d : ItemDistributor) : outcome (ItemDistributor * list output) :=
  match parse_register message_string with
  | None => Aborted                              (* assert(!s.fail()) *)
  | Some c =>
      let d' := set_workers (StdMap.assign identity c (workers_ d)) d in
      match StdMap.find identity (workers_ d) with
      | Some old => Done (destroy_worker old d', [])
      | None => Done (d', [])
      end
  end.

(** The [COMPLETE] branch. *)
Definition handle_complete (identity message_string : string)
    (d : ItemDistributor) : outcome (ItemDistributor * list output) :=
  match StdMap.find identity (workers_ d) with
  | None => Thrown out_of_range                  (* workers_.at(identity) *)
  | Some c =>
      match parse_complete message_string with
      | None => Aborted                          (* assert(!s.fail()) *)
      | Some n =>
          match find_if n (outstanding_items c) with
          | None => Aborted                      (* assert(it != end) *)
          | Some i =>
              let erased := outstanding_items c !! i in
              let c := set_outstanding (delete i (outstanding_items c)) c in
              let d := match erased with Some p => release p d | None => d end in
              match waiting_items c with
              | [] =>
                  Done (set_workers (StdMap.assign identity c (workers_ d)) d, [])
              | item :: rest =>
                  let d := copy_ptr item d in    (* auto item = front() *)
                  let c := set_waiting rest c in
                  let d := release item d in     (* pop_front() *)
                  let c := set_outstanding (outstanding_items c ++ [item]) c in
                  let d := copy_ptr item d in    (* push_back(item) *)
                  out ← send_work_item identity item d;
                  let d := release item d in     (* item leaves scope *)
                  Done (set_workers (StdMap.assign identity c (workers_ d)) d, out)
              end
          end
      end
  end.

(** [on_worker_pollin]. *)
Definition on_worker_pollin (fail_at : option nat) (message : list string)
    (d : ItemDistributor) : outcome (ItemDistributor * list output) :=
  _ ← assert (2 <=? length message)%nat;
  part0 ← at_ 0 message;
  _ ← assert (0 <? String.length part0)%nat;
  part1 ← at_ 1 message;
  _ ← assert (String.length part1 =? 0)%nat;
  identity ← peekstr 1 message;
  '(d, out) ←
    (if (length message =? 2)%nat then
       Done (handle_disconnect identity d)
     else
       message_string ← peekstr 3 message;
       if String.prefix "REGISTER " message_string then
         handle_register identity message_string d
       else if String.prefix "COMPLETE " message_string then
         handle_complete identity message_string d
       else Done (d, []));
  let '(d, out') := send_pending_completions fail_at d in
  Done (d, out ++ out').

(** ** Heartbeats *)

(** [send_heartbeat()]: a [HEARTBEAT] is sent to every worker without an
    outstanding item, in the order of the map; the source reads no clock and
    writes no field. *)
Fixpoint send_heartbeat_loop (ws : list (string * Worker)) (d : ItemDistributor)
  : outcome (list output) :=
  match ws with
  | [] => Done []
  | (identity, w) :: ws' =>
      out ← match outstanding_items w with
            | [] => send_heartbeat_to identity d
            | _ :: _ => Done []
            end;
      out' ← send_heartbeat_loop ws' d;
      Done (out ++ out')
  end.
Definition send_heartbeat (d : ItemDistributor) : outcome (list output) :=
  send_heartbeat_loop (workers_ d) d.

(** ** The event loop *)

(** One thing that happens while [operator()] loops: a handler called by the
    poller, with the behaviour of the producer socket during its drain; the
    sweep [send_heartbeat()]; or, outside the program, a change of the peers
    of the worker socket, after which it answers the sends as [accepts]
    tells. *)
Inductive event :=
| generator_pollin (fail_at : option nat) (message : list string)
| worker_pollin (fail_at : option nat) (message : list string)
| heartbeat
| peers (accepts : string -> send_result).

Definition step (e : event) (d : ItemDistributor)
  : outcome (ItemDistributor * list output) :=
  match e with
  | generator_pollin f m => on_generator_pollin f m d
  | worker_pollin f m => on_worker_pollin f m d
  | heartbeat => out ← send_heartbeat d; Done (d, out)
  | peers accepts => Done (set_socket accepts d, [])
  end.

Fixpoint run (es : list event) (d : ItemDistributor)
  : outcome (ItemDistributor * list output) :=
  match es with
  | [] => Done (d, [])
  | e :: es' =>
      '(d', out) ← step e d;
      '(d'', out') ← run es' d';
      Done (d'', out ++ out')
  end.

(** ** The wire format of what the broker sends *)

(** [std::to_string] of an unsigned 64-bit value: its decimal digits, at
    most twenty of them. *)
Definition digit_char (n : N) : ascii := ascii_of_N (48 + n).
Fixpoint to_digits (fuel : nat) (n : N) (acc : string) : string :=
  match fuel with
  | O => acc
  | S fuel' =>
      let acc' := String (digit_char (n mod 10)) acc in
      if n / 10 =? 0 then acc' else to_digits fuel' (n / 10) acc'
  end.
Definition to_string (n : N) : string := to_digits 20 n "".


(** ** Observations on states and traces *)

(** The [shared_ptr]s a worker record holds, and those of a whole table. *)
Definition ptrs_of (w : Worker) : list ItemPtr :=
  outstanding_items w ++ waiting_items w.
Definition all_ptrs (ws : list (string * Worker)) : list ItemPtr :=
  ws ≫= (fun kw => ptrs_of kw.2).

(** The number of [shared_ptr]s in [l] that point to the address [a]. *)
Definition references (a : nat) (l : list ItemPtr) : nat :=
  length (filter (fun p => address p = a) l).

(** The ids handed to the producer socket, in order. *)
Definition delivered (out : list output) : list ItemID :=
  omap (fun o => match o with to_producer n => Some n | _ => None end) out.

(** The ids of the items the producer sent, in order. *)
Definition received_id (e : event) : option ItemID :=
  match e with
  | generator_pollin _ (first :: _) =>
      match Scan.stoull first with inr n => Some n | inl _ => None end
  | _ => None
  end.
Definition received (es : list event) : list ItemID := omap received_id es.

(** The ids of the [Item] objects that are alive. *)
Definition ids_of (h : gmap nat (Item * nat)) : list ItemID :=
  (fun x => id_ x.2.1) <$> map_to_list h.
Definition held (d : ItemDistributor) : list ItemID := ids_of (heap_ d).

(** The addresses in use stay below [next_address]. *)
Definition below (d : ItemDistributor) : Prop :=
  forall a, is_Some (heap_ d !! a) -> (a < next_address d)%nat.

(** No send on the producer socket fails during the trace. *)
Definition send_ok (e : event) : Prop :=
  match e with
  | generator_pollin f _ | worker_pollin f _ => f = None
  | heartbeat | peers _ => True
  end.


(** The messages handed to [worker_socket_] for one identity. *)
Definition sent_to (identity : string) (out : list output) : list broker_msg :=
  omap (fun o => match o with
                 | to_worker i m => if String.eqb i identity then Some m else None
                 | _ => None
                 end) out.

(** The order of the keys of a [std::map<std::string, ...>]. *)
Definition key_lt (a b : string) : Prop := String.compare a b = Lt.
Definition sorted_keys {V} (m : list (string * V)) : Prop :=
  StronglySorted key_lt (m.*1).


(** The store [h] agrees with the [shared_ptr]s [l]: every pointer of [l]
    points to a live object, and the use count of every live object is the
    number of pointers of [l] that point to it, which is not zero. *)
Definition owned_by (h : gmap nat (Item * nat)) (l : list ItemPtr) : Prop :=
  (forall p, p ∈ l -> exists n, h !! address p = Some (pointee p, n)) /\
  (forall a it n, h !! a = Some (it, n) -> n = references a l /\ (0 < n)%nat).

(** What holds of a worker record between two events. *)
Definition matches (w : Worker) (p : ItemPtr) : Prop :=
  stride w <> 0 /\ item_id p mod stride w = offset w.
Definition worker_ok (w : Worker) : Prop :=
  (length (outstanding_items w) <= 1)%nat /\
  (outstanding_items w = [] -> waiting_items w = []) /\
  (queue_policy w = PrebufferOne -> (length (waiting_items w) <= 1)%nat) /\
  (queue_policy w = Skip -> waiting_items w = []) /\
  Forall (matches w) (ptrs_of w).

(** Two records with the same parameters. *)
Definition same_params (w w' : Worker) : Prop :=
  stride w' = stride w /\ offset w' = offset w /\
  queue_policy w' = queue_policy w /\ client_name w' = client_name w /\
  next_heartbeat_time w' = next_heartbeat_time w.

(** What holds of the table and the store at any time. *)
Definition consistent (d : ItemDistributor) : Prop :=
  sorted_keys (workers_ d) /\
  owned_by (heap_ d) (all_ptrs (workers_ d)) /\
  below d /\
  Forall (fun kw => worker_ok kw.2) (workers_ d).

(** What holds of the distributor between two events: the ledger has been
    drained as well. *)
Definition wf (d : ItemDistributor) : Prop :=
  completed_items_ d = [] /\ consistent d.

(** A worker that is sent the item [n] at intake: it wants the item and has
    nothing outstanding. *)
Definition takes_now (n : ItemID) (w : Worker) : bool :=
  (n mod stride w =? offset w) &&
  match outstanding_items w with [] => true | _ :: _ => false end.


(** An event that is not a message filed under [identity]: the handler
    takes the identity of a worker message from the part at index 1. *)
Definition not_from (identity : string) (e : event) : Prop :=
  match e with
  | worker_pollin _ m => m !! 1%nat <> Some identity
  | _ => True
  end.

(** The item a producer message carries. *)
Definition received_item (e : event) : option Item :=
  match e with
  | generator_pollin _ (first :: rest) =>
      match Scan.stoull first with
      | inr n =>
          Some {| id_ := n;
                  payload_ := match rest with [] => "" | second :: _ => second end |}
      | inl _ => None
      end
  | _ => None
  end.

(** The newest item of a trace that a worker with the parameters of [w]
    wants. *)
Definition wanted_by (w : Worker) (it : Item) : bool :=
  id_ it mod stride w =? offset w.

(** What an arriving item does to the waiting items of a busy worker with
    the parameters of [w]. *)
Definition enqueue (w : Worker) (waiting : list Item) (it : Item) : list Item :=
  if wanted_by w it then
    match queue_policy w with
    | Async => waiting ++ [it]
    | PrebufferOne => [it]
    | Skip => waiting
    end
  else waiting.



(** No object is referenced twice from the queues of one worker. *)
Definition distinct_ptrs (w : Worker) : Prop :=
  forall a, (references a (ptrs_of w) <= 1)%nat.

(** The items sent as [WORK_ITEM] to one identity, in the order of the
    sends. *)
Definition work_items_to (identity : string) (out : list output) : list Item :=
  omap (fun m => match m with
                 | WORK_ITEM n data => Some {| id_ := n; payload_ := data |}
                 | _ => None
                 end) (sent_to identity out).

(** An event that leaves the record filed under [identity] in the table: it
    is neither the disconnect notification nor a [REGISTER] that the handler
    files under [identity]. *)
Definition keeps_record (identity : string) (e : event) : Prop :=
  match e with
  | worker_pollin _ m =>
      m !! 1%nat = Some identity ->
      exists s, m !! 3%nat = Some s /\ String.prefix "REGISTER " s = false
  | _ => True
  end.

(** ** Example messages

    A message on the worker socket that passes the [assert]s and carries the
    text [s] at index 3, the disconnect notification, and a producer message
    without payload. *)
Definition worker_says (s : string) : list string := ["worker-1"; ""; ""; s].
Definition worker_gone : list string := ["worker-1"; ""].
Definition produce (s : string) : event := generator_pollin None [s].

(** The worker socket takes every message it is handed. *)
Definition connected : event := peers (fun _ => Sent).

(** A record as a [REGISTER] files it. *)
Definition fresh_record (stride offset : N) (policy : WorkerQueuePolicy)
    (name : string) : Worker :=
  {| stride := stride; offset := offset; queue_policy := policy;
     client_name := name; waiting_items := []; outstanding_items := [];
     next_heartbeat_time := 0%Z |}.

(** * Properties *)

#[local] Arguments send_pending_completions : simpl never.
#[local] Arguments send : simpl never.
#[local] Arguments send_work_item : simpl never.
#[local] Arguments send_heartbeat_to : simpl never.
#[local] Arguments handle_disconnect : simpl never.
#[local] Arguments handle_register : simpl never.
#[local] Arguments handle_complete : simpl never.

(** ** Facts about the map *)

Module StdMapFacts.
Import StdMap.

Lemma key_lt_trans a b c : key_lt a b -> key_lt b c -> key_lt a c.
Proof.
  unfold key_lt. intros H1 H2.
  apply OrderedTypeEx.String_as_OT.cmp_lt in H1, H2.
  apply OrderedTypeEx.String_as_OT.cmp_lt.
  eapply OrderedTypeEx.String_as_OT.lt_trans; eassumption.
Qed.

Lemma key_lt_irrefl a : ~ key_lt a a.
Proof.
  unfold key_lt. intros H.
  assert (E : String.compare a a = Eq)
    by (apply OrderedTypeEx.String_as_OT.cmp_eq; reflexivity).
  congruence.
Qed.

Lemma compare_gt_lt a b : String.compare a b = Gt -> key_lt b a.
Proof.
  unfold key_lt. intros H. rewrite String.compare_antisym, H. reflexivity.
Qed.

Lemma compare_eq a b : String.compare a b = Eq -> a = b.
Proof. apply String.compare_eq_iff. Qed.

Lemma compare_ne_eqb a b : String.compare a b <> Eq -> String.eqb a b = false.
Proof.
  intros H. apply String.eqb_neq. intros ->. apply H.
  apply OrderedTypeEx.String_as_OT.cmp_eq. reflexivity.
Qed.

Section facts.
Context {V : Type}.
Implicit Types (m : list (string * V)) (k : string) (v : V).

Lemma find_assign_eq k v m : find k (assign k v m) = Some v.
Proof.
  induction m as [|[k' v'] m IH]; simpl.
  - rewrite String.eqb_refl. reflexivity.
  - destruct (String.compare k k') eqn:E; simpl.
    + rewrite String.eqb_refl. reflexivity.
    + rewrite String.eqb_refl. reflexivity.
    + rewrite compare_ne_eqb by congruence. exact IH.
Qed.

Lemma find_assign_ne k k' v m : k <> k' -> find k' (assign k v m) = find k' m.
Proof.
  intros Hne. induction m as [|[k0 v0] m IH]; simpl.
  - apply String.eqb_neq in Hne. rewrite String.eqb_sym, Hne. reflexivity.
  - destruct (String.compare k k0) eqn:E; simpl.
    + apply compare_eq in E. subst k0.
      assert (String.eqb k' k = false) as -> by (apply String.eqb_neq; congruence).
      reflexivity.
    + assert (String.eqb k' k = false) as -> by (apply String.eqb_neq; congruence).
      reflexivity.
    + destruct (String.eqb k' k0); [reflexivity | exact IH].
Qed.

Lemma find_erase_ne k k' m : k <> k' -> find k' (erase k m) = find k' m.
Proof.
  intros Hne. induction m as [|[k0 v0] m IH]; simpl; [reflexivity|].
  destruct (String.eqb k k0) eqn:E; simpl.
  - apply String.eqb_eq in E. subst k0.
    assert (String.eqb k' k = false) as -> by (apply String.eqb_neq; congruence).
    reflexivity.
  - destruct (String.eqb k' k0); [reflexivity | exact IH].
Qed.

Lemma find_elem_of k v m : find k m = Some v -> (k, v) ∈ m.
Proof.
  induction m as [|[k0 v0] m IH]; simpl; [discriminate|].
  destruct (String.eqb k k0) eqn:E.
  - apply String.eqb_eq in E. intros [= ->]. subst. left.
  - intros H. right. auto.
Qed.

Lemma find_None_keys k m : find k m = None -> k ∉ m.*1.
Proof.
  induction m as [|[k0 v0] m IH]; simpl.
  - intros _. apply not_elem_of_nil.
  - destruct (String.eqb k k0) eqn:E; [discriminate|].
    intros H. apply not_elem_of_cons. split; [|auto].
    apply String.eqb_neq. exact E.
Qed.

Lemma find_split k v m :
  find k m = Some v -> m ≡ₚ (k, v) :: erase k m.
Proof.
  induction m as [|[k0 v0] m IH]; simpl; [discriminate|].
  destruct (String.eqb k k0) eqn:E.
  - apply String.eqb_eq in E. intros [= ->]. subst. reflexivity.
  - intros H. rewrite (IH H) at 1. apply Permutation_swap.
Qed.

Lemma erase_absent k m : find k m = None -> erase k m = m.
Proof.
  induction m as [|[k0 v0] m IH]; simpl; [reflexivity|].
  destruct (String.eqb k k0); [discriminate|].
  intros H. rewrite IH by exact H. reflexivity.
Qed.

Lemma assign_absent k v m : find k m = None -> assign k v m ≡ₚ (k, v) :: m.
Proof.
  induction m as [|[k0 v0] m IH]; simpl; [reflexivity|].
  destruct (String.eqb k k0) eqn:E; [discriminate|].
  intros H. destruct (String.compare k k0) eqn:C.
  - apply compare_eq in C. apply String.eqb_neq in E. contradiction.
  - reflexivity.
  - rewrite (IH H). apply Permutation_swap.
Qed.

Lemma sorted_find_lt k k0 m :
  Forall (key_lt k0) (m.*1) -> (key_lt k k0 \/ k = k0) -> find k m = None.
Proof.
  intros HF Hk. induction m as [|[k1 v1] m IH]; simpl; [reflexivity|].
  apply Forall_cons in HF as [H1 HF].
  destruct (String.eqb k k1) eqn:E; [|auto].
  apply String.eqb_eq in E. subst k1. exfalso.
  destruct Hk as [Hk| ->].
  - apply (key_lt_irrefl k). eapply key_lt_trans; eassumption.
  - apply (key_lt_irrefl k0). exact H1.
Qed.

Lemma assign_present k v m :
  sorted_keys m -> is_Some (find k m) -> assign k v m ≡ₚ (k, v) :: erase k m.
Proof.
  unfold sorted_keys. induction m as [|[k0 v0] m IH]; simpl.
  - intros _ [? [=]].
  - intros HS Hf. apply StronglySorted_inv in HS as [HS HF].
    destruct (String.compare k k0) eqn:C.
    + apply compare_eq in C. subst k0. rewrite String.eqb_refl. reflexivity.
    + exfalso. rewrite compare_ne_eqb in Hf by congruence.
      rewrite (sorted_find_lt k k0 m HF) in Hf by (left; exact C).
      destruct Hf as [? [=]].
    + rewrite compare_ne_eqb in * by congruence.
      rewrite (IH HS Hf). apply Permutation_swap.
Qed.

Lemma Forall_keys_assign (P : string -> Prop) k v m :
  P k -> Forall P (m.*1) -> Forall P ((assign k v m).*1).
Proof.
  intros Hk. induction m as [|[k0 v0] m IH]; simpl; intros HF.
  - constructor; [exact Hk | constructor].
  - apply Forall_cons in HF as [H0 HF].
    destruct (String.compare k k0); simpl.
    + constructor; assumption.
    + constructor; [assumption|]. constructor; assumption.
    + constructor; [assumption|]. auto.
Qed.

Lemma sorted_assign k v m : sorted_keys m -> sorted_keys (assign k v m).
Proof.
  unfold sorted_keys. induction m as [|[k0 v0] m IH]; simpl; intros HS.
  - constructor; constructor.
  - apply StronglySorted_inv in HS as [HS HF].
    destruct (String.compare k k0) eqn:C; simpl.
    + apply compare_eq in C. subst k0. constructor; assumption.
    + constructor.
      * constructor; assumption.
      * constructor; [exact C|].
        eapply Forall_impl; [exact HF|].
        intros x Hx. eapply key_lt_trans; eassumption.
    + constructor; [auto|].
      apply Forall_keys_assign; [|exact HF].
      apply compare_gt_lt. exact C.
Qed.

Lemma Forall_keys_erase (P : string -> Prop) k m :
  Forall P (m.*1) -> Forall P ((erase k m).*1).
Proof.
  induction m as [|[k0 v0] m IH]; simpl; intros HF; [constructor|].
  apply Forall_cons in HF as [H0 HF].
  destruct (String.eqb k k0); simpl; [assumption|].
  constructor; auto.
Qed.

Lemma sorted_erase k m : sorted_keys m -> sorted_keys (erase k m).
Proof.
  unfold sorted_keys. induction m as [|[k0 v0] m IH]; simpl; intros HS.
  - constructor.
  - apply StronglySorted_inv in HS as [HS HF].
    destruct (String.eqb k k0); simpl; [assumption|].
    constructor; [auto|]. apply Forall_keys_erase. exact HF.
Qed.

Lemma Forall_assign (P : string * V -> Prop) k v m :
  P (k, v) -> Forall P m -> Forall P (assign k v m).
Proof.
  intros Hk. induction m as [|[k0 v0] m IH]; simpl; intros HF.
  - constructor; [exact Hk | constructor].
  - apply Forall_cons in HF as [H0 HF].
    destruct (String.compare k k0).
    + constructor; assumption.
    + constructor; [assumption|]. constructor; assumption.
    + constructor; [assumption|]. auto.
Qed.

Lemma Forall_erase (P : string * V -> Prop) k m :
  Forall P m -> Forall P (erase k m).
Proof.
  induction m as [|[k0 v0] m IH]; simpl; intros HF; [constructor|].
  apply Forall_cons in HF as [H0 HF].
  destruct (String.eqb k k0); [assumption|].
  constructor; auto.
Qed.
End facts.
End StdMapFacts.

(** ** Facts about shared ownership *)

Lemma references_cons a p l :
  references a (p :: l) =
  if decide (address p = a) then S (references a l) else references a l.
Proof.
  unfold references. rewrite filter_cons.
  destruct (decide (address p = a)); reflexivity.
Qed.

Lemma references_app a l1 l2 :
  references a (l1 ++ l2) = (references a l1 + references a l2)%nat.
Proof. unfold references. rewrite filter_app, length_app. reflexivity. Qed.

Lemma references_perm a l1 l2 : l1 ≡ₚ l2 -> references a l1 = references a l2.
Proof. intros H. unfold references. rewrite H. reflexivity. Qed.

Lemma references_0 a l :
  references a l = 0%nat <-> forall p, p ∈ l -> address p <> a.
Proof.
  induction l as [|q l IH].
  - split; [intros _ p Hp; inversion Hp | reflexivity].
  - rewrite references_cons. destruct (decide (address q = a)) as [E|E].
    + split; [discriminate|]. intros H. exfalso. apply (H q); [left | exact E].
    + rewrite IH. split.
      * intros H p Hp. apply elem_of_cons in Hp as [->|Hp]; auto.
      * intros H p Hp. apply H. right. exact Hp.
Qed.

#[global] Instance owned_by_perm h : Proper ((≡ₚ) ==> iff) (owned_by h).
Proof.
  assert (forall l1 l2, l1 ≡ₚ l2 -> owned_by h l1 -> owned_by h l2) as Hone.
  { intros l1 l2 Hp [H1 H2]. split.
    - intros p Hin. apply H1. rewrite Hp. exact Hin.
    - intros a it n Ha. rewrite <- (references_perm a l1 l2 Hp). eauto. }
  intros l1 l2 Hp. split; apply Hone; [exact Hp | symmetry; exact Hp].
Qed.

Lemma owned_by_empty : owned_by ∅ [].
Proof.
  split.
  - intros p Hp. inversion Hp.
  - intros a it n Ha. rewrite lookup_empty in Ha. discriminate.
Qed.

Lemma owned_by_nil_empty h : owned_by h [] -> h = ∅.
Proof.
  intros [_ H2]. apply map_eq. intros a. rewrite lookup_empty.
  destruct (h !! a) as [[it n]|] eqn:E; [|reflexivity].
  destruct (H2 a it n E) as [-> Hn]. inversion Hn.
Qed.

Lemma owned_by_fresh h l a :
  owned_by h l -> h !! a = None -> references a l = 0%nat.
Proof.
  intros [H1 _] Ha. apply references_0. intros p Hp E.
  destruct (H1 p Hp) as [n Hn]. rewrite E in Hn. congruence.
Qed.

Lemma owned_by_alloc h l a it :
  owned_by h l -> h !! a = None ->
  owned_by (<[a := (it, 1%nat)]> h) ({| address := a; pointee := it |} :: l).
Proof.
  intros Ho Ha. pose proof (owned_by_fresh h l a Ho Ha) as Hz.
  destruct Ho as [H1 H2]. split.
  - intros p Hp. apply elem_of_cons in Hp as [->|Hp]; simpl.
    + exists 1%nat. apply lookup_insert_eq.
    + destruct (H1 p Hp) as [n Hn]. exists n.
      rewrite lookup_insert_ne; [exact Hn|]. intros E. rewrite <- E in Hn. congruence.
  - intros b it' n Hb. rewrite references_cons. simpl.
    destruct (decide (a = b)) as [->|E].
    + rewrite lookup_insert_eq in Hb. injection Hb as <- <-.
      rewrite Hz. split; [reflexivity | constructor].
    + rewrite lookup_insert_ne in Hb by exact E. eauto.
Qed.

Lemma owned_by_copy d l p :
  owned_by (heap_ d) l -> p ∈ l -> owned_by (heap_ (copy_ptr p d)) (p :: l).
Proof.
  intros [H1 H2] Hp. unfold copy_ptr.
  destruct (H1 p Hp) as [n Hn]. rewrite Hn. simpl. split.
  - intros q Hq.
    assert (q ∈ l) as Hq' by (apply elem_of_cons in Hq as [->|Hq]; assumption).
    destruct (H1 q Hq') as [m Hm].
    destruct (decide (address p = address q)) as [E|E].
    + exists (S n). rewrite E, lookup_insert_eq. rewrite <- E, Hn in Hm. congruence.
    + exists m. rewrite lookup_insert_ne by exact E. exact Hm.
  - intros a it m Ha. rewrite references_cons.
    destruct (decide (address p = a)) as [<-|E].
    + rewrite lookup_insert_eq in Ha. injection Ha as <- <-.
      destruct (H2 _ _ _ Hn) as [<- Hpos]. split; [reflexivity | lia].
    + rewrite lookup_insert_ne in Ha by exact E. eauto.
Qed.

(** The last owner alone runs [~Item]. *)
Lemma owned_by_release d l p :
  owned_by (heap_ d) (p :: l) ->
  owned_by (heap_ (release p d)) l /\
  completed_items_ (release p d) =
    completed_items_ d ++
    (if decide (references (address p) l = 0%nat) then [item_id p] else []) /\
  workers_ (release p d) = workers_ d /\
  next_address (release p d) = next_address d.
Proof.
  intros [H1 H2]. unfold release.
  destruct (H1 p) as [n Hn]; [left|]. rewrite Hn.
  destruct (H2 _ _ _ Hn) as [Hc Hpos].
  rewrite references_cons, decide_True in Hc by reflexivity.
  assert (forall q, q ∈ l -> exists m, heap_ d !! address q = Some (pointee q, m)) as H1'
    by (intros q Hq; apply H1; right; exact Hq).
  destruct n as [|[|n]]; [lia| |]; simpl.
  - (* the last owner *)
    assert (references (address p) l = 0%nat) as Hz by lia.
    rewrite decide_True by exact Hz. repeat split; try reflexivity.
    + intros q Hq. destruct (H1' q Hq) as [m Hm]. exists m.
      rewrite lookup_delete_ne; [exact Hm|].
      intros E. eapply references_0; eauto.
    + apply lookup_delete_Some in H as [E Ha].
      destruct (H2 _ _ _ Ha) as [-> _].
      rewrite references_cons, decide_False by exact E. reflexivity.
    + apply lookup_delete_Some in H as [E Ha].
      destruct (H2 _ _ _ Ha) as [_ ?]. assumption.
  - (* other owners remain *)
    rewrite decide_False by lia. rewrite app_nil_r. repeat split; try reflexivity.
    + intros q Hq. destruct (H1' q Hq) as [m Hm].
      destruct (decide (address p = address q)) as [E|E].
      * exists (S n). rewrite E, lookup_insert_eq. rewrite <- E, Hn in Hm. congruence.
      * exists m. rewrite lookup_insert_ne by exact E. exact Hm.
    + destruct (decide (address p = a)) as [<-|E].
      * rewrite lookup_insert_eq in H. injection H as <- <-. lia.
      * rewrite lookup_insert_ne in H by exact E.
        destruct (H2 _ _ _ H) as [-> _].
        rewrite references_cons, decide_False by exact E. reflexivity.
    + destruct (decide (address p = a)) as [<-|E].
      * rewrite lookup_insert_eq in H. injection H as <- <-. lia.
      * rewrite lookup_insert_ne in H by exact E.
        destruct (H2 _ _ _ H) as [_ ?]. assumption.
Qed.

Lemma owned_by_release_all l : forall d L,
  owned_by (heap_ d) (l ++ L) ->
  owned_by (heap_ (release_all l d)) L /\
  workers_ (release_all l d) = workers_ d /\
  next_address (release_all l d) = next_address d.
Proof.
  induction l as [|p l IH]; intros d L Ho; simpl.
  - split; [exact Ho | split; reflexivity].
  - destruct (owned_by_release d (l ++ L) p Ho) as (Ho' & _ & Hw & Hn).
    destruct (IH (release p d) L Ho') as (? & ? & ?).
    unfold release_all in *. split; [assumption | split; congruence].
Qed.

Lemma owned_by_destroy_worker w d L :
  owned_by (heap_ d) (ptrs_of w ++ L) ->
  owned_by (heap_ (destroy_worker w d)) L /\
  workers_ (destroy_worker w d) = workers_ d /\
  next_address (destroy_worker w d) = next_address d.
Proof.
  unfold ptrs_of, destroy_worker. rewrite <- app_assoc. intros Ho.
  destruct (owned_by_release_all _ _ _ Ho) as (Ho1 & Hw1 & Hn1).
  destruct (owned_by_release_all _ _ _ Ho1) as (Ho2 & Hw2 & Hn2).
  split; [assumption | split; congruence].
Qed.

(** A copy that is destroyed again leaves the store as it was. *)
Lemma release_copy_ptr d l p :
  owned_by (heap_ d) l -> p ∈ l -> release p (copy_ptr p d) = d.
Proof.
  intros [H1 H2] Hp. destruct (H1 p Hp) as [n Hn].
  destruct (H2 _ _ _ Hn) as [_ Hpos].
  unfold copy_ptr. rewrite Hn. unfold release. simpl.
  rewrite lookup_insert_eq. destruct n as [|n]; [lia|].
  unfold set_heap. simpl. rewrite insert_insert_eq, insert_id by exact Hn.
  destruct d; reflexivity.
Qed.

Lemma copy_ptr_fields p d :
  completed_items_ (copy_ptr p d) = completed_items_ d /\
  workers_ (copy_ptr p d) = workers_ d /\
  next_address (copy_ptr p d) = next_address d.
Proof. unfold copy_ptr. destruct (heap_ d !! address p) as [[? ?]|]; auto. Qed.

Lemma release_fields p d :
  workers_ (release p d) = workers_ d /\
  next_address (release p d) = next_address d.
Proof.
  unfold release. destruct (heap_ d !! address p) as [[? [|[|?]]]|]; auto.
Qed.

Lemma release_all_fields l : forall d,
  workers_ (release_all l d) = workers_ d /\
  next_address (release_all l d) = next_address d.
Proof.
  induction l as [|p l IH]; intros d; simpl; [auto|].
  destruct (IH (release p d)) as [-> ->]. apply release_fields.
Qed.

Lemma destroy_worker_fields w d :
  workers_ (destroy_worker w d) = workers_ d /\
  next_address (destroy_worker w d) = next_address d.
Proof.
  unfold destroy_worker.
  destruct (release_all_fields (waiting_items w)
              (release_all (outstanding_items w) d)) as [-> ->].
  apply release_all_fields.
Qed.

Lemma below_copy_ptr p d : below d -> below (copy_ptr p d).
Proof.
  unfold below, copy_ptr. intros Hb a.
  destruct (heap_ d !! address p) as [[it n]|] eqn:E; [|apply Hb].
  simpl. intros Ha. apply Hb.
  destruct (decide (address p = a)) as [<-|Hne]; [eauto|].
  rewrite lookup_insert_ne in Ha by exact Hne. exact Ha.
Qed.

Lemma below_release p d : below d -> below (release p d).
Proof.
  unfold below, release. intros Hb a.
  destruct (heap_ d !! address p) as [[it [|[|n]]]|] eqn:E; simpl;
    try apply Hb; intros Ha; apply Hb.
  - apply lookup_delete_is_Some in Ha. tauto.
  - apply lookup_delete_is_Some in Ha. tauto.
  - destruct (decide (address p = a)) as [<-|Hne]; [eauto|].
    rewrite lookup_insert_ne in Ha by exact Hne. exact Ha.
Qed.

Lemma below_release_all l : forall d, below d -> below (release_all l d).
Proof.
  induction l as [|p l IH]; intros d Hb; simpl; [exact Hb|].
  apply IH, below_release, Hb.
Qed.

Lemma below_destroy_worker w d : below d -> below (destroy_worker w d).
Proof. intros Hb. apply below_release_all, below_release_all, Hb. Qed.

Lemma below_make_shared it d : below d -> below (make_shared it d).2.
Proof.
  unfold below, make_shared. simpl. intros Hb a Ha.
  destruct (decide (next_address d = a)) as [<-|Hne]; [lia|].
  rewrite lookup_insert_ne in Ha by exact Hne. specialize (Hb a Ha). lia.
Qed.

Lemma below_fresh d : below d -> heap_ d !! next_address d = None.
Proof.
  intros Hb. destruct (heap_ d !! next_address d) eqn:E; [|reflexivity].
  specialize (Hb (next_address d)). rewrite E in Hb.
  assert (next_address d < next_address d)%nat by (apply Hb; eauto). lia.
Qed.

(** ** Conservation of item ids in the store and the ledger *)

Lemma ids_of_insert_fresh h a it n :
  h !! a = None -> ids_of (<[a := (it, n)]> h) ≡ₚ id_ it :: ids_of h.
Proof.
  intros Ha. unfold ids_of. rewrite map_to_list_insert by exact Ha. reflexivity.
Qed.

Lemma ids_of_delete h a it n :
  h !! a = Some (it, n) -> ids_of h ≡ₚ id_ it :: ids_of (delete a h).
Proof.
  intros Ha. unfold ids_of. rewrite <- (map_to_list_delete h a (it, n)) by exact Ha.
  reflexivity.
Qed.

Lemma ids_of_update h a it n m :
  h !! a = Some (it, n) -> ids_of (<[a := (it, m)]> h) ≡ₚ ids_of h.
Proof.
  intros Ha. rewrite <- insert_delete_eq.
  rewrite ids_of_insert_fresh by apply lookup_delete_eq.
  symmetry. eapply ids_of_delete. exact Ha.
Qed.

Lemma held_copy_ptr p d : held (copy_ptr p d) ≡ₚ held d.
Proof.
  unfold copy_ptr. destruct (heap_ d !! address p) as [[it n]|] eqn:E; [|reflexivity].
  apply (ids_of_update _ _ _ _ _ E).
Qed.

Lemma held_release p d :
  held (release p d) ++ completed_items_ (release p d) ≡ₚ
  held d ++ completed_items_ d.
Proof.
  unfold release. destruct (heap_ d !! address p) as [[it [|[|n]]]|] eqn:E;
    simpl; try reflexivity.
  - change (ids_of (delete (address p) (heap_ d)) ++ completed_items_ d ++ [id_ it]
            ≡ₚ ids_of (heap_ d) ++ completed_items_ d).
    rewrite (ids_of_delete _ _ _ _ E).
    rewrite (Permutation_app_comm (completed_items_ d)). simpl.
    rewrite Permutation_middle. reflexivity.
  - change (ids_of (delete (address p) (heap_ d)) ++ completed_items_ d ++ [id_ it]
            ≡ₚ ids_of (heap_ d) ++ completed_items_ d).
    rewrite (ids_of_delete _ _ _ _ E).
    rewrite (Permutation_app_comm (completed_items_ d)). simpl.
    rewrite Permutation_middle. reflexivity.
  - apply Permutation_app; [|reflexivity]. apply (ids_of_update _ _ _ _ _ E).
Qed.

Lemma held_release_all l : forall d,
  held (release_all l d) ++ completed_items_ (release_all l d) ≡ₚ
  held d ++ completed_items_ d.
Proof.
  induction l as [|p l IH]; intros d; simpl; [reflexivity|].
  rewrite IH. apply held_release.
Qed.

Lemma held_destroy_worker w d :
  held (destroy_worker w d) ++ completed_items_ (destroy_worker w d) ≡ₚ
  held d ++ completed_items_ d.
Proof. unfold destroy_worker. rewrite !held_release_all. reflexivity. Qed.

Lemma held_make_shared it d :
  below d -> held (make_shared it d).2 ≡ₚ id_ it :: held d.
Proof.
  intros Hb. unfold make_shared, held. simpl.
  apply ids_of_insert_fresh, below_fresh, Hb.
Qed.

(** ** Item intake: what the fan-out does to the store and to a record *)

Lemma all_ptrs_cons k w ws : all_ptrs ((k, w) :: ws) = ptrs_of w ++ all_ptrs ws.
Proof. reflexivity. Qed.

#[global] Instance all_ptrs_perm : Proper ((≡ₚ) ==> (≡ₚ)) all_ptrs.
Proof. intros l1 l2 H. unfold all_ptrs. rewrite H. reflexivity. Qed.

(** ** Sends on the worker socket *)

Lemma send_Done identity m d out :
  send identity m d = Done out ->
  (worker_socket_ d identity = Sent /\ out = [to_worker identity m]) \/
  (worker_socket_ d identity = NotSent /\
   out = [cerr "Error: message send failed"]).
Proof.
  unfold send. destruct (worker_socket_ d identity); intros H;
    [left | right | discriminate H]; injection H as <-; auto.
Qed.

Lemma send_Sent identity m d :
  worker_socket_ d identity = Sent -> send identity m d = Done [to_worker identity m].
Proof. unfold send. intros ->. reflexivity. Qed.


Lemma send_elem identity m d out j m' :
  send identity m d = Done out -> to_worker j m' ∈ out ->
  j = identity /\ m' = m /\ worker_socket_ d identity = Sent.
Proof.
  intros H Hin. apply send_Done in H as [[Hs ->]|[_ ->]];
    apply list_elem_of_singleton in Hin; [|discriminate Hin].
  injection Hin as -> ->. auto.
Qed.

Lemma send_same_socket identity m d d' :
  worker_socket_ d' = worker_socket_ d -> send identity m d' = send identity m d.
Proof. unfold send. intros ->. reflexivity. Qed.

Lemma copy_ptr_socket p d : worker_socket_ (copy_ptr p d) = worker_socket_ d.
Proof. unfold copy_ptr. destruct (heap_ d !! address p) as [[? ?]|]; auto. Qed.

Lemma release_socket p d : worker_socket_ (release p d) = worker_socket_ d.
Proof.
  unfold release. destruct (heap_ d !! address p) as [[? [|[|?]]]|]; auto.
Qed.

Lemma release_all_socket l : forall d,
  worker_socket_ (release_all l d) = worker_socket_ d.
Proof.
  induction l as [|p l IH]; intros d; simpl; [reflexivity|].
  rewrite IH. apply release_socket.
Qed.

Lemma destroy_worker_socket w d :
  worker_socket_ (destroy_worker w d) = worker_socket_ d.
Proof. unfold destroy_worker. rewrite !release_all_socket. reflexivity. Qed.

Lemma send_work_item_same identity p d d' :
  worker_socket_ d' = worker_socket_ d ->
  send_work_item identity p d' = send_work_item identity p d.
Proof. apply send_same_socket. Qed.

Lemma send_work_item_delivered identity p d out :
  send_work_item identity p d = Done out -> delivered out = [].
Proof. intros H. apply send_Done in H as [[_ ->]|[_ ->]]; reflexivity. Qed.

Ltac same_socket :=
  repeat first [ rewrite copy_ptr_socket | rewrite release_socket
               | rewrite release_all_socket | rewrite destroy_worker_socket ];
  try reflexivity.

Ltac distribute_to_inv H :=
  unfold distribute_to, wants_item in H;
  match type of H with
  | context [stride ?w =? 0] =>
      let Hs := fresh "Hstride" in
      let Hm := fresh "Hmatch" in
      let Hp := fresh "Hpolicy" in
      let Ho := fresh "Hout" in
      let Hk := fresh "Hskip" in
      let Hsd := fresh "Hsend" in
      let sent := fresh "sent" in
      destruct (stride w =? 0) eqn:Hs; simpl in H; [discriminate H|];
      apply N.eqb_neq in Hs;
      destruct (_ mod stride w =? offset w) eqn:Hm;
      [ apply N.eqb_eq in Hm;
        destruct (decide (queue_policy w = PrebufferOne)) as [Hp|Hp];
        simpl in H;
        (destruct (outstanding_items w) eqn:Ho; simpl in H;
         [ match type of H with
           | context [send_work_item ?i ?p ?d0] =>
               destruct (send_work_item i p d0) as [sent| | |] eqn:Hsd;
               simpl in H; [ | discriminate H | discriminate H | discriminate H ]
           end
         | destruct (decide (queue_policy w <> Skip)) as [Hk|Hk]; simpl in H ])
      | apply N.eqb_neq in Hm ];
      injection H as <- <- <-
  end.

Lemma owned_by_perm' h l1 l2 : owned_by h l1 -> l2 ≡ₚ l1 -> owned_by h l2.
Proof. intros H Hp. rewrite Hp. exact H. Qed.

Lemma distribute_to_store new_item identity w d w' d' out L :
  distribute_to new_item identity w d = Done (w', d', out) ->
  owned_by (heap_ d) (ptrs_of w ++ L) -> new_item ∈ L ->
  owned_by (heap_ d') (ptrs_of w' ++ L) /\
  workers_ d' = workers_ d /\ next_address d' = next_address d.
Proof.
  intros H Ho Hin. unfold ptrs_of in *. distribute_to_inv H; simpl;
    rewrite ?Hout in *.
  - (* PrebufferOne, idle *)
    simpl in Ho.
    destruct (owned_by_release_all _ _ _ Ho) as (Ho1 & Hw1 & Hn1).
    destruct (copy_ptr_fields new_item (release_all (waiting_items w) d))
      as (_ & -> & ->).
    split; [|split; assumption].
    apply owned_by_copy; assumption.
  - (* PrebufferOne, busy *)
    assert (owned_by (heap_ d) (waiting_items w ++ (i :: l) ++ L)) as Ho0.
    { eapply owned_by_perm'; [exact Ho|]. solve_Permutation. }
    destruct (owned_by_release_all _ _ _ Ho0) as (Ho1 & Hw1 & Hn1).
    destruct (copy_ptr_fields new_item (release_all (waiting_items w) d))
      as (_ & -> & ->).
    split; [|split; assumption].
    eapply owned_by_perm'.
    + apply owned_by_copy; [exact Ho1|]. apply elem_of_app. right. exact Hin.
    + solve_Permutation.
  - (* PrebufferOne and Skip: excluded *)
    exfalso. apply Hskip. congruence.
  - (* idle *)
    destruct (copy_ptr_fields new_item d) as (_ & -> & ->).
    split; [|split; reflexivity].
    eapply owned_by_perm'.
    + apply owned_by_copy; [exact Ho|]. apply elem_of_app. right. exact Hin.
    + simpl. solve_Permutation.
  - (* busy, queued *)
    destruct (copy_ptr_fields new_item d) as (_ & -> & ->).
    split; [|split; reflexivity].
    eapply owned_by_perm'.
    + apply owned_by_copy; [exact Ho|]. apply elem_of_app. right. exact Hin.
    + solve_Permutation.
  - (* busy, skipped *)
    auto.
  - (* not wanted *)
    auto.
Qed.

Lemma distribute_to_conserve new_item identity w d w' d' out :
  distribute_to new_item identity w d = Done (w', d', out) ->
  (below d -> below d') /\
  held d' ++ completed_items_ d' ≡ₚ held d ++ completed_items_ d.
Proof.
  intros H. distribute_to_inv H;
    repeat match goal with
    | |- context [copy_ptr ?p ?x] =>
        destruct (copy_ptr_fields p x) as (-> & _ & _);
        rewrite (held_copy_ptr p x)
    end; rewrite ?held_release_all;
    (split; [|reflexivity]); intros Hb;
    repeat first [apply below_copy_ptr | apply below_release_all]; exact Hb.
Qed.

Lemma distribute_to_worker new_item identity w d w' d' out :
  distribute_to new_item identity w d = Done (w', d', out) ->
  stride w' = stride w /\ offset w' = offset w /\
  queue_policy w' = queue_policy w /\ client_name w' = client_name w /\
  next_heartbeat_time w' = next_heartbeat_time w /\
  (worker_ok w -> worker_ok w').
Proof.
  intros H. unfold worker_ok, ptrs_of, matches.
  distribute_to_inv H; simpl; do 5 (split; [reflexivity|]);
    rewrite ?Hout; intros (Hlen & Hidle & Hpre & Hsk & Hall); simpl in *;
    try (exfalso; apply Hskip; congruence);
    try (rewrite (Hidle eq_refl) in *; simpl);
    try (apply Forall_app in Hall as [Ho Hw]);
    repeat split; auto; try discriminate; try congruence;
    try (intros; contradiction).
  all: try (apply Forall_cons in Hall as [Hi Hall]);
       try (apply Forall_app in Hall as [Ho Hw]).
  all: repeat first
    [ apply Forall_app; split
    | assumption
    | apply Forall_cons; split
    | apply Forall_nil ]; auto.
Qed.

Lemma distribute_to_out new_item identity w d w' d' out :
  distribute_to new_item identity w d = Done (w', d', out) ->
  out = [] \/
  (send_work_item identity new_item d = Done out /\ matches w new_item /\
   outstanding_items w = [] /\ outstanding_items w' = [new_item]).
Proof.
  intros H. unfold matches. distribute_to_inv H; simpl; auto;
    right; (split; [|repeat split; auto]);
    rewrite <- Hsend; symmetry; apply send_work_item_same; same_socket.
Qed.

Lemma distribute_store new_item ws : forall d ws' d' out L,
  distribute new_item ws d = Done (ws', d', out) ->
  owned_by (heap_ d) (all_ptrs ws ++ L) -> new_item ∈ L ->
  owned_by (heap_ d') (all_ptrs ws' ++ L) /\
  workers_ d' = workers_ d /\ next_address d' = next_address d.
Proof.
  induction ws as [|[identity w] ws IH]; intros d ws' d' out L H Ho Hin; simpl in H.
  - injection H as <- <- <-. auto.
  - destruct (distribute_to new_item identity w d) as [[[w1 d1] out1]| | |] eqn:E1;
      try discriminate H. simpl in H.
    destruct (distribute new_item ws d1) as [[[ws2 d2] out2]| | |] eqn:E2;
      try discriminate H. simpl in H. injection H as <- <- <-.
    rewrite all_ptrs_cons, <- app_assoc in Ho.
    destruct (distribute_to_store _ _ _ _ _ _ _ _ E1 Ho) as (Ho1 & Hw1 & Hn1).
    { apply elem_of_app. right. exact Hin. }
    assert (owned_by (heap_ d1) (all_ptrs ws ++ ptrs_of w1 ++ L)) as Ho1'.
    { eapply owned_by_perm'; [exact Ho1|]. solve_Permutation. }
    destruct (IH _ _ _ _ _ E2 Ho1') as (Ho2 & Hw2 & Hn2).
    { apply elem_of_app. right. exact Hin. }
    split; [|split; congruence].
    rewrite all_ptrs_cons. eapply owned_by_perm'; [exact Ho2|]. solve_Permutation.
Qed.

Lemma distribute_conserve new_item ws : forall d ws' d' out,
  distribute new_item ws d = Done (ws', d', out) ->
  (below d -> below d') /\
  held d' ++ completed_items_ d' ≡ₚ held d ++ completed_items_ d.
Proof.
  induction ws as [|[identity w] ws IH]; intros d ws' d' out H; simpl in H.
  - injection H as <- <- <-. auto.
  - destruct (distribute_to new_item identity w d) as [[[w1 d1] out1]| | |] eqn:E1;
      try discriminate H. simpl in H.
    destruct (distribute new_item ws d1) as [[[ws2 d2] out2]| | |] eqn:E2;
      try discriminate H. simpl in H. injection H as <- <- <-.
    destruct (distribute_to_conserve _ _ _ _ _ _ _ E1) as [Hb1 Hh1].
    destruct (IH _ _ _ _ E2) as [Hb2 Hh2].
    split; [auto|]. rewrite Hh2. exact Hh1.
Qed.

Lemma distribute_workers new_item ws : forall d ws' d' out,
  distribute new_item ws d = Done (ws', d', out) ->
  ws'.*1 = ws.*1 /\
  Forall2 (fun kw kw' => kw'.1 = kw.1 /\ same_params kw.2 kw'.2) ws ws' /\
  (Forall (fun kw => worker_ok kw.2) ws -> Forall (fun kw => worker_ok kw.2) ws').
Proof.
  induction ws as [|[identity w] ws IH]; intros d ws' d' out H; simpl in H.
  - injection H as <- <- <-. repeat split; auto.
  - destruct (distribute_to new_item identity w d) as [[[w1 d1] out1]| | |] eqn:E1;
      try discriminate H. simpl in H.
    destruct (distribute new_item ws d1) as [[[ws2 d2] out2]| | |] eqn:E2;
      try discriminate H. simpl in H. injection H as <- <- <-.
    destruct (distribute_to_worker _ _ _ _ _ _ _ E1) as (? & ? & ? & ? & ? & Hok).
    destruct (IH _ _ _ _ E2) as (Hk & Hp & Hall).
    split; [rewrite !fmap_cons, Hk; reflexivity|]. split.
    + constructor; [|exact Hp]. simpl. unfold same_params. repeat split; assumption.
    + intros HF. apply Forall_cons in HF as [Hw HF]. constructor; auto.
Qed.

(** ** The drain *)

Lemma delivered_app o1 o2 : delivered (o1 ++ o2) = delivered o1 ++ delivered o2.
Proof. unfold delivered. apply omap_app. Qed.

Lemma delivered_to_producer l : delivered (to_producer <$> l) = l.
Proof. induction l as [|n l IH]; simpl; [reflexivity|]. f_equal. exact IH. Qed.

Lemma drain_state f d :
  (send_pending_completions f d).1 = set_completed [] d.
Proof. reflexivity. Qed.

Lemma drain_ok d :
  delivered (send_pending_completions None d).2 = completed_items_ d.
Proof. simpl. apply delivered_to_producer. Qed.

Lemma drain_empty f d :
  completed_items_ d = [] -> (send_pending_completions f d).2 = [].
Proof.
  intros E. unfold send_pending_completions. rewrite E. simpl.
  destruct f as [k|]; [|reflexivity]. destruct k; reflexivity.
Qed.

(** ** [on_generator_pollin], step by step *)

Lemma on_generator_pollin_inv f m d d' out :
  on_generator_pollin f m d = Done (d', out) ->
  exists first rest n ws' d1 out1,
    let it := {| id_ := n;
                 payload_ := match rest with [] => "" | second :: _ => second end |} in
    let new_item := (make_shared it d).1 in
    m = first :: rest /\ Scan.stoull first = inr n /\
    distribute new_item (workers_ d) (make_shared it d).2 = Done (ws', d1, out1) /\
    d' = set_completed [] (release new_item (set_workers ws' d1)) /\
    out = out1 ++ (send_pending_completions f (release new_item (set_workers ws' d1))).2.
Proof.
  unfold on_generator_pollin, receive_producer_item. intros H.
  destruct m as [|first rest]; [discriminate H|].
  destruct (Scan.stoull first) as [e|n] eqn:En; [discriminate H|].
  simpl in H.
  match type of H with
  | context [distribute ?p ?ws ?x] =>
      destruct (distribute p ws x) as [[[ws' d1] out1]| | |] eqn:E;
        try discriminate H
  end.
  simpl in H. injection H as <- <-.
  exists first, rest, n, ws', d1, out1. simpl. repeat split; auto.
Qed.


Lemma delivered_no_producer out :
  Forall (fun o => forall n, o <> to_producer n) out -> delivered out = [].
Proof.
  induction 1 as [|o out Ho _ IH]; [reflexivity|].
  unfold delivered in *. simpl. destruct o; try exact IH. exfalso. eapply Ho. reflexivity.
Qed.

Lemma distribute_to_delivered new_item identity w d w' d' out :
  distribute_to new_item identity w d = Done (w', d', out) -> delivered out = [].
Proof.
  intros H. destruct (distribute_to_out _ _ _ _ _ _ _ H) as [->|(Hs & _)];
    [reflexivity | exact (send_work_item_delivered _ _ _ _ Hs)].
Qed.

Lemma distribute_delivered new_item ws : forall d ws' d' out,
  distribute new_item ws d = Done (ws', d', out) -> delivered out = [].
Proof.
  induction ws as [|[identity w] ws IH]; intros d ws' d' out H; simpl in H.
  - injection H as <- <- <-. reflexivity.
  - destruct (distribute_to new_item identity w d) as [[[w1 d1] out1]| | |] eqn:E1;
      try discriminate H. simpl in H.
    destruct (distribute new_item ws d1) as [[[ws2 d2] out2]| | |] eqn:E2;
      try discriminate H. simpl in H. injection H as <- <- <-.
    rewrite delivered_app, (distribute_to_delivered _ _ _ _ _ _ _ E1), (IH _ _ _ _ E2).
    reflexivity.
Qed.

Lemma sorted_keys_same {V} (m m' : list (string * V)) :
  m'.*1 = m.*1 -> sorted_keys m -> sorted_keys m'.
Proof. unfold sorted_keys. intros ->. auto. Qed.

Lemma on_generator_pollin_wf f m d d' out :
  wf d -> on_generator_pollin f m d = Done (d', out) -> wf d'.
Proof.
  intros (Hl & Hs & Ho & Hb & Hok) H.
  apply on_generator_pollin_inv in H
    as (first & rest & n & ws' & d1 & out1 & _ & _ & Hd & -> & _).
  set (it := {| id_ := n;
                payload_ := match rest with [] => "" | s :: _ => s end |}) in *.
  set (new_item := (make_shared it d).1) in *.
  assert (owned_by (heap_ (make_shared it d).2) (all_ptrs (workers_ d) ++ [new_item]))
    as Ho0.
  { eapply owned_by_perm'.
    - apply (owned_by_alloc _ _ (next_address d) it Ho). apply below_fresh, Hb.
    - unfold new_item. simpl. solve_Permutation. }
  destruct (distribute_store _ _ _ _ _ _ _ Hd Ho0) as (Ho1 & Hw1 & Hn1);
    [apply list_elem_of_singleton; reflexivity|].
  destruct (distribute_conserve _ _ _ _ _ _ Hd) as [Hb1 _].
  destruct (distribute_workers _ _ _ _ _ _ Hd) as (Hk & _ & Hok1).
  assert (owned_by (heap_ (set_workers ws' d1)) (new_item :: all_ptrs ws')) as Ho2.
  { eapply owned_by_perm'; [exact Ho1|]. solve_Permutation. }
  destruct (owned_by_release _ _ _ Ho2) as (Ho3 & _ & Hw3 & Hn3).
  unfold wf, consistent. simpl. rewrite Hw3. simpl.
  split; [reflexivity|]. split; [|split; [|split]].
  - eapply sorted_keys_same; [exact Hk | exact Hs].
  - exact Ho3.
  - intros a Ha. apply (below_release new_item (set_workers ws' d1)); [|exact Ha].
    apply Hb1. apply below_make_shared, Hb.
  - auto.
Qed.

(** What one intake does to the ids in the store and in the ledger. *)
Lemma on_generator_pollin_conserve m d d' out :
  wf d -> on_generator_pollin None m d = Done (d', out) ->
  held d' ++ delivered out ≡ₚ received [generator_pollin None m] ++ held d.
Proof.
  intros (Hl & Hs & Ho & Hb & Hok) H.
  apply on_generator_pollin_inv in H
    as (first & rest & n & ws' & d1 & out1 & -> & Hn & Hd & -> & ->).
  set (it := {| id_ := n;
                payload_ := match rest with [] => "" | s :: _ => s end |}) in *.
  set (new_item := (make_shared it d).1) in *.
  unfold received. simpl. rewrite Hn. simpl.
  rewrite delivered_app, (distribute_delivered _ _ _ _ _ _ Hd). simpl.
  rewrite delivered_to_producer.
  change (held (release new_item (set_workers ws' d1)) ++
          completed_items_ (release new_item (set_workers ws' d1)) ≡ₚ n :: held d).
  rewrite held_release.
  change (held d1 ++ completed_items_ d1 ≡ₚ n :: held d).
  destruct (distribute_conserve _ _ _ _ _ _ Hd) as [_ ->].
  rewrite (held_make_shared it d Hb). simpl. rewrite Hl, app_nil_r. reflexivity.
Qed.

(** ** [on_worker_pollin], branch by branch *)

Lemma find_if_Some n l i :
  find_if n l = Some i ->
  exists p, l !! i = Some p /\ item_id p = n /\
            forall j q, (j < i)%nat -> l !! j = Some q -> item_id q <> n.
Proof.
  revert i. induction l as [|p l IH]; intros i H; simpl in H; [discriminate|].
  destruct (item_id p =? n) eqn:E.
  - injection H as <-. exists p. apply N.eqb_eq in E.
    repeat split; auto. intros j q Hj. lia.
  - destruct (find_if n l) as [i'|] eqn:E'; [|discriminate].
    injection H as <-. destruct (IH i' eq_refl) as (q & Hq & Hid & Hbefore).
    exists q. repeat split; auto.
    intros [|j] q' Hj Hq'; simpl in Hq'.
    + injection Hq' as <-. apply N.eqb_neq. exact E.
    + apply (Hbefore j q'); [lia | exact Hq'].
Qed.

Lemma find_if_None n l :
  find_if n l = None <-> Forall (fun p => item_id p <> n) l.
Proof.
  induction l as [|p l IH]; simpl.
  - split; [constructor | reflexivity].
  - destruct (item_id p =? n) eqn:E.
    + apply N.eqb_eq in E. split; [discriminate|].
      intros HF. apply Forall_cons in HF as [Hp _]. contradiction.
    + apply N.eqb_neq in E. destruct (find_if n l); simpl.
      * split; [discriminate|]. intros HF. apply Forall_cons in HF as [_ HF].
        apply IH in HF. discriminate.
      * split; [|reflexivity]. intros _. constructor; [exact E|]. apply IH. reflexivity.
Qed.

Lemma parse_register_queues s c :
  parse_register s = Some c ->
  waiting_items c = [] /\ outstanding_items c = [] /\ next_heartbeat_time c = 0%Z.
Proof.
  unfold parse_register. intros H.
  repeat match type of H with
  | context [mbind _ ?x] => destruct x as [[? ?]|]; simpl in H; [|discriminate H]
  end.
  injection H as <-. auto.
Qed.

Lemma worker_ok_fresh c :
  waiting_items c = [] -> outstanding_items c = [] -> worker_ok c.
Proof.
  intros Hw Ho. unfold worker_ok, ptrs_of. rewrite Hw, Ho. simpl.
  repeat split; auto; lia.
Qed.

Lemma all_ptrs_split identity w ws :
  StdMap.find identity ws = Some w ->
  all_ptrs ws ≡ₚ ptrs_of w ++ all_ptrs (StdMap.erase identity ws).
Proof.
  intros H. rewrite (StdMapFacts.find_split _ _ _ H) at 1. reflexivity.
Qed.

Lemma all_ptrs_assign identity w ws :
  sorted_keys ws ->
  all_ptrs (StdMap.assign identity w ws) ≡ₚ
  ptrs_of w ++ all_ptrs (StdMap.erase identity ws).
Proof.
  intros Hs. destruct (StdMap.find identity ws) as [old|] eqn:E.
  - rewrite StdMapFacts.assign_present by eauto. reflexivity.
  - rewrite StdMapFacts.assign_absent, StdMapFacts.erase_absent by exact E.
    reflexivity.
Qed.

Lemma Forall_ok_split identity w ws :
  StdMap.find identity ws = Some w ->
  Forall (fun kw : string * Worker => worker_ok kw.2) ws -> worker_ok w.
Proof.
  intros H HF. apply StdMapFacts.find_elem_of in H.
  rewrite Forall_forall in HF. apply (HF _ H).
Qed.

Lemma handle_disconnect_consistent identity d :
  consistent d -> consistent (handle_disconnect identity d).1.
Proof.
  intros (Hs & Ho & Hb & Hok). unfold handle_disconnect.
  destruct (StdMap.find identity (workers_ d)) as [w|] eqn:E; simpl;
    [|split; [|split; [|split]]; assumption].
  set (d0 := set_workers (StdMap.erase identity (workers_ d)) d).
  assert (owned_by (heap_ d0) (ptrs_of w ++ all_ptrs (workers_ d0))) as Ho0.
  { eapply owned_by_perm'; [exact Ho|]. simpl. symmetry. apply all_ptrs_split, E. }
  destruct (owned_by_destroy_worker _ _ _ Ho0) as (Ho1 & Hw1 & Hn1).
  unfold consistent. rewrite Hw1. simpl. split; [|split; [|split]].
  - apply StdMapFacts.sorted_erase, Hs.
  - exact Ho1.
  - apply below_destroy_worker. exact Hb.
  - apply StdMapFacts.Forall_erase, Hok.
Qed.

Lemma handle_disconnect_conserve identity d :
  held (handle_disconnect identity d).1 ++
  completed_items_ (handle_disconnect identity d).1 ≡ₚ held d ++ completed_items_ d.
Proof.
  unfold handle_disconnect.
  destruct (StdMap.find identity (workers_ d)) as [w|]; simpl; [|reflexivity].
  rewrite held_destroy_worker. reflexivity.
Qed.

Lemma handle_register_consistent identity s d d' out :
  consistent d -> handle_register identity s d = Done (d', out) -> consistent d'.
Proof.
  intros (Hs & Ho & Hb & Hok) H. unfold handle_register in H.
  destruct (parse_register s) as [c|] eqn:Ec; [|discriminate H].
  destruct (parse_register_queues _ _ Ec) as (Hw & Houts & _).
  set (d0 := set_workers (StdMap.assign identity c (workers_ d)) d) in *.
  assert (ptrs_of c = []) as Hc by (unfold ptrs_of; rewrite Hw, Houts; reflexivity).
  assert (Forall (fun kw : string * Worker => worker_ok kw.2) (workers_ d0)) as Hok0.
  { simpl. apply StdMapFacts.Forall_assign; [|exact Hok].
    simpl. apply worker_ok_fresh; assumption. }
  assert (sorted_keys (workers_ d0)) as Hs0
    by (simpl; apply StdMapFacts.sorted_assign, Hs).
  pose proof (all_ptrs_assign identity c _ Hs) as Hp. rewrite Hc in Hp. simpl in Hp.
  destruct (StdMap.find identity (workers_ d)) as [old|] eqn:E;
    injection H as <- <-.
  - assert (owned_by (heap_ d0) (ptrs_of old ++ all_ptrs (workers_ d0))) as Ho0.
    { eapply owned_by_perm'; [exact Ho|]. simpl. rewrite Hp.
      symmetry. apply all_ptrs_split, E. }
    destruct (owned_by_destroy_worker _ _ _ Ho0) as (Ho1 & Hw1 & Hn1).
    unfold consistent. rewrite Hw1. split; [|split; [|split]]; auto.
    apply below_destroy_worker. exact Hb.
  - unfold consistent. split; [|split; [|split]]; auto.
    eapply owned_by_perm'; [exact Ho|]. simpl. rewrite Hp.
    rewrite StdMapFacts.erase_absent by exact E. reflexivity.
Qed.

Lemma handle_register_conserve identity s d d' out :
  handle_register identity s d = Done (d', out) ->
  held d' ++ completed_items_ d' ≡ₚ held d ++ completed_items_ d /\ out = [].
Proof.
  unfold handle_register. intros H.
  destruct (parse_register s) as [c|]; [|discriminate H].
  destruct (StdMap.find identity (workers_ d)) as [old|]; injection H as <- <-.
  - rewrite held_destroy_worker. split; reflexivity.
  - split; reflexivity.
Qed.

Lemma handle_complete_inv identity s d d' out :
  handle_complete identity s d = Done (d', out) ->
  exists c n i p,
    StdMap.find identity (workers_ d) = Some c /\
    parse_complete s = Some n /\
    find_if n (outstanding_items c) = Some i /\
    outstanding_items c !! i = Some p /\
    let d1 := release p d in
    let c1 := set_outstanding (delete i (outstanding_items c)) c in
    (waiting_items c = [] /\ out = [] /\
     d' = set_workers (StdMap.assign identity c1 (workers_ d1)) d1) \/
    (exists item rest,
       waiting_items c = item :: rest /\
       send_work_item identity item d = Done out /\
       let c3 := set_outstanding (outstanding_items c1 ++ [item])
                   (set_waiting rest c1) in
       let d5 := release item (copy_ptr item (release item (copy_ptr item d1))) in
       d' = set_workers (StdMap.assign identity c3 (workers_ d5)) d5).
Proof.
  unfold handle_complete. intros H.
  destruct (StdMap.find identity (workers_ d)) as [c|] eqn:Ec; [|discriminate H].
  destruct (parse_complete s) as [n|] eqn:En; [|discriminate H].
  destruct (find_if n (outstanding_items c)) as [i|] eqn:Ei; [|discriminate H].
  destruct (find_if_Some _ _ _ Ei) as (p & Hp & _).
  rewrite Hp in H. simpl in H.
  exists c, n, i, p. do 4 (split; [auto|]).
  destruct (waiting_items c) as [|item rest] eqn:Ew.
  - injection H as <- <-. left. auto.
  - match type of H with
    | context [send_work_item ?i ?q ?d0] =>
        rewrite (send_work_item_same i q d d0) in H by same_socket
    end.
    destruct (send_work_item identity item d) as [sent| | |] eqn:Hsend;
      try discriminate H.
    simpl in H. injection H as <- <-. right. exists item, rest. auto.
Qed.

Lemma worker_ok_complete c i p :
  worker_ok c -> outstanding_items c !! i = Some p ->
  outstanding_items c = [p] /\ i = 0%nat /\
  match waiting_items c with
  | [] => worker_ok (set_outstanding [] c)
  | item :: rest =>
      worker_ok (set_outstanding [item] (set_waiting rest (set_outstanding [] c)))
  end.
Proof.
  unfold worker_ok, ptrs_of, matches. intros (Hlen & Hidle & Hpre & Hsk & Hall) Hp.
  destruct (outstanding_items c) as [|q [|q' l]] eqn:Eo; simpl in *;
    [discriminate | | lia].
  destruct i as [|i]; simpl in Hp; [|discriminate]. injection Hp as ->.
  split; [reflexivity|]. split; [reflexivity|].
  apply Forall_cons in Hall as [Hq Hall].
  destruct (waiting_items c) as [|item rest] eqn:Ew; simpl in *.
  - repeat split; auto.
  - apply Forall_cons in Hall as [Hitem Hall].
    repeat split; auto; try discriminate.
    + intros Hp. specialize (Hpre Hp). lia.
    + intros Hs. specialize (Hsk Hs). discriminate.
Qed.

Lemma handle_complete_consistent identity s d d' out :
  consistent d -> handle_complete identity s d = Done (d', out) ->
  consistent d' /\
  held d' ++ completed_items_ d' ≡ₚ held d ++ completed_items_ d.
Proof.
  intros (Hs & Ho & Hb & Hok) H.
  apply handle_complete_inv in H as (c & n & i & p & Ec & _ & _ & Hp & H).
  pose proof (Forall_ok_split _ _ _ Ec Hok) as Hc.
  destruct (worker_ok_complete _ _ _ Hc Hp) as (Eo & -> & Hc').
  rewrite Eo in *. simpl in H.
  set (R := all_ptrs (StdMap.erase identity (workers_ d))).
  assert (owned_by (heap_ d) (p :: waiting_items c ++ R)) as Ho0.
  { eapply owned_by_perm'; [exact Ho|].
    rewrite (all_ptrs_split _ _ _ Ec). unfold ptrs_of. rewrite Eo. reflexivity. }
  destruct (owned_by_release _ _ _ Ho0) as (Ho1 & _ & Hw1 & Hn1).
  assert (below (release p d)) as Hb1 by (apply below_release, Hb).
  destruct H as [(Ew & -> & ->)|(item & rest & Ew & _ & H)].
  - (* nothing is waiting *)
    rewrite Ew in *. simpl in *. rewrite Hw1. split.
    + split; [|split; [|split]]; simpl.
      * apply StdMapFacts.sorted_assign, Hs.
      * eapply owned_by_perm'; [exact Ho1|].
        rewrite (all_ptrs_assign _ _ _ Hs). unfold ptrs_of. simpl. rewrite Ew.
        reflexivity.
      * exact Hb1.
      * apply StdMapFacts.Forall_assign; [exact Hc' | exact Hok].
    + apply held_release.
  - (* the front of the queue is sent *)
    rewrite Ew in *. simpl in *.
    assert (item ∈ item :: rest ++ R) as Hin by left.
    rewrite (release_copy_ptr _ _ _ Ho1 Hin) in H.
    rewrite (release_copy_ptr _ _ _ Ho1 Hin) in H.
    subst d'. rewrite Hw1. split.
    + split; [|split; [|split]]; simpl.
      * apply StdMapFacts.sorted_assign, Hs.
      * eapply owned_by_perm'; [exact Ho1|].
        rewrite (all_ptrs_assign _ _ _ Hs). unfold ptrs_of. simpl. reflexivity.
      * exact Hb1.
      * apply StdMapFacts.Forall_assign; [exact Hc' | exact Hok].
    + apply held_release.
Qed.

Lemma handle_complete_delivered identity s d d' out :
  handle_complete identity s d = Done (d', out) -> delivered out = [].
Proof.
  intros H. apply handle_complete_inv in H as (c & n & i & p & _ & _ & _ & _ & H).
  destruct H as [(_ & -> & _)|(item & rest & _ & Hs & _)];
    [reflexivity | exact (send_work_item_delivered _ _ _ _ Hs)].
Qed.

(** The parts of a worker message the handler looks at, once the three
    [assert]s have passed: the identity it uses is the part at index 1. *)
Lemma on_worker_pollin_inv f m d d' out :
  on_worker_pollin f m d = Done (d', out) ->
  exists part0 identity d1 out1,
    m !! 0%nat = Some part0 /\ part0 <> "" /\
    m !! 1%nat = Some identity /\ identity = "" /\
    ((length m = 2%nat /\ (d1, out1) = handle_disconnect identity d) \/
     (exists s, (2 < length m)%nat /\ m !! 3%nat = Some s /\
        ((String.prefix "REGISTER " s = true /\
          handle_register identity s d = Done (d1, out1)) \/
         (String.prefix "REGISTER " s = false /\
          String.prefix "COMPLETE " s = true /\
          handle_complete identity s d = Done (d1, out1)) \/
         (String.prefix "REGISTER " s = false /\
          String.prefix "COMPLETE " s = false /\ d1 = d /\ out1 = [])))) /\
    d' = set_completed [] d1 /\
    out = out1 ++ (send_pending_completions f d1).2.
Proof.
  unfold on_worker_pollin, assert, at_, peekstr. intros H.
  destruct (2 <=? length m)%nat eqn:Hlen; [|discriminate H]. simpl in H.
  apply Nat.leb_le in Hlen.
  destruct m as [|part0 [|part1 m']]; simpl in Hlen; try lia. simpl in H.
  destruct part0 as [|c0 part0]; [discriminate H|]. simpl in H.
  destruct part1 as [|c1 part1]; [|discriminate H]. simpl in H.
  destruct m' as [|part2 m'']; simpl in H.
  - destruct (handle_disconnect "" d) as [d1 out1] eqn:E.
    injection H as <- <-.
    exists (String c0 part0), "", d1, out1.
    do 4 (split; [auto; discriminate|]). split; [|auto]. left. auto.
  - destruct m'' as [|s m3]; simpl in H; [discriminate H|].
    destruct (String.prefix "REGISTER " s) eqn:Er.
    + destruct (handle_register "" s d) as [[d1 out1]| | |] eqn:E; try discriminate H.
      simpl in H. injection H as <- <-.
      exists (String c0 part0), "", d1, out1.
      do 4 (split; [auto; discriminate|]). split; [|auto].
      right. exists s. split; [simpl; lia|]. split; [reflexivity|]. left. auto.
    + destruct (String.prefix "COMPLETE " s) eqn:Ec.
      * destruct (handle_complete "" s d) as [[d1 out1]| | |] eqn:E; try discriminate H.
        simpl in H. injection H as <- <-.
        exists (String c0 part0), "", d1, out1.
        do 4 (split; [auto; discriminate|]). split; [|auto].
        right. exists s. split; [simpl; lia|]. split; [reflexivity|].
        right. left. auto.
      * simpl in H. injection H as <- <-.
        exists (String c0 part0), "", d, [].
        do 4 (split; [auto; discriminate|]). split; [|auto].
        right. exists s. split; [simpl; lia|]. split; [reflexivity|].
        right. right. auto.
Qed.

Lemma consistent_set_completed l d : consistent d -> consistent (set_completed l d).
Proof. intros (? & ? & ? & ?). split; [|split; [|split]]; assumption. Qed.

Lemma on_worker_pollin_wf f m d d' out :
  wf d -> on_worker_pollin f m d = Done (d', out) -> wf d'.
Proof.
  intros [Hl Hc] H.
  apply on_worker_pollin_inv in H
    as (part0 & identity & d1 & out1 & _ & _ & _ & _ & Hbody & -> & _).
  split; [reflexivity|]. apply consistent_set_completed.
  destruct Hbody as [[_ E]|(s & _ & _ & [[_ E]|[(_ & _ & E)|(_ & _ & -> & _)]])].
  - change d1 with (d1, out1).1. rewrite E. apply handle_disconnect_consistent, Hc.
  - eapply handle_register_consistent; eassumption.
  - eapply handle_complete_consistent; eassumption.
  - exact Hc.
Qed.

Lemma on_worker_pollin_conserve m d d' out :
  wf d -> on_worker_pollin None m d = Done (d', out) ->
  held d' ++ delivered out ≡ₚ held d.
Proof.
  intros [Hl Hc] H.
  apply on_worker_pollin_inv in H
    as (part0 & identity & d1 & out1 & _ & _ & _ & _ & Hbody & -> & ->).
  rewrite delivered_app, drain_ok.
  change (held (set_completed [] d1)) with (held d1).
  assert (held d1 ++ completed_items_ d1 ≡ₚ held d ++ completed_items_ d /\
          delivered out1 = [])
    as [Hh ->]; [|rewrite Hh, Hl, app_nil_r; reflexivity].
  destruct Hbody as [[_ E]|(s & _ & _ & [[_ E]|[(_ & _ & E)|(_ & _ & -> & ->)]])].
  - pose proof (handle_disconnect_conserve identity d) as Hd.
    rewrite <- E in Hd. simpl in Hd. split; [exact Hd|].
    unfold handle_disconnect in E.
    destruct (StdMap.find identity (workers_ d)); injection E as _ ->; reflexivity.
  - destruct (handle_register_conserve _ _ _ _ _ E) as [Hh ->]. split; auto.
  - split.
    + eapply handle_complete_consistent; eassumption.
    + eapply handle_complete_delivered; eassumption.
  - split; reflexivity.
Qed.

(** ** The invariant along a trace *)

Lemma wf_initial : wf initial.
Proof.
  split; [reflexivity|]. split; [|split; [|split]]; simpl.
  - constructor.
  - apply owned_by_empty.
  - intros a [x Hx]. simpl in Hx. rewrite lookup_empty in Hx. discriminate.
  - constructor.
Qed.

(** The sweep leaves the state as it is. *)
Lemma step_heartbeat_inv d d' out :
  step heartbeat d = Done (d', out) -> d' = d /\ send_heartbeat d = Done out.
Proof.
  simpl. destruct (send_heartbeat d) as [o| | |]; intros H; try discriminate H.
  injection H as <- <-. auto.
Qed.

Lemma send_heartbeat_loop_inv ws d out :
  send_heartbeat_loop ws d = Done out ->
  Forall (fun o => exists identity, o = to_worker identity HEARTBEAT \/
                                    o = cerr "Error: message send failed") out.
Proof.
  revert out. induction ws as [|[i w] ws IH]; intros out H; simpl in H.
  - injection H as <-. constructor.
  - destruct (outstanding_items w).
    + destruct (send_heartbeat_to i d) as [o1| | |] eqn:E1; try discriminate H.
      simpl in H.
      destruct (send_heartbeat_loop ws d) as [o2| | |]; try discriminate H.
      simpl in H. injection H as <-. apply Forall_app. split; [|auto].
      apply send_Done in E1 as [[_ ->]|[_ ->]];
        (constructor; [exists i; auto | constructor]).
    + simpl in H.
      destruct (send_heartbeat_loop ws d) as [o2| | |]; try discriminate H.
      simpl in H. injection H as <-. auto.
Qed.

Lemma step_wf e d d' out : wf d -> step e d = Done (d', out) -> wf d'.
Proof.
  destruct e as [f m|f m| |s]; intros Hwf H.
  - eapply on_generator_pollin_wf; eassumption.
  - eapply on_worker_pollin_wf; eassumption.
  - apply step_heartbeat_inv in H as [-> _]. exact Hwf.
  - injection H as <- _. exact Hwf.
Qed.

Lemma run_cons_inv e es d d' out :
  run (e :: es) d = Done (d', out) ->
  exists d1 out1 out2,
    step e d = Done (d1, out1) /\ run es d1 = Done (d', out2) /\ out = out1 ++ out2.
Proof.
  simpl. intros H.
  destruct (step e d) as [[d1 out1]| | |]; try discriminate H. simpl in H.
  destruct (run es d1) as [[d2 out2]| | |] eqn:E2; try discriminate H. simpl in H.
  injection H as <- <-. exists d1, out1, out2. auto.
Qed.

Lemma run_wf es : forall d d' out, wf d -> run es d = Done (d', out) -> wf d'.
Proof.
  induction es as [|e es IH]; intros d d' out Hwf H.
  - injection H as <- _. exact Hwf.
  - apply run_cons_inv in H as (d1 & out1 & out2 & H1 & H2 & _).
    eapply IH; [|exact H2]. eapply step_wf; eassumption.
Qed.

Lemma run_app_inv es1 : forall es2 d d' out,
  run (es1 ++ es2) d = Done (d', out) ->
  exists d1 out1 out2,
    run es1 d = Done (d1, out1) /\ run es2 d1 = Done (d', out2) /\ out = out1 ++ out2.
Proof.
  induction es1 as [|e es1 IH]; intros es2 d d' out H; simpl in H.
  - exists d, [], out. auto.
  - change (run (e :: (es1 ++ es2)) d = Done (d', out)) in H.
    apply run_cons_inv in H as (d1 & out1 & out2 & H1 & H2 & ->).
    apply IH in H2 as (d2 & o2 & o3 & H2 & H3 & ->).
    exists d2, (out1 ++ o2), o3. simpl. rewrite H1. simpl. rewrite H2. simpl.
    rewrite app_assoc. auto.
Qed.

(** ** Conservation along a trace *)

Lemma received_cons e es : received (e :: es) = received [e] ++ received es.
Proof. unfold received. simpl. destruct (received_id e); reflexivity. Qed.

Lemma delivered_send_heartbeat d out :
  send_heartbeat d = Done out -> delivered out = [].
Proof.
  intros H. apply send_heartbeat_loop_inv in H. apply delivered_no_producer.
  eapply Forall_impl; [exact H|]. intros o [i [-> | ->]] n; discriminate.
Qed.

Lemma step_conserve e d d' out :
  wf d -> send_ok e -> step e d = Done (d', out) ->
  held d' ++ delivered out ≡ₚ received [e] ++ held d.
Proof.
  destruct e as [f m|f m| |s]; intros Hwf Hok H.
  - simpl in *. subst f. apply on_generator_pollin_conserve; assumption.
  - simpl in *. subst f. apply on_worker_pollin_conserve in H; assumption.
  - apply step_heartbeat_inv in H as [-> H].
    rewrite (delivered_send_heartbeat _ _ H), app_nil_r. reflexivity.
  - injection H as <- <-. rewrite app_nil_r. reflexivity.
Qed.

Lemma run_conserve es : forall d0 d out,
  wf d0 -> Forall send_ok es -> run es d0 = Done (d, out) ->
  held d ++ delivered out ≡ₚ received es ++ held d0.
Proof.
  induction es as [|e es IH]; intros d0 d out Hwf Hok H.
  - injection H as <- <-. simpl. rewrite app_nil_r. reflexivity.
  - apply run_cons_inv in H as (d1 & out1 & out2 & H1 & H2 & ->).
    apply Forall_cons in Hok as [Hok1 Hok].
    pose proof (step_conserve _ _ _ _ Hwf Hok1 H1) as Hc1.
    pose proof (IH _ _ _ (step_wf _ _ _ _ Hwf H1) Hok H2) as Hc2.
    rewrite received_cons, delivered_app.
    rewrite (Permutation_app_comm (delivered out1)), app_assoc, Hc2.
    rewrite <- app_assoc, Hc1. solve_Permutation.
Qed.

Lemma held_no_workers d : wf d -> workers_ d = [] -> held d = [].
Proof.
  intros (_ & _ & Ho & _) E. rewrite E in Ho.
  unfold held. rewrite (owned_by_nil_empty _ Ho). reflexivity.
Qed.

(** * The claims *)

(** C1 (as amended). Completion conservation. Along every trace of events
    that the broker processes, the use count of every live [Item] is the
    number of [shared_ptr]s to it in the workers' queues, and a [shared_ptr]
    that is destroyed appends the item's id to the completion ledger exactly
    when it was the last one. Provided no send on the producer socket fails,
    the ids received from the producer are, as a multiset, the ids delivered
    back to it together with the ids of the items still held; once no worker
    is left, every received id has been delivered exactly once. *)
Theorem completion_conservation es d out :
  run es initial = Done (d, out) ->
  Forall send_ok es ->
  (forall a it n, heap_ d !! a = Some (it, n) ->
     n = references a (all_ptrs (workers_ d)) /\ (0 < n)%nat) /\
  (forall p l d0, owned_by (heap_ d0) (p :: l) ->
     completed_items_ (release p d0) =
     completed_items_ d0 ++
       (if decide (references (address p) l = 0%nat) then [item_id p] else [])) /\
  received es ≡ₚ delivered out ++ held d /\
  (workers_ d = [] -> received es ≡ₚ delivered out).
Proof.
  intros Hrun Hok.
  pose proof (run_wf _ _ _ _ wf_initial Hrun) as Hwf.
  pose proof (run_conserve _ _ _ _ wf_initial Hok Hrun) as Hc.
  change (held initial) with (@nil ItemID) in Hc. rewrite app_nil_r in Hc.
  split; [|split; [|split]].
  - destruct Hwf as (_ & _ & [_ Hcount] & _). exact Hcount.
  - intros p l d0 Ho. apply (owned_by_release d0 l p Ho).
  - rewrite <- Hc. apply Permutation_app_comm.
  - intros E. rewrite <- Hc, (held_no_workers d Hwf E). reflexivity.
Qed.

Lemma completion_conservation_witness :
  let es := [connected;
             worker_pollin None (worker_says "REGISTER 1 0 Async W");
             produce "100"; produce "101";
             worker_pollin None worker_gone] in
  let d := {| completed_items_ := []; workers_ := [];
              worker_socket_ := fun _ => Sent; heap_ := ∅;
              next_address := 2 |} in
  let out := [to_worker "" (WORK_ITEM 100 "");
              cout "Info: received disconnect notification";
              to_producer 100; to_producer 101] in
  run es initial = Done (d, out) /\ Forall send_ok es /\
  received es ≡ₚ delivered out.
Proof.
  intros es d out.
  assert (run es initial = Done (d, out)) as Hrun by reflexivity.
  assert (Forall send_ok es) as Hok by (repeat constructor).
  split; [exact Hrun|]. split; [exact Hok|].
  apply (completion_conservation es d out Hrun Hok). reflexivity.
Defined.

(** C1, the claim as stated, fails when a send on the producer socket
    fails: the id 7 is received, its item is destroyed at once (no worker is
    registered), the drain fails on its first send and clears the ledger, so
    the id is neither held nor ever delivered. *)
Lemma completion_conservation_counterexample :
  let es := [generator_pollin (Some 0%nat) ["7"]] in
  exists d out,
    run es initial = Done (d, out) /\
    workers_ d = [] /\ held d = [] /\ completed_items_ d = [] /\
    received es = [7] /\ delivered out = [] /\
    ~ received es ≡ₚ delivered out ++ held d.
Proof.
  eexists _, _. split; [reflexivity|].
  split; [reflexivity|]. split; [reflexivity|]. split; [reflexivity|].
  split; [reflexivity|]. split; [reflexivity|].
  intros H. apply Permutation_length in H. discriminate H.
Qed.

(** ** Who is sent what *)

Lemma find_of_elem {V} k (v : V) m :
  sorted_keys m -> (k, v) ∈ m -> StdMap.find k m = Some v.
Proof.
  unfold sorted_keys. induction m as [|[k0 v0] m IH]; simpl; intros HS Hin.
  - inversion Hin.
  - apply StronglySorted_inv in HS as [HS HF].
    apply elem_of_cons in Hin as [[= -> ->]|Hin].
    + rewrite String.eqb_refl. reflexivity.
    + destruct (String.eqb k k0) eqn:E; [|auto].
      apply String.eqb_eq in E. subst k0. exfalso.
      rewrite Forall_forall in HF.
      apply (StdMapFacts.key_lt_irrefl k). apply HF.
      apply list_elem_of_fmap. exists (k, v). auto.
Qed.

Lemma drain_no_worker f d identity m :
  to_worker identity m ∉ (send_pending_completions f d).2.
Proof.
  unfold send_pending_completions. simpl. intros H.
  assert (forall l : list ItemID, to_worker identity m ∉ to_producer <$> l) as Hno.
  { intros l Hl. apply list_elem_of_fmap in Hl as (x & Hx & _). discriminate. }
  destruct f as [k|].
  - destruct (k <? length (completed_items_ d))%nat.
    + apply elem_of_app in H as [H|H]; [exact (Hno _ H)|].
      apply list_elem_of_singleton in H. discriminate.
    + exact (Hno _ H).
  - exact (Hno _ H).
Qed.

Lemma distribute_sent new_item ws : forall d ws' d' out identity m,
  distribute new_item ws d = Done (ws', d', out) ->
  to_worker identity m ∈ out ->
  exists w, (identity, w) ∈ ws /\ matches w new_item /\
            m = WORK_ITEM (item_id new_item) (item_payload new_item).
Proof.
  induction ws as [|[i w] ws IH]; intros d ws' d' out identity m H Hin; simpl in H.
  - injection H as <- <- <-. inversion Hin.
  - destruct (distribute_to new_item i w d) as [[[w1 d1] out1]| | |] eqn:E1;
      try discriminate H. simpl in H.
    destruct (distribute new_item ws d1) as [[[ws2 d2] out2]| | |] eqn:E2;
      try discriminate H. simpl in H. injection H as <- <- <-.
    apply elem_of_app in Hin as [Hin|Hin].
    + destruct (distribute_to_out _ _ _ _ _ _ _ E1) as [->|(Hs & Hm & _)].
      * inversion Hin.
      * destruct (send_elem _ _ _ _ _ _ Hs Hin) as (-> & -> & _).
        exists w. split; [left|]. auto.
    + destruct (IH _ _ _ _ _ _ E2 Hin) as (w0 & Hw0 & Hm).
      exists w0. split; [right; exact Hw0 | exact Hm].
Qed.

Lemma send_heartbeat_only d out identity m :
  send_heartbeat d = Done out -> to_worker identity m ∈ out -> m = HEARTBEAT.
Proof.
  intros H Hin. apply send_heartbeat_loop_inv in H.
  rewrite Forall_forall in H. destruct (H _ Hin) as [i [E|E]]; congruence.
Qed.

(** C2. Predicate correctness. In every state the broker reaches, whatever
    event it then handles, a [WORK_ITEM n] is handed to the worker socket for
    an identity only if the record registered under that identity has a
    stride and an offset with [n mod stride = offset]; this covers the send at
    intake to an idle worker and the send of a waiting item after a
    [COMPLETE]. *)
Theorem predicate_correctness es d out0 e d' out identity n data :
  run es initial = Done (d, out0) ->
  step e d = Done (d', out) ->
  to_worker identity (WORK_ITEM n data) ∈ out ->
  exists w,
    StdMap.find identity (workers_ d) = Some w /\
    stride w <> 0 /\ n mod stride w = offset w.
Proof.
  intros Hrun Hstep Hin.
  pose proof (run_wf _ _ _ _ wf_initial Hrun) as (Hl & Hs & Ho & Hb & Hok).
  destruct e as [f m|f m| |s0]; simpl in Hstep.
  - (* intake *)
    apply on_generator_pollin_inv in Hstep
      as (first & rest & k & ws' & d1 & out1 & _ & _ & Hd & _ & ->).
    apply elem_of_app in Hin as [Hin|Hin]; [|exfalso; exact (drain_no_worker _ _ _ _ Hin)].
    simpl in Hd.
    destruct (distribute_sent _ _ _ _ _ _ _ _ Hd Hin) as (w & Hw & [Hst Hm] & E).
    injection E as -> ->. exists w. split; [|split; assumption].
    apply find_of_elem; assumption.
  - (* a worker message *)
    apply on_worker_pollin_inv in Hstep
      as (part0 & i & d1 & out1 & _ & _ & _ & _ & Hbody & _ & ->).
    apply elem_of_app in Hin as [Hin|Hin]; [|exfalso; exact (drain_no_worker _ _ _ _ Hin)].
    destruct Hbody as [[_ E]|(s & _ & _ & [[_ E]|[(_ & _ & E)|(_ & _ & _ & ->)]])].
    + unfold handle_disconnect in E.
      destruct (StdMap.find i (workers_ d)); injection E as _ ->;
        repeat (apply elem_of_cons in Hin as [Hin|Hin]; [discriminate|]);
        inversion Hin.
    + apply handle_register_conserve in E as [_ ->]. inversion Hin.
    + apply handle_complete_inv in E as (c & k & j & p & Ec & _ & _ & Hp & E).
      pose proof (Forall_ok_split _ _ _ Ec Hok) as (_ & _ & _ & _ & Hall).
      destruct E as [(_ & -> & _)|(item & rest & Ew & Hsend & _)]; [inversion Hin|].
      destruct (send_elem _ _ _ _ _ _ Hsend Hin) as (-> & E & _).
      injection E as -> ->.
      exists c. split; [exact Ec|].
      unfold ptrs_of in Hall. rewrite Ew in Hall.
      apply Forall_app in Hall as [_ Hall]. apply Forall_cons in Hall as [Hm _].
      exact Hm.
    + inversion Hin.
  - (* the heartbeat sweep *)
    apply (step_heartbeat_inv d d' out) in Hstep as [_ Hstep].
    apply (send_heartbeat_only _ _ _ _ Hstep) in Hin. discriminate.
  - (* a change of the peers *)
    injection Hstep as _ <-. inversion Hin.
Qed.

Lemma predicate_correctness_witness :
  let es := [connected;
             worker_pollin None (worker_says "REGISTER 2 1 Async W")] in
  let w := {| stride := 2; offset := 1; queue_policy := Async;
              client_name := "W"; waiting_items := [];
              outstanding_items := []; next_heartbeat_time := 0 |} in
  let d := {| completed_items_ := []; workers_ := [("", w)];
              worker_socket_ := fun _ => Sent; heap_ := ∅;
              next_address := 0 |} in
  let p := {| address := 0; pointee := {| id_ := 7; payload_ := "" |} |} in
  let d' := {| completed_items_ := [];
               workers_ := [("", set_outstanding [p] w)];
               worker_socket_ := fun _ => Sent;
               heap_ := {[ 0%nat := ({| id_ := 7; payload_ := "" |}, 1%nat) ]};
               next_address := 1 |} in
  run es initial = Done (d, []) /\
  step (produce "7") d = Done (d', [to_worker "" (WORK_ITEM 7 "")]) /\
  exists w0, StdMap.find "" (workers_ d) = Some w0 /\
             stride w0 <> 0 /\ 7 mod stride w0 = offset w0.
Proof.
  intros es w d p d'.
  assert (run es initial = Done (d, [])) as Hrun by reflexivity.
  assert (step (produce "7") d = Done (d', [to_worker "" (WORK_ITEM 7 "")]))
    as Hstep by reflexivity.
  split; [exact Hrun|]. split; [exact Hstep|].
  apply (predicate_correctness es d [] (produce "7") d'
           [to_worker "" (WORK_ITEM 7 "")] "" 7 "" Hrun Hstep).
  left.
Defined.

(** ** The order of the fan-out *)





Lemma distribute_to_socket new_item identity w d w' d' out :
  distribute_to new_item identity w d = Done (w', d', out) ->
  worker_socket_ d' = worker_socket_ d.
Proof. intros H. distribute_to_inv H; same_socket. Qed.

Lemma distribute_socket new_item ws : forall d ws' d' out,
  distribute new_item ws d = Done (ws', d', out) ->
  worker_socket_ d' = worker_socket_ d.
Proof.
  induction ws as [|[i w] ws IH]; intros d ws' d' out H; simpl in H.
  - injection H as <- <- <-. reflexivity.
  - destruct (distribute_to new_item i w d) as [[[w1 d1] out1]| | |] eqn:E1;
      try discriminate H. simpl in H.
    destruct (distribute new_item ws d1) as [[[ws2 d2] out2]| | |] eqn:E2;
      try discriminate H. simpl in H. injection H as <- <- <-.
    rewrite (IH _ _ _ _ E2). exact (distribute_to_socket _ _ _ _ _ _ _ E1).
Qed.






(** ** Frames the broker does not survive *)

Lemma on_worker_pollin_body f c0 part0 part2 s rest d :
  on_worker_pollin f (String c0 part0 :: "" :: part2 :: s :: rest) d =
  '(d1, out1) ←
    (if String.prefix "REGISTER " s then handle_register "" s d
     else if String.prefix "COMPLETE " s then handle_complete "" s d
     else Done (d, []));
  Done (set_completed [] d1, out1 ++ (send_pending_completions f d1).2).
Proof.
  unfold on_worker_pollin. simpl.
  destruct (String.prefix "REGISTER " s);
    [destruct (handle_register "" s d) as [[? ?]| | |]; reflexivity|].
  destruct (String.prefix "COMPLETE " s);
    [destruct (handle_complete "" s d) as [[? ?]| | |]; reflexivity|].
  reflexivity.
Qed.

Lemma on_worker_pollin_disconnect f c0 part0 d :
  on_worker_pollin f [String c0 part0; ""] d =
  Done (set_completed [] (handle_disconnect "" d).1,
        (handle_disconnect "" d).2 ++
        (send_pending_completions f (handle_disconnect "" d).1).2).
Proof.
  unfold on_worker_pollin. simpl.
  destruct (handle_disconnect "" d) as [? ?]. reflexivity.
Qed.

(** C4 (as amended). A worker message that passes the three [assert]s on
    its parts can be fatal; the handler reads a text and an identity from it
    ([peekstr(3)] and [peekstr(1)]), and with these: a [REGISTER] text whose
    fields do not scan fails [assert(!s.fail())]; a [COMPLETE] text when no
    record is filed under that identity lets [std::out_of_range] escape from
    [workers_.at]; when a record is filed under it, a [COMPLETE] text whose
    id does not scan fails [assert(!s.fail())], and one whose id is not among
    the outstanding items of that record fails [assert(it != end)]. Only the
    disconnect notification when no record is filed under that identity is
    logged and skipped: the table and the store are unchanged and the ledger
    is drained. *)
Theorem bad_worker_frames f c0 part0 part2 s rest d :
  let m := String c0 part0 :: "" :: part2 :: s :: rest in
  (String.prefix "REGISTER " s = true -> parse_register s = None ->
   on_worker_pollin f m d = Aborted) /\
  (String.prefix "REGISTER " s = false -> String.prefix "COMPLETE " s = true ->
   StdMap.find "" (workers_ d) = None ->
   on_worker_pollin f m d = Thrown out_of_range) /\
  (String.prefix "REGISTER " s = false -> String.prefix "COMPLETE " s = true ->
   forall c, StdMap.find "" (workers_ d) = Some c ->
   parse_complete s = None ->
   on_worker_pollin f m d = Aborted) /\
  (String.prefix "REGISTER " s = false -> String.prefix "COMPLETE " s = true ->
   forall c n, StdMap.find "" (workers_ d) = Some c ->
   parse_complete s = Some n -> find_if n (outstanding_items c) = None ->
   on_worker_pollin f m d = Aborted) /\
  (StdMap.find "" (workers_ d) = None ->
   on_worker_pollin f [String c0 part0; ""] d =
   Done (set_completed [] d,
         [cout "Info: received disconnect notification";
          cerr "Error: disconnect from unknown worker"] ++
         (send_pending_completions f d).2)).
Proof.
  intros m. subst m. rewrite on_worker_pollin_body, on_worker_pollin_disconnect.
  unfold handle_register, handle_complete, handle_disconnect.
  split; [|split; [|split; [|split]]].
  - intros -> ->. reflexivity.
  - intros -> -> ->. reflexivity.
  - intros -> -> c -> ->. reflexivity.
  - intros -> -> c n -> -> ->. reflexivity.
  - intros ->. reflexivity.
Qed.

Lemma bad_worker_frames_witness :
  let es := [connected;
             worker_pollin None (worker_says "REGISTER 1 0 Async W");
             produce "10"] in
  exists d out0,
    run es initial = Done (d, out0) /\
    on_worker_pollin None (worker_says "REGISTER x") d = Aborted /\
    on_worker_pollin None (worker_says "COMPLETE 10") initial
      = Thrown out_of_range /\
    on_worker_pollin None (worker_says "COMPLETE x") d = Aborted /\
    on_worker_pollin None (worker_says "COMPLETE 11") d = Aborted /\
    on_worker_pollin None worker_gone initial =
      Done (initial, [cout "Info: received disconnect notification";
                      cerr "Error: disconnect from unknown worker"]).
Proof.
  intros es.
  evar (D : ItemDistributor). evar (O : list output). evar (C : Worker).
  assert (run es initial = Done (D, O)) as Hrun
    by (subst D O; vm_compute; reflexivity).
  assert (StdMap.find "" (workers_ D) = Some C) as Hfind
    by (subst D C; reflexivity).
  exists D, O. split; [exact Hrun|].
  split; [|split; [|split; [|split]]].
  - apply (bad_worker_frames None "w"%char "orker-1" "" "REGISTER x" [] D);
      reflexivity.
  - apply (bad_worker_frames None "w"%char "orker-1" "" "COMPLETE 10" [] initial);
      reflexivity.
  - apply (bad_worker_frames None "w"%char "orker-1" "" "COMPLETE x" [] D)
      with (c := C); [reflexivity | reflexivity | exact Hfind | reflexivity].
  - apply (bad_worker_frames None "w"%char "orker-1" "" "COMPLETE 11" [] D)
      with (c := C) (n := 11);
      [reflexivity | reflexivity | exact Hfind | reflexivity
      | subst C; reflexivity].
  - apply (bad_worker_frames None "w"%char "orker-1" "" "" [] initial).
    reflexivity.
Defined.

(** C4, the claim as stated, fails. After a worker has registered and has
    been sent the item 10: a [REGISTER] with a field that does not scan, a
    [COMPLETE] with an id that does not scan and a [COMPLETE] for the id 11,
    which is not outstanding, fail an [assert], and the loop ends there
    whatever events follow; before any registration a [COMPLETE] lets
    [std::out_of_range] escape. *)
Lemma bad_worker_frames_counterexample :
  let es := [connected;
             worker_pollin None (worker_says "REGISTER 1 0 Async W");
             produce "10"] in
  exists d out0,
    run es initial = Done (d, out0) /\
    step (worker_pollin None (worker_says "REGISTER one 0 Async W")) d = Aborted /\
    step (worker_pollin None (worker_says "COMPLETE done")) d = Aborted /\
    step (worker_pollin None (worker_says "COMPLETE 11")) d = Aborted /\
    step (worker_pollin None (worker_says "COMPLETE 10")) initial
      = Thrown out_of_range /\
    (forall es', run (es ++ worker_pollin None (worker_says "COMPLETE 11") :: es')
                   initial = Aborted).
Proof.
  intros es. eexists _, _. split; [vm_compute; reflexivity|].
  split; [vm_compute; reflexivity|]. split; [vm_compute; reflexivity|].
  split; [vm_compute; reflexivity|]. split; [vm_compute; reflexivity|].
  intros es'. reflexivity.
Qed.

(** ** The drain when a send fails *)

(** C5 (as amended). A drain clears the completion ledger whether or not a
    send on the producer socket fails. When the send number [k] fails, the
    ids before it have been sent, the error is logged, and the ids from [k]
    on are dropped: the next drain has nothing to send. The table and the
    store are not touched. *)
Theorem drain_clears_ledger f d :
  let d' := (send_pending_completions f d).1 in
  let out := (send_pending_completions f d).2 in
  completed_items_ d' = [] /\
  workers_ d' = workers_ d /\ heap_ d' = heap_ d /\
  delivered out =
    match f with
    | Some k => take k (completed_items_ d)
    | None => completed_items_ d
    end /\
  (cout "ERROR: " ∈ out <->
   exists k, f = Some k /\ (k < length (completed_items_ d))%nat) /\
  forall f', send_pending_completions f' d' = (d', []).
Proof.
  unfold send_pending_completions. simpl.
  split; [reflexivity|]. split; [reflexivity|]. split; [reflexivity|].
  assert (forall l : list ItemID, cout "ERROR: " ∉ to_producer <$> l) as Hno.
  { intros l Hl. apply list_elem_of_fmap in Hl as (x & Hx & _). discriminate. }
  split; [|split].
  - destruct f as [k|]; [|apply delivered_to_producer].
    destruct (k <? length (completed_items_ d))%nat eqn:E.
    + rewrite delivered_app, delivered_to_producer. simpl. apply app_nil_r.
    + apply Nat.ltb_ge in E. rewrite take_ge by exact E.
      apply delivered_to_producer.
  - destruct f as [k|].
    + destruct (k <? length (completed_items_ d))%nat eqn:E.
      * apply Nat.ltb_lt in E. split; [eauto|]. intros _.
        apply elem_of_app. right. left.
      * apply Nat.ltb_ge in E. split; [intros H; destruct (Hno _ H)|].
        intros (k' & [= <-] & Hk). lia.
    + split; [intros H; destruct (Hno _ H)|]. intros (k' & [=] & _).
  - intros [k|]; [|reflexivity]. destruct k; reflexivity.
Qed.

(** C5, the claim as stated, fails: a worker that holds the items 1, 2 and 3
    disconnects, the drain sends 1 and fails on 2; the ledger is empty
    afterwards, and nothing is sent by the drain of the next event. *)
Lemma drain_clears_ledger_counterexample :
  let es := [connected;
             worker_pollin None (worker_says "REGISTER 1 0 Async W");
             produce "1"; produce "2"; produce "3"] in
  exists d d' out d'' out',
    run es initial = Done (d, [to_worker "" (WORK_ITEM 1 "")]) /\
    step (worker_pollin (Some 1%nat) worker_gone) d = Done (d', out) /\
    out = [cout "Info: received disconnect notification";
           to_producer 1; cout "ERROR: "] /\
    completed_items_ d' = [] /\ held d' = [] /\
    step (worker_pollin None worker_gone) d' = Done (d'', out') /\
    delivered out' = [].
Proof.
  eexists _, _, _, _, _.
  split; [reflexivity|]. split; [reflexivity|]. split; [reflexivity|].
  split; [reflexivity|]. split; [reflexivity|]. split; reflexivity.
Qed.

(** ** [COMPLETE] *)

Lemma prefix_complete_not_register s :
  String.prefix "COMPLETE " s = true -> String.prefix "REGISTER " s = false.
Proof.
  destruct s as [|b s]; [discriminate|].
  change (String.prefix "COMPLETE " (String b s))
    with (if ascii_dec "C" b then String.prefix "OMPLETE " s else false).
  destruct (ascii_dec "C" b) as [<-|]; intros H; [reflexivity | discriminate H].
Qed.

Lemma sent_to_app i o1 o2 : sent_to i (o1 ++ o2) = sent_to i o1 ++ sent_to i o2.
Proof. unfold sent_to. apply omap_app. Qed.

Lemma sent_to_drain i f d : sent_to i (send_pending_completions f d).2 = [].
Proof.
  assert (forall l : list ItemID, sent_to i (to_producer <$> l) = []) as Hno
    by (induction l; [reflexivity | assumption]).
  unfold send_pending_completions. simpl. destruct f as [k|]; [|apply Hno].
  destruct (k <? length (completed_items_ d))%nat; [|apply Hno].
  rewrite sent_to_app, Hno. reflexivity.
Qed.

Lemma sent_to_cons_worker i m out :
  sent_to i (to_worker i m :: out) = m :: sent_to i out.
Proof. unfold sent_to. simpl. rewrite String.eqb_refl. reflexivity. Qed.

#[local] Arguments sent_to : simpl never.

Lemma sent_to_cons i o out :
  sent_to i (o :: out) =
  match o with
  | to_worker j m => if String.eqb j i then m :: sent_to i out else sent_to i out
  | _ => sent_to i out
  end.
Proof.
  unfold sent_to. destruct o as [j m| | |]; try reflexivity.
  cbn. destruct (String.eqb j i); reflexivity.
Qed.

Lemma sent_to_nil i out :
  (forall m, to_worker i m ∉ out) -> sent_to i out = [].
Proof.
  induction out as [|o out IH]; intros H; [reflexivity|].
  assert (sent_to i out = []) as IH'.
  { apply IH. intros m Hm. apply (H m). right. exact Hm. }
  rewrite sent_to_cons, IH'.
  destruct o as [j m| | |]; try reflexivity.
  destruct (String.eqb j i) eqn:E; [|reflexivity].
  apply String.eqb_eq in E. subst j. exfalso. apply (H m). left.
Qed.

Lemma sent_to_other i j m :
  i <> j -> sent_to i [to_worker j m] = [].
Proof.
  intros Hne. rewrite sent_to_cons.
  destruct (String.eqb j i) eqn:E; [|reflexivity].
  apply String.eqb_eq in E. congruence.
Qed.

Lemma send_sent_other identity m d out i :
  send identity m d = Done out -> i <> identity -> sent_to i out = [].
Proof.
  intros H Hne. apply send_Done in H as [[_ ->]|[_ ->]]; [|reflexivity].
  apply sent_to_other, Hne.
Qed.


(** What the [COMPLETE] branch does when the id is outstanding and the
    send of the next item, if there is one, returns. *)
Lemma handle_complete_spec identity s d c n p out1 :
  parse_complete s = Some n ->
  StdMap.find identity (workers_ d) = Some c ->
  p ∈ outstanding_items c -> item_id p = n ->
  match waiting_items c with
  | [] => out1 = []
  | item :: _ => send_work_item identity item d = Done out1
  end ->
  exists d1 c' i q,
    handle_complete identity s d = Done (d1, out1) /\
    outstanding_items c !! i = Some q /\ item_id q = n /\
    (forall j q', (j < i)%nat -> outstanding_items c !! j = Some q' ->
                  item_id q' <> n) /\
    StdMap.find identity (workers_ d1) = Some c' /\
    same_params c c' /\
    (forall k, k <> identity ->
               StdMap.find k (workers_ d1) = StdMap.find k (workers_ d)) /\
    match waiting_items c with
    | [] =>
        outstanding_items c' = delete i (outstanding_items c) /\
        waiting_items c' = []
    | item :: waiting =>
        outstanding_items c' = delete i (outstanding_items c) ++ [item] /\
        waiting_items c' = waiting
    end.
Proof.
  intros Hparse Hfind Hin Hid Hsend.
  unfold handle_complete. rewrite Hfind, Hparse.
  destruct (find_if n (outstanding_items c)) as [i|] eqn:Ei.
  2:{ exfalso. apply find_if_None in Ei. rewrite Forall_forall in Ei.
      exact (Ei p Hin Hid). }
  destruct (find_if_Some _ _ _ Ei) as (q & Hq & Hqid & Hfirst).
  rewrite Hq. cbn.
  destruct (waiting_items c) as [|item waiting] eqn:Ew; cbn.
  - subst out1. eexists _, _, i, q. split; [reflexivity|].
    do 3 (split; [assumption|]). cbn.
    split; [apply StdMapFacts.find_assign_eq|].
    split; [repeat split|]. split.
    + intros k Hk. rewrite StdMapFacts.find_assign_ne by congruence.
      destruct (release_fields q d) as [-> _]. reflexivity.
    + split; [reflexivity | exact Ew].
  - match goal with
    | |- context [send_work_item ?a ?b ?d0] =>
        rewrite (send_work_item_same a b d d0) by same_socket
    end.
    rewrite Hsend. cbn.
    eexists _, _, i, q. split; [reflexivity|].
    do 3 (split; [assumption|]). cbn.
    split; [apply StdMapFacts.find_assign_eq|].
    split; [repeat split|]. split.
    + intros k Hk. rewrite StdMapFacts.find_assign_ne by congruence.
      repeat match goal with
      | |- context [workers_ (release ?x ?y)] =>
          destruct (release_fields x y) as [-> _]
      | |- context [workers_ (copy_ptr ?x ?y)] =>
          destruct (copy_ptr_fields x y) as (_ & -> & _)
      end. reflexivity.
    + split; reflexivity.
Qed.

(** The send of the next item throws: so does the [COMPLETE] branch. *)
Lemma handle_complete_unroutable identity s d c n p item waiting :
  parse_complete s = Some n ->
  StdMap.find identity (workers_ d) = Some c ->
  p ∈ outstanding_items c -> item_id p = n ->
  waiting_items c = item :: waiting ->
  worker_socket_ d identity = Unroutable ->
  handle_complete identity s d = Thrown zmq_error.
Proof.
  intros Hparse Hfind Hin Hid Ew Hsock.
  unfold handle_complete. rewrite Hfind, Hparse.
  destruct (find_if n (outstanding_items c)) as [i|] eqn:Ei.
  2:{ exfalso. apply find_if_None in Ei. rewrite Forall_forall in Ei.
      exact (Ei p Hin Hid). }
  destruct (find_if_Some _ _ _ Ei) as (q & Hq & _).
  rewrite Hq. cbn. rewrite Ew.
  match goal with
  | |- context [send_work_item ?a ?b ?d0] =>
      rewrite (send_work_item_same a b d d0) by same_socket
  end.
  unfold send_work_item, send. rewrite Hsock. reflexivity.
Qed.

(** ** [REGISTER] *)

Lemma distribute_to_total new_item identity w d :
  stride w <> 0 -> worker_socket_ d identity <> Unroutable ->
  exists r, distribute_to new_item identity w d = Done r.
Proof.
  intros Hs Hsock. unfold distribute_to, wants_item.
  apply N.eqb_neq in Hs. rewrite Hs. simpl.
  destruct (_ mod stride w =? offset w); [|eauto].
  assert (forall p d0, worker_socket_ d0 = worker_socket_ d ->
            exists o, send_work_item identity p d0 = Done o) as Hsend.
  { intros p d0 E. unfold send_work_item, send. rewrite E.
    destruct (worker_socket_ d identity); [eauto | eauto | contradiction]. }
  destruct (decide (queue_policy w = PrebufferOne)); simpl;
    (destruct (outstanding_items w);
     [|destruct (decide (queue_policy w <> Skip)); eauto]).
  - destruct (Hsend new_item
                (copy_ptr new_item (release_all (waiting_items w) d)))
      as [o ->]; [same_socket|]. simpl. eauto.
  - destruct (Hsend new_item (copy_ptr new_item d)) as [o ->]; [same_socket|].
    simpl. eauto.
Qed.

(** The record filed under the empty identity is the first of the map. *)
Lemma assign_empty_head (c : Worker) ws :
  exists rest, StdMap.assign "" c ws = ("", c) :: rest.
Proof.
  destruct ws as [|[k v] ws]; simpl; [eauto|].
  destruct k; simpl; eauto.
Qed.

Lemma distribute_head_stride_0 new_item k c ws d :
  stride c = 0 -> distribute new_item ((k, c) :: ws) d = Undefined.
Proof.
  intros E. simpl. unfold distribute_to, wants_item. rewrite E. reflexivity.
Qed.

(** C8 (as amended). A [REGISTER] is checked only for its five fields to
    scan: the record is filed with the scanned stride and offset, whatever
    they are, and with empty queues. The predicate [id mod stride] is defined
    exactly when the stride of the record is not zero; a record with stride
    zero is accepted, and while it is in the table the fan-out of every
    producer item runs into the remainder by zero. A record whose offset is
    not below its stride is accepted as well and wants no item. *)
Theorem register_unvalidated f c0 part0 part2 s rest d c :
  let m := String c0 part0 :: "" :: part2 :: s :: rest in
  String.prefix "REGISTER " s = true ->
  parse_register s = Some c ->
  exists d' out,
    on_worker_pollin f m d = Done (d', out) /\
    StdMap.find "" (workers_ d') = Some c /\
    waiting_items c = [] /\ outstanding_items c = [] /\
    (forall n, wants_item c n =
               if stride c =? 0 then Undefined
               else Done (n mod stride c =? offset c)) /\
    (stride c <= offset c -> forall n, wants_item c n <> Done true) /\
    (stride c = 0 -> forall f' first rest' n,
       Scan.stoull first = inr n ->
       on_generator_pollin f' (first :: rest') d' = Undefined).
Proof.
  intros m Hpre Hparse. subst m.
  destruct (parse_register_queues _ _ Hparse) as (Hw & Ho & _).
  rewrite on_worker_pollin_body, Hpre. unfold handle_register. rewrite Hparse.
  assert (forall d' : ItemDistributor,
            (exists ws, workers_ d' = ("", c) :: ws) -> stride c = 0 ->
            forall f' first rest' n, Scan.stoull first = inr n ->
            on_generator_pollin f' (first :: rest') d' = Undefined) as Hfan.
  { intros d' [ws Hws] Hz f' first rest' n Hn.
    unfold on_generator_pollin, receive_producer_item. rewrite Hn. cbn.
    rewrite Hws, distribute_head_stride_0 by exact Hz. reflexivity. }
  assert (forall n, wants_item c n =
                    if stride c =? 0 then Undefined
                    else Done (n mod stride c =? offset c)) as Hwants
    by reflexivity.
  assert (stride c <= offset c -> forall n, wants_item c n <> Done true) as Hnever.
  { intros Hle n. rewrite Hwants. destruct (stride c =? 0) eqn:E; [discriminate|].
    apply N.eqb_neq in E. intros [= H]. apply N.eqb_eq in H.
    pose proof (N.mod_lt n (stride c) E). lia. }
  assert (forall l x, workers_ (set_completed l x) = workers_ x) as Hsc
    by reflexivity.
  destruct (StdMap.find "" (workers_ d)) as [old|];
    eexists _, _; (split; [reflexivity|]);
    (split; [|split; [exact Hw|split; [exact Ho|split; [exact Hwants|split;
       [exact Hnever|]]]]]); try apply Hfan; rewrite Hsc.
  - destruct (destroy_worker_fields old
                (set_workers (StdMap.assign "" c (workers_ d)) d)) as [-> _].
    apply StdMapFacts.find_assign_eq.
  - destruct (destroy_worker_fields old
                (set_workers (StdMap.assign "" c (workers_ d)) d)) as [-> _].
    apply assign_empty_head.
  - apply StdMapFacts.find_assign_eq.
  - apply assign_empty_head.
Qed.

Lemma register_unvalidated_witness :
  let c := {| stride := 0; offset := 0; queue_policy := Async;
              client_name := "W"; waiting_items := [];
              outstanding_items := []; next_heartbeat_time := 0 |} in
  String.prefix "REGISTER " "REGISTER 0 0 Async W" = true /\
  parse_register "REGISTER 0 0 Async W" = Some c /\
  exists d' out,
    on_worker_pollin None (worker_says "REGISTER 0 0 Async W") initial
      = Done (d', out) /\
    StdMap.find "" (workers_ d') = Some c /\
    on_generator_pollin None ["7"] d' = Undefined.
Proof.
  intros c.
  assert (parse_register "REGISTER 0 0 Async W" = Some c) as Hparse by reflexivity.
  split; [reflexivity|]. split; [exact Hparse|].
  destruct (register_unvalidated None "w"%char "orker-1" "" "REGISTER 0 0 Async W"
              [] initial c eq_refl Hparse)
    as (d' & out & Hstep & Hfind & _ & _ & _ & _ & Hfan).
  exists d', out. split; [exact Hstep|]. split; [exact Hfind|].
  apply (Hfan eq_refl None "7" [] 7). reflexivity.
Defined.

(** C8, the claim as stated, fails: a [REGISTER] with stride 0 is accepted
    and filed, and the next producer item takes a remainder by zero; a
    [REGISTER] with an offset that is not below the stride is accepted too. *)
Lemma register_unvalidated_counterexample :
  exists d c d2 c2,
    step (worker_pollin None (worker_says "REGISTER 0 0 Async W")) initial
      = Done (d, []) /\
    StdMap.find "" (workers_ d) = Some c /\ stride c = 0 /\
    step (produce "7") d = Undefined /\
    step (worker_pollin None (worker_says "REGISTER 2 5 Async W")) initial
      = Done (d2, []) /\
    StdMap.find "" (workers_ d2) = Some c2 /\ stride c2 = 2 /\ offset c2 = 5.
Proof.
  eexists _, _, _, _. repeat split; reflexivity.
Qed.

(** ** Heartbeats *)

Lemma send_heartbeat_loop_elem ws d out identity :
  send_heartbeat_loop ws d = Done out ->
  (to_worker identity HEARTBEAT ∈ out <->
   exists w, (identity, w) ∈ ws /\ outstanding_items w = [] /\
             worker_socket_ d identity = Sent).
Proof.
  revert out. induction ws as [|[i w] ws IH]; intros out H; simpl in H.
  - injection H as <-.
    split; [intros Hin; inversion Hin | intros (w & Hin & _); inversion Hin].
  - destruct (outstanding_items w) as [|x l] eqn:Eo.
    + destruct (send_heartbeat_to i d) as [o1| | |] eqn:E1; try discriminate H.
      simpl in H.
      destruct (send_heartbeat_loop ws d) as [o2| | |]; try discriminate H.
      simpl in H. injection H as <-. rewrite elem_of_app, (IH o2 eq_refl).
      split.
      * intros [Hin|(w' & Hw' & Ho & Hs)].
        -- destruct (send_elem _ _ _ _ _ _ E1 Hin) as (-> & _ & Hs).
           exists w. split; [left | auto].
        -- exists w'. split; [right; exact Hw' | auto].
      * intros (w' & Hw' & Ho & Hs).
        apply elem_of_cons in Hw' as [[= -> ->]|Hw']; [|right; eauto].
        left. unfold send_heartbeat_to in E1. rewrite (send_Sent _ _ _ Hs) in E1.
        injection E1 as <-. left.
    + simpl in H.
      destruct (send_heartbeat_loop ws d) as [o2| | |]; try discriminate H.
      simpl in H. injection H as <-. rewrite (IH o2 eq_refl). split.
      * intros (w' & Hw' & Ho & Hs). exists w'. split; [right; exact Hw' | auto].
      * intros (w' & Hw' & Ho & Hs).
        apply elem_of_cons in Hw' as [[= -> ->]|Hw']; [congruence | eauto].
Qed.

(** What the sweep sends when the socket takes every [HEARTBEAT]. *)
Lemma send_heartbeat_loop_accepted ws d :
  (forall identity w, (identity, w) ∈ ws -> outstanding_items w = [] ->
                      worker_socket_ d identity = Sent) ->
  send_heartbeat_loop ws d =
  Done (flat_map (fun '(identity, w) =>
                    match outstanding_items w with
                    | [] => [to_worker identity HEARTBEAT]
                    | _ :: _ => []
                    end) ws).
Proof.
  induction ws as [|[i w] ws IH]; intros H; [reflexivity|].
  simpl. rewrite IH by (intros i' w' Hin; apply H; right; exact Hin).
  destruct (outstanding_items w) eqn:Eo; [|reflexivity].
  unfold send_heartbeat_to. rewrite send_Sent by (apply (H i w); [left | exact Eo]).
  reflexivity.
Qed.

(** C9: what the code does. The sweep [send_heartbeat()] reads no clock and
    writes no field: it leaves the state, [next_heartbeat_time] included, as
    it was, and the [HEARTBEAT]s it gets sent go to exactly the workers
    without an outstanding item for which the socket takes the message,
    whatever their [next_heartbeat_time]. When the socket takes every
    [HEARTBEAT], each such worker is sent one, in the order of the map. Two
    sweeps in a row after a [REGISTER] both send a [HEARTBEAT] to the worker,
    whose [next_heartbeat_time] is still the epoch. *)
Theorem heartbeat_ungated :
  (forall d d' out, step heartbeat d = Done (d', out) ->
                    d' = d /\ send_heartbeat d = Done out) /\
  (forall d out identity,
     send_heartbeat d = Done out ->
     (to_worker identity HEARTBEAT ∈ out <->
      exists w, (identity, w) ∈ workers_ d /\ outstanding_items w = [] /\
                worker_socket_ d identity = Sent)) /\
  (forall d,
     (forall identity w, (identity, w) ∈ workers_ d -> outstanding_items w = [] ->
                         worker_socket_ d identity = Sent) ->
     step heartbeat d =
     Done (d, flat_map (fun '(identity, w) =>
                          match outstanding_items w with
                          | [] => [to_worker identity HEARTBEAT]
                          | _ :: _ => []
                          end) (workers_ d))) /\
  exists d w,
    run [connected; worker_pollin None (worker_says "REGISTER 1 0 Async W");
         heartbeat; heartbeat] initial
    = Done (d, [to_worker "" HEARTBEAT; to_worker "" HEARTBEAT]) /\
    StdMap.find "" (workers_ d) = Some w /\ next_heartbeat_time w = 0%Z.
Proof.
  split; [exact step_heartbeat_inv|]. split.
  { intros d out identity. apply send_heartbeat_loop_elem. }
  split.
  { intros d H. simpl. unfold send_heartbeat.
    rewrite (send_heartbeat_loop_accepted _ _ H). reflexivity. }
  eexists _, _. repeat split; reflexivity.
Qed.

Lemma heartbeat_ungated_witness :
  let w := fresh_record 1 0 Async "W" in
  let d := set_socket (fun _ => Sent) (set_workers [("", w)] initial) in
  run [connected; worker_pollin None (worker_says "REGISTER 1 0 Async W")] initial
    = Done (d, []) /\
  step heartbeat d = Done (d, [to_worker "" HEARTBEAT]) /\
  to_worker "" HEARTBEAT ∈ [to_worker "" HEARTBEAT] /\
  next_heartbeat_time w = 0%Z.
Proof.
  intros w d.
  assert (step heartbeat d = Done (d, [to_worker "" HEARTBEAT])) as Hstep.
  { apply (proj1 (proj2 (proj2 heartbeat_ungated)) d).
    intros identity w' Hin Hidle. reflexivity. }
  split; [reflexivity|]. split; [exact Hstep|].
  destruct (proj1 heartbeat_ungated d d _ Hstep) as [_ Hsweep].
  split; [|reflexivity].
  apply (proj1 (proj2 heartbeat_ungated) d _ "" Hsweep).
  exists w. split; [left|]. split; reflexivity.
Defined.

(** ** Messages with another verb *)

(** C10: what the code does. The handler reads the text of a worker message
    from the part at index 3. A message of three parts, identity, empty part
    and text, has no such part: the read is out of range, whatever the text.
    With four or more parts the part at index 3 decides: when it starts with
    neither verb the table and the store are unchanged and the ledger is
    drained; when it is a [REGISTER], a worker is registered although the
    part at index 2 carries another verb. *)
Theorem unrecognized_verb :
  (forall f c0 part0 body d,
     on_worker_pollin f [String c0 part0; ""; body] d = Undefined) /\
  (forall f c0 part0 part2 s rest d,
     String.prefix "REGISTER " s = false -> String.prefix "COMPLETE " s = false ->
     on_worker_pollin f (String c0 part0 :: "" :: part2 :: s :: rest) d
     = Done (set_completed [] d, (send_pending_completions f d).2)) /\
  exists d w,
    on_worker_pollin None ["worker-1"; ""; "PING"; "REGISTER 1 0 Async W"] initial
    = Done (d, []) /\
    StdMap.find "" (workers_ d) = Some w /\ workers_ initial = [].
Proof.
  split; [reflexivity|]. split.
  - intros f c0 part0 part2 s rest d Hr Hc.
    rewrite on_worker_pollin_body, Hr, Hc. reflexivity.
  - eexists _, _. repeat split; reflexivity.
Qed.

Lemma unrecognized_verb_witness :
  on_worker_pollin None (worker_says "PING") initial = Done (initial, []).
Proof.
  apply (proj1 (proj2 unrecognized_verb) None "w"%char "orker-1" "" "PING" []
           initial); reflexivity.
Defined.

(** ** [PrebufferOne] *)



Lemma on_worker_pollin_other f m d d' out i :
  on_worker_pollin f m d = Done (d', out) ->
  m !! 1%nat <> Some i ->
  StdMap.find i (workers_ d') = StdMap.find i (workers_ d).
Proof.
  intros H Hne.
  apply on_worker_pollin_inv in H
    as (part0 & identity & d1 & out1 & _ & _ & Hid & _ & Hbody & -> & _).
  assert (identity <> i) as Hi by congruence.
  change (workers_ (set_completed [] d1)) with (workers_ d1).
  destruct Hbody as [[_ E]|(s & _ & _ & [[_ E]|[(_ & _ & E)|(_ & _ & -> & _)]])].
  - unfold handle_disconnect in E.
    destruct (StdMap.find identity (workers_ d)); injection E as -> _;
      [|reflexivity].
    destruct (destroy_worker_fields w
                (set_workers (StdMap.erase identity (workers_ d)) d)) as [-> _].
    apply StdMapFacts.find_erase_ne, Hi.
  - unfold handle_register in E.
    destruct (parse_register s) as [c|]; [|discriminate E].
    destruct (StdMap.find identity (workers_ d)) as [old|]; injection E as <- _.
    + destruct (destroy_worker_fields old
                  (set_workers (StdMap.assign identity c (workers_ d)) d)) as [-> _].
      apply StdMapFacts.find_assign_ne, Hi.
    + apply StdMapFacts.find_assign_ne, Hi.
  - apply handle_complete_inv in E as (c & n & j & p & _ & _ & _ & _ & E).
    destruct E as [(_ & _ & ->)|(item & rest & _ & _ & ->)]; simpl;
      rewrite StdMapFacts.find_assign_ne by exact Hi;
      repeat match goal with
      | |- context [workers_ (release ?x ?y)] =>
          destruct (release_fields x y) as [-> _]
      | |- context [workers_ (copy_ptr ?x ?y)] =>
          destruct (copy_ptr_fields x y) as (_ & -> & _)
      end; reflexivity.
  - reflexivity.
Qed.

Lemma on_worker_pollin_sent_other f m d d' out i :
  on_worker_pollin f m d = Done (d', out) ->
  m !! 1%nat <> Some i ->
  sent_to i out = [].
Proof.
  intros H Hne.
  apply on_worker_pollin_inv in H
    as (part0 & identity & d1 & out1 & _ & _ & Hid & _ & Hbody & _ & ->).
  assert (i <> identity) as Hi by congruence.
  rewrite sent_to_app, sent_to_drain, app_nil_r.
  destruct Hbody as [[_ E]|(s & _ & _ & [[_ E]|[(_ & _ & E)|(_ & _ & _ & ->)]])].
  - unfold handle_disconnect in E.
    destruct (StdMap.find identity (workers_ d)); injection E as _ ->; reflexivity.
  - apply handle_register_conserve in E as [_ ->]. reflexivity.
  - apply handle_complete_inv in E as (c & n & j & p & _ & _ & _ & _ & E).
    destruct E as [(_ & -> & _)|(item & rest & _ & Hs & _)]; [reflexivity|].
    exact (send_sent_other _ _ _ _ _ Hs Hi).
  - reflexivity.
Qed.

Lemma wanted_by_same_params w w' it :
  same_params w w' -> wanted_by w' it = wanted_by w it.
Proof. intros (Hs & Ho & _). unfold wanted_by. rewrite Hs, Ho. reflexivity. Qed.

Lemma same_params_trans w1 w2 w3 :
  same_params w1 w2 -> same_params w2 w3 -> same_params w1 w3.
Proof. unfold same_params. intuition congruence. Qed.

Lemma same_params_refl w : same_params w w.
Proof. unfold same_params. auto. Qed.




(** ** Whose record a worker message changes *)

(** The handler never looks at the first part of a message beyond the
    [assert] that it is not empty. *)
Lemma on_worker_pollin_sender f c0 part0 c0' part0' rest d :
  on_worker_pollin f (String c0 part0 :: rest) d =
  on_worker_pollin f (String c0' part0' :: rest) d.
Proof. destruct rest as [|p1 [|p2 [|p3 r]]]; reflexivity. Qed.

(** C7: what the code does. The handler takes the identity of the sender
    from the part at index 1, the delimiter that the third [assert] makes
    empty, and the text from the part at index 3. So the first part, the
    sender, has no influence on what a message does; a message that the
    handler accepts changes no record but the one filed under the empty
    identity and is answered with nothing for any other identity; and a
    [COMPLETE] in the envelope of identity, empty part and text is read out
    of range. After the worker ["A"] has registered and the items 10 and 11
    have come, its [COMPLETE 10] does remove the item 10 and promote the item
    11, but in the record filed under the empty identity, and the [WORK_ITEM]
    for 11 is addressed to the empty identity, not to ["A"]; the same
    [COMPLETE 10] from ["Z"], which never registered, does the same. *)
Theorem complete_handling :
  (forall f c0 part0 c0' part0' rest d,
     on_worker_pollin f (String c0 part0 :: rest) d =
     on_worker_pollin f (String c0' part0' :: rest) d) /\
  (forall f m d d' out i,
     on_worker_pollin f m d = Done (d', out) -> i <> "" ->
     StdMap.find i (workers_ d') = StdMap.find i (workers_ d) /\
     sent_to i out = []) /\
  (forall f c0 part0 body d,
     on_worker_pollin f [String c0 part0; ""; body] d = Undefined) /\
  exists d0 out0 d out c,
    run [connected;
         worker_pollin None ["A"; ""; ""; "REGISTER 1 0 Async A"];
         produce "10"; produce "11"] initial = Done (d0, out0) /\
    on_worker_pollin None ["A"; ""; ""; "COMPLETE 10"] d0 = Done (d, out) /\
    on_worker_pollin None ["Z"; ""; ""; "COMPLETE 10"] d0 = Done (d, out) /\
    StdMap.find "A" (workers_ d) = None /\
    StdMap.find "" (workers_ d) = Some c /\
    item_id <$> outstanding_items c = [11] /\ waiting_items c = [] /\
    sent_to "A" (out0 ++ out) = [] /\
    sent_to "" (out0 ++ out) = [WORK_ITEM 10 ""; WORK_ITEM 11 ""] /\
    delivered out = [10].
Proof.
  split; [exact on_worker_pollin_sender|]. split.
  { intros f m d d' out i H Hi.
    assert (m !! 1%nat <> Some i) as Hne.
    { apply on_worker_pollin_inv in H
        as (part0 & identity & d1 & out1 & _ & _ & Hid & -> & _).
      rewrite Hid. congruence. }
    split; [exact (on_worker_pollin_other _ _ _ _ _ _ H Hne)
           | exact (on_worker_pollin_sent_other _ _ _ _ _ _ H Hne)]. }
  split; [reflexivity|].
  eexists _, _, _, _, _. split; [vm_compute; reflexivity|].
  split; [vm_compute; reflexivity|]. split; [vm_compute; reflexivity|].
  repeat split; reflexivity.
Qed.

Lemma complete_handling_witness :
  exists d0 out0 d out,
    run [connected;
         worker_pollin None ["A"; ""; ""; "REGISTER 1 0 PrebufferOne A"];
         produce "20"; produce "21"] initial = Done (d0, out0) /\
    on_worker_pollin None ["A"; ""; ""; "COMPLETE 20"] d0 = Done (d, out) /\
    on_worker_pollin None ["B"; ""; ""; "COMPLETE 20"] d0 = Done (d, out) /\
    StdMap.find "A" (workers_ d) = StdMap.find "A" (workers_ d0) /\
    sent_to "A" out = [] /\ sent_to "" out = [WORK_ITEM 21 ""].
Proof.
  evar (D0 : ItemDistributor). evar (O0 : list output).
  evar (D : ItemDistributor). evar (O : list output).
  assert (run [connected;
               worker_pollin None ["A"; ""; ""; "REGISTER 1 0 PrebufferOne A"];
               produce "20"; produce "21"] initial = Done (D0, O0)) as Hrun
    by (subst D0 O0; vm_compute; reflexivity).
  assert (on_worker_pollin None ["A"; ""; ""; "COMPLETE 20"] D0 = Done (D, O))
    as Hstep by (subst D0 D O; vm_compute; reflexivity).
  assert ("A" <> "") as Hne by discriminate.
  destruct (proj1 (proj2 complete_handling) None _ D0 D O "A" Hstep Hne)
    as [Hfind Hsent].
  exists D0, O0, D, O. split; [exact Hrun|]. split; [exact Hstep|].
  split.
  { rewrite <- Hstep.
    apply (proj1 complete_handling None "B"%char "" "A"%char ""). }
  split; [exact Hfind|]. split; [exact Hsent|]. subst O. reflexivity.
Defined.

(** C6: what the code does. In every state the broker reaches, a record
    with the policy [PrebufferOne] has at most one waiting item. But the
    handler reads the identity from the part at index 1, the empty delimiter,
    and the text from the part at index 3, so the record and the replies of
    a worker are not its own. The worker ["A"] registers with [PrebufferOne]
    and is sent nothing: the item 10 is addressed to the empty identity; the
    items 11 and 12 come, and 12 takes the place of 11. The [COMPLETE 10] of
    ["A"] promotes the item 12, but the [WORK_ITEM] goes to the empty
    identity, not to ["A"], and in the envelope of identity, empty part and
    text the same [COMPLETE 10] is read out of range. When instead the worker
    ["B"] registers first, its record replaces the one of ["A"], the items 10
    and 12 are reported to the producer as completed, and the [COMPLETE 10]
    of ["A"] fails [assert(it != end)]. *)
Theorem prebuffer_one :
  (forall es d out i w,
     run es initial = Done (d, out) ->
     StdMap.find i (workers_ d) = Some w -> queue_policy w = PrebufferOne ->
     (length (waiting_items w) <= 1)%nat) /\
  exists d0 out0 a d1 out1 d out,
    run [connected;
         worker_pollin None ["A"; ""; ""; "REGISTER 1 0 PrebufferOne A"];
         produce "10"; produce "11"; produce "12"] initial = Done (d0, out0) /\
    StdMap.find "" (workers_ d0) = Some a /\
    StdMap.find "A" (workers_ d0) = None /\
    client_name a = "A" /\ queue_policy a = PrebufferOne /\
    item_id <$> outstanding_items a = [10] /\
    item_id <$> waiting_items a = [12] /\
    delivered out0 = [11] /\
    sent_to "A" out0 = [] /\ sent_to "" out0 = [WORK_ITEM 10 ""] /\
    on_worker_pollin None ["A"; ""; ""; "COMPLETE 10"] d0 = Done (d1, out1) /\
    sent_to "A" out1 = [] /\ sent_to "" out1 = [WORK_ITEM 12 ""] /\
    on_worker_pollin None ["A"; ""; "COMPLETE 10"] d0 = Undefined /\
    on_worker_pollin None ["B"; ""; ""; "REGISTER 1 0 Async B"] d0
      = Done (d, out) /\
    workers_ d = [("", fresh_record 1 0 Async "B")] /\
    delivered out = [10; 12] /\
    (forall i, sent_to i out = []) /\
    on_worker_pollin None ["A"; ""; ""; "COMPLETE 10"] d = Aborted.
Proof.
  split.
  - intros es d out i w Hrun Hfind Hp.
    pose proof (run_wf _ _ _ _ wf_initial Hrun) as (_ & _ & _ & _ & Hok).
    destruct (Forall_ok_split _ _ _ Hfind Hok) as (_ & _ & Hpre & _). auto.
  - eexists _, _, _, _, _, _, _. split; [vm_compute; reflexivity|].
    split; [reflexivity|]. do 8 (split; [reflexivity|]).
    split; [vm_compute; reflexivity|]. do 3 (split; [reflexivity|]).
    split; [vm_compute; reflexivity|]. do 2 (split; [reflexivity|]).
    split; [intros i; reflexivity | reflexivity].
Qed.

Lemma prebuffer_one_witness :
  let es := [connected;
             worker_pollin None (worker_says "REGISTER 1 0 PrebufferOne W");
             produce "10"; produce "11"; produce "12"; heartbeat;
             produce "13"] in
  exists d out w,
    run es initial = Done (d, out) /\
    StdMap.find "" (workers_ d) = Some w /\
    queue_policy w = PrebufferOne /\
    item_id <$> waiting_items w = [13] /\
    (length (waiting_items w) <= 1)%nat.
Proof.
  intros es.
  evar (D : ItemDistributor). evar (O : list output). evar (W : Worker).
  assert (run es initial = Done (D, O)) as Hrun
    by (subst D O; vm_compute; reflexivity).
  assert (StdMap.find "" (workers_ D) = Some W) as Hfind
    by (subst D W; reflexivity).
  assert (queue_policy W = PrebufferOne) as Hp by (subst W; reflexivity).
  exists D, O, W. split; [exact Hrun|]. split; [exact Hfind|].
  split; [exact Hp|]. split; [subst W; reflexivity|].
  exact (proj1 prebuffer_one es D O "" W Hrun Hfind Hp).
Defined.

(** ** The decimal text of an id scans back to the id *)

Lemma digit_char_spec m :
  m < 10 ->
  Scan.isdigit (digit_char m) = true /\ Scan.digit_value (digit_char m) = m /\
  Scan.isspace (digit_char m) = false /\
  digit_char m <> "-"%char /\ digit_char m <> "+"%char.
Proof.
  intros Hm.
  assert (m = 0 \/ m = 1 \/ m = 2 \/ m = 3 \/ m = 4 \/ m = 5 \/ m = 6 \/
          m = 7 \/ m = 8 \/ m = 9) as Hcases by lia.
  repeat destruct Hcases as [->|Hcases]; try subst m;
    repeat split; try reflexivity; discriminate.
Qed.

Lemma take_digits_digit m r a seen :
  m < 10 ->
  Scan.take_digits (String (digit_char m) r) a seen
  = Scan.take_digits r (10 * a + m) true.
Proof.
  intros Hm. destruct (digit_char_spec m Hm) as (Hd & Hv & _).
  simpl. rewrite Hd, Hv. reflexivity.
Qed.

Lemma take_digits_to_digits fuel : forall n r a seen,
  n < 10 ^ N.of_nat (S fuel) ->
  exists k, Scan.take_digits (to_digits (S fuel) n r) a seen
            = Scan.take_digits r (a * 10 ^ k + n) true.
Proof.
  induction fuel as [|fuel IH]; intros n r a seen Hn.
  - change (10 ^ N.of_nat 1) with 10 in Hn. exists 1.
    assert (n mod 10 = n) as Hmod by (apply N.mod_small; exact Hn).
    change (to_digits 1 n r)
      with (if n / 10 =? 0 then String (digit_char (n mod 10)) r
            else String (digit_char (n mod 10)) r).
    rewrite Hmod. destruct (n / 10 =? 0); rewrite take_digits_digit by exact Hn;
      f_equal; lia.
  - change (to_digits (S (S fuel)) n r)
      with (if n / 10 =? 0 then String (digit_char (n mod 10)) r
            else to_digits (S fuel) (n / 10) (String (digit_char (n mod 10)) r)).
    pose proof (N.mod_lt n 10 ltac:(lia)) as Hm.
    pose proof (N.div_mod' n 10) as Hdm.
    destruct (n / 10 =? 0) eqn:E.
    + apply N.eqb_eq in E. exists 1. rewrite take_digits_digit by exact Hm.
      f_equal. lia.
    + assert (n / 10 < 10 ^ N.of_nat (S fuel)) as Hq.
      { apply N.Div0.div_lt_upper_bound.
        rewrite <- N.pow_succ_r', <- Nat2N.inj_succ. exact Hn. }
      destruct (IH (n / 10) (String (digit_char (n mod 10)) r) a seen Hq) as [k Hk].
      exists (N.succ k). rewrite Hk, take_digits_digit by exact Hm.
      f_equal. rewrite N.pow_succ_r'. nia.
Qed.

Lemma to_digits_head fuel : forall n r,
  exists m s, to_digits (S fuel) n r = String (digit_char m) s /\ m < 10.
Proof.
  induction fuel as [|fuel IH]; intros n r;
    pose proof (N.mod_lt n 10 ltac:(lia)) as Hm.
  - change (to_digits 1 n r)
      with (if n / 10 =? 0 then String (digit_char (n mod 10)) r
            else String (digit_char (n mod 10)) r).
    destruct (n / 10 =? 0); eauto.
  - change (to_digits (S (S fuel)) n r)
      with (if n / 10 =? 0 then String (digit_char (n mod 10)) r
            else to_digits (S fuel) (n / 10) (String (digit_char (n mod 10)) r)).
    destruct (n / 10 =? 0); eauto.
Qed.

Lemma scan_unsigned_to_string n :
  n < Scan.size_max -> Scan.scan_unsigned (to_string n) = Scan.Scanned n "".
Proof.
  intros Hn. unfold Scan.scan_unsigned, to_string.
  destruct (to_digits_head 19 n "") as (m & s & Hs & Hm).
  destruct (digit_char_spec m Hm) as (_ & _ & Hsp & Hminus & Hplus).
  assert (Scan.skipws (to_digits 20 n "") = to_digits 20 n "") as ->
    by (rewrite Hs; simpl; rewrite Hsp; reflexivity).
  assert (n < 10 ^ N.of_nat 20) as Hn20.
  { eapply N.lt_trans; [exact Hn|]. reflexivity. }
  destruct (take_digits_to_digits 19 n "" 0 false Hn20) as [k Hk].
  assert ((match to_digits 20 n "" with
           | String "-"%char r => (true, r)
           | String "+"%char r => (false, r)
           | _ => (false, to_digits 20 n "")
           end) = (false, to_digits 20 n "")) as ->.
  { rewrite Hs. destruct (digit_char m) as [[] [] [] [] [] [] [] []];
      try reflexivity; congruence. }
  rewrite Hk. rewrite N.mul_0_l, N.add_0_l.
  change (Scan.take_digits "" n true) with (n, true, "").
  cbv beta iota. apply N.leb_gt in Hn. rewrite Hn. reflexivity.
Qed.

Lemma parse_complete_text t :
  String.prefix "COMPLETE " ("COMPLETE " +:+ t) = true /\
  parse_complete ("COMPLETE " +:+ t) =
    match Scan.scan_unsigned t with
    | Scan.Scanned v _ => Some v
    | _ => None
    end.
Proof.
  split; [destruct t; reflexivity|].
  unfold parse_complete, Scan.extract_string, Scan.extract_size_t.
  change (Scan.take_word (Scan.skipws ("COMPLETE " +:+ t)))
    with ("COMPLETE", String " " t).
  cbn [mbind option_bind].
  change (Scan.scan_unsigned (String " " t)) with (Scan.scan_unsigned t).
  destruct (Scan.scan_unsigned t); reflexivity.
Qed.

(** The frame ["COMPLETE <id>"] with the decimal text of an id is taken by
    the [COMPLETE] branch and scans to that id. *)
Lemma complete_frame_parses n :
  n < Scan.size_max ->
  String.prefix "COMPLETE " ("COMPLETE " +:+ to_string n) = true /\
  parse_complete ("COMPLETE " +:+ to_string n) = Some n.
Proof.
  intros Hn. destruct (parse_complete_text (to_string n)) as [Hp Hc].
  split; [exact Hp|]. rewrite Hc, (scan_unsigned_to_string n Hn). reflexivity.
Qed.


(** * Further properties of the broker *)

(** ** The store and the queues *)

(** X1. Store consistency. In every state the broker reaches, every
    [shared_ptr] in a worker's queue points to a live [Item] with the id and
    the payload the pointer was made for, every live [Item] is referenced by
    at least one queue, all addresses in use are below the next one that
    [std::make_shared] hands out, and the ledger has been drained. *)
Theorem store_consistency es d out :
  run es initial = Done (d, out) ->
  (forall i w p, StdMap.find i (workers_ d) = Some w -> p ∈ ptrs_of w ->
     exists n, heap_ d !! address p = Some (pointee p, n) /\ (0 < n)%nat) /\
  (forall a it n, heap_ d !! a = Some (it, n) ->
     exists i w p, StdMap.find i (workers_ d) = Some w /\ p ∈ ptrs_of w /\
                   address p = a /\ pointee p = it) /\
  (forall a, is_Some (heap_ d !! a) -> (a < next_address d)%nat) /\
  completed_items_ d = [].
Proof.
  intros Hrun.
  pose proof (run_wf _ _ _ _ wf_initial Hrun) as (Hl & Hs & [Hlive Hcount] & Hb & _).
  split; [|split; [|split; [exact Hb | exact Hl]]].
  - intros i w p Hfind Hp.
    assert (p ∈ all_ptrs (workers_ d)) as Hin.
    { rewrite (all_ptrs_split _ _ _ Hfind). apply elem_of_app. left. exact Hp. }
    destruct (Hlive p Hin) as [n Hn]. exists n. split; [exact Hn|].
    apply (Hcount _ _ _ Hn).
  - intros a it n Ha. destruct (Hcount _ _ _ Ha) as [Hn Hpos].
    assert (exists p, p ∈ all_ptrs (workers_ d) /\ address p = a) as (p & Hp & Hpa).
    { destruct (filter (fun p => address p = a) (all_ptrs (workers_ d)))
        as [|p l] eqn:E.
      - unfold references in Hn. rewrite E in Hn. simpl in Hn. lia.
      - assert (p ∈ filter (fun p => address p = a) (all_ptrs (workers_ d))) as Hp
          by (rewrite E; left).
        apply list_elem_of_filter in Hp as [Hpa Hp]. eauto. }
    unfold all_ptrs in Hp. apply list_elem_of_bind in Hp as ([i w] & Hpw & Hiw).
    exists i, w, p. split; [apply find_of_elem; assumption|].
    split; [exact Hpw|]. split; [exact Hpa|].
    destruct (Hlive p) as [m Hm].
    { unfold all_ptrs. apply list_elem_of_bind. exists (i, w). auto. }
    rewrite Hpa, Ha in Hm. congruence.
Qed.

Lemma store_consistency_witness :
  let es := [connected;
              worker_pollin None (worker_says "REGISTER 1 0 Async W");
             produce "5"; produce "6"] in
  exists d out,
    run es initial = Done (d, out) /\
    (forall a, is_Some (heap_ d !! a) -> (a < next_address d)%nat) /\
    completed_items_ d = [].
Proof.
  intros es. eexists _, _.
  assert (forall d out, run es initial = Done (d, out) ->
            (forall a, is_Some (heap_ d !! a) -> (a < next_address d)%nat) /\
            completed_items_ d = []) as H.
  { intros d out Hrun. apply (store_consistency es d out Hrun). }
  split; [vm_compute; reflexivity|]. eapply H. vm_compute. reflexivity.
Defined.

(** X2. One item in flight. In every state the broker reaches, whatever the
    queue policy, a worker has at most one outstanding item, and a worker
    without an outstanding item has no waiting item either: an item is put
    into [outstanding_items] only when that queue is empty, at intake or
    right after a [COMPLETE] has emptied it. *)
Theorem one_in_flight es d out i w :
  run es initial = Done (d, out) ->
  StdMap.find i (workers_ d) = Some w ->
  (length (outstanding_items w) <= 1)%nat /\
  (outstanding_items w = [] -> waiting_items w = []).
Proof.
  intros Hrun Hfind.
  pose proof (run_wf _ _ _ _ wf_initial Hrun) as (_ & _ & _ & _ & Hok).
  destruct (Forall_ok_split _ _ _ Hfind Hok) as (Hlen & Hidle & _). auto.
Qed.

Lemma one_in_flight_witness :
  let es := [connected;
              worker_pollin None (worker_says "REGISTER 1 0 Async W");
             produce "5"; produce "6"; produce "7"] in
  exists d out w,
    run es initial = Done (d, out) /\
    StdMap.find "" (workers_ d) = Some w /\
    (length (waiting_items w) = 2)%nat /\
    (length (outstanding_items w) <= 1)%nat.
Proof.
  intros es. eexists _, _, _.
  assert (forall d out w, run es initial = Done (d, out) ->
            StdMap.find "" (workers_ d) = Some w ->
            (length (outstanding_items w) <= 1)%nat) as H.
  { intros d out w Hrun Hfind. apply (one_in_flight es d out "" w Hrun Hfind). }
  split; [vm_compute; reflexivity|]. split; [reflexivity|].
  split; [reflexivity|].
  eapply H; [vm_compute; reflexivity | reflexivity].
Defined.

(** ** A busy worker *)

Lemma distribute_to_sent_other new_item j w d w' d' out i :
  distribute_to new_item j w d = Done (w', d', out) -> i <> j ->
  sent_to i out = [].
Proof.
  intros H Hne.
  destruct (distribute_to_out _ _ _ _ _ _ _ H) as [->|(Hs & _)]; [reflexivity|].
  exact (send_sent_other _ _ _ _ _ Hs Hne).
Qed.

Lemma distribute_sent_to new_item i w ws : forall d ws' d' out,
  sorted_keys ws ->
  distribute new_item ws d = Done (ws', d', out) ->
  StdMap.find i ws = Some w ->
  exists dk dk' outk w',
    distribute_to new_item i w dk = Done (w', dk', outk) /\
    StdMap.find i ws' = Some w' /\ sent_to i out = sent_to i outk /\
    (forall o, o ∈ outk -> o ∈ out).
Proof.
  induction ws as [|[k w0] ws IH]; intros d ws' d' out Hs H Hfind; simpl in *.
  - discriminate Hfind.
  - destruct (distribute_to new_item k w0 d) as [[[w1 d1] out1]| | |] eqn:E1;
      try discriminate H. simpl in H.
    destruct (distribute new_item ws d1) as [[[ws2 d2] out2]| | |] eqn:E2;
      try discriminate H. simpl in H. injection H as <- <- <-.
    unfold sorted_keys in Hs. simpl in Hs.
    apply StronglySorted_inv in Hs as [Hs HF].
    rewrite sent_to_app. simpl. destruct (String.eqb i k) eqn:E.
    + apply String.eqb_eq in E. subst k. injection Hfind as <-.
      exists d, d1, out1, w1. split; [exact E1|]. split; [reflexivity|].
      split; [|intros o Ho; apply elem_of_app; left; exact Ho].
      assert (sent_to i out2 = []) as ->; [|apply app_nil_r].
      apply sent_to_nil. intros m Hm.
      destruct (distribute_sent _ _ _ _ _ _ _ _ E2 Hm) as (w2 & Hw2 & _).
      rewrite Forall_forall in HF.
      apply (StdMapFacts.key_lt_irrefl i), HF.
      apply list_elem_of_fmap. exists (i, w2). auto.
    + apply String.eqb_neq in E.
      rewrite (distribute_to_sent_other _ _ _ _ _ _ _ i E1 E). simpl.
      destruct (IH _ _ _ _ Hs E2 Hfind)
        as (dk & dk' & outk & w' & Hto & Hfind' & Hsent & Hsub).
      exists dk, dk', outk, w'. do 3 (split; [assumption|]).
      intros o Ho. apply elem_of_app. right. exact (Hsub o Ho).
Qed.

Lemma distribute_to_busy new_item i w d w' d' out :
  outstanding_items w <> [] ->
  distribute_to new_item i w d = Done (w', d', out) ->
  same_params w w' /\ outstanding_items w' = outstanding_items w /\
  pointee <$> waiting_items w' =
    enqueue w (pointee <$> waiting_items w) (pointee new_item) /\
  out = [].
Proof.
  intros Hbusy H. unfold enqueue, wanted_by, same_params.
  change (id_ (pointee new_item)) with (item_id new_item).
  distribute_to_inv H; simpl; try contradiction;
    try (exfalso; apply Hskip; congruence).
  - rewrite Hpolicy. repeat split; congruence.
  - destruct (queue_policy w); try contradiction;
      rewrite ?fmap_app; repeat split; congruence.
  - assert (queue_policy w = Skip) as ->
      by (destruct (decide (queue_policy w = Skip)); [assumption | contradiction]).
    repeat split; congruence.
  - repeat split; congruence.
Qed.

Lemma send_heartbeat_busy d out i w :
  sorted_keys (workers_ d) ->
  StdMap.find i (workers_ d) = Some w -> outstanding_items w <> [] ->
  send_heartbeat d = Done out ->
  sent_to i out = [].
Proof.
  intros Hs Hfind Hbusy H. apply sent_to_nil. intros m Hm.
  pose proof (send_heartbeat_only _ _ _ _ H Hm) as ->.
  apply (send_heartbeat_loop_elem _ _ _ _ H) in Hm as (w0 & Hw0 & Hidle & _).
  apply (find_of_elem _ _ _ Hs) in Hw0. congruence.
Qed.

Lemma step_busy_any e d d' out i w :
  wf d ->
  StdMap.find i (workers_ d) = Some w -> outstanding_items w <> [] ->
  not_from i e -> step e d = Done (d', out) ->
  exists w',
    StdMap.find i (workers_ d') = Some w' /\ same_params w w' /\
    outstanding_items w' = outstanding_items w /\
    pointee <$> waiting_items w' =
      match received_item e with
      | Some it => enqueue w (pointee <$> waiting_items w) it
      | None => pointee <$> waiting_items w
      end /\
    sent_to i out = [].
Proof.
  intros (_ & Hs & _) Hfind Hbusy Hnot H. destruct e as [f m|f m| |s0]; simpl in *.
  - apply on_generator_pollin_inv in H
      as (first & rest & n & ws' & d1 & out1 & -> & Hn & Hd & -> & ->).
    simpl in Hd. rewrite Hn.
    destruct (distribute_sent_to _ _ _ _ _ _ _ _ Hs Hd Hfind)
      as (dk & dk' & outk & w' & Hto & Hfind' & Hsent & _).
    destruct (distribute_to_busy _ _ _ _ _ _ _ Hbusy Hto)
      as (Hsame & Ho & Hw' & ->).
    exists w'. split.
    + change (workers_ (set_completed [] ?y)) with (workers_ y).
      match goal with
      | |- context [workers_ (release ?a ?b)] =>
          destruct (release_fields a b) as [-> _]
      end. exact Hfind'.
    + split; [exact Hsame|]. split; [exact Ho|]. split; [exact Hw'|].
      rewrite sent_to_app, sent_to_drain, Hsent. reflexivity.
  - exists w. rewrite (on_worker_pollin_other _ _ _ _ _ _ H Hnot).
    split; [exact Hfind|]. split; [apply same_params_refl|].
    split; [reflexivity|]. split; [reflexivity|].
    apply (on_worker_pollin_sent_other _ _ _ _ _ _ H Hnot).
  - apply (step_heartbeat_inv d d' out) in H as [-> H]. exists w.
    split; [exact Hfind|]. split; [apply same_params_refl|].
    split; [reflexivity|]. split; [reflexivity|].
    apply (send_heartbeat_busy _ _ _ _ Hs Hfind Hbusy H).
  - injection H as <- <-. exists w.
    split; [exact Hfind|]. split; [apply same_params_refl|].
    split; [reflexivity|]. split; reflexivity.
Qed.

Lemma enqueue_same_params w w' q it :
  same_params w w' -> enqueue w' q it = enqueue w q it.
Proof.
  intros Hsame. unfold enqueue.
  rewrite (wanted_by_same_params _ _ it Hsame).
  destruct Hsame as (_ & _ & -> & _). reflexivity.
Qed.

Lemma run_busy_any es : forall d d' out i w,
  wf d ->
  StdMap.find i (workers_ d) = Some w -> outstanding_items w <> [] ->
  Forall (not_from i) es -> run es d = Done (d', out) ->
  exists w',
    StdMap.find i (workers_ d') = Some w' /\ same_params w w' /\
    outstanding_items w' = outstanding_items w /\
    pointee <$> waiting_items w' =
      foldl (enqueue w) (pointee <$> waiting_items w) (omap received_item es) /\
    sent_to i out = [].
Proof.
  induction es as [|e es IH]; intros d d' out i w Hwf Hfind Hbusy Hnot H.
  - injection H as <- <-. exists w.
    split; [exact Hfind|]. split; [apply same_params_refl|]. auto.
  - apply run_cons_inv in H as (d1 & out1 & out2 & H1 & H2 & ->).
    apply Forall_cons in Hnot as [Hnot1 Hnot].
    destruct (step_busy_any _ _ _ _ _ _ Hwf Hfind Hbusy Hnot1 H1)
      as (w1 & Hfind1 & Hsame1 & Ho1 & Hw1 & Hsent1).
    assert (outstanding_items w1 <> []) as Hbusy1 by (rewrite Ho1; exact Hbusy).
    destruct (IH _ _ _ _ _ (step_wf _ _ _ _ Hwf H1) Hfind1 Hbusy1 Hnot H2)
      as (w' & Hfind' & Hsame' & Ho' & Hw' & Hsent').
    exists w'. split; [exact Hfind'|].
    split; [eapply same_params_trans; eassumption|].
    split; [congruence|]. split.
    + rewrite Hw', Hw1.
      assert (forall q l, foldl (enqueue w1) q l = foldl (enqueue w) q l) as ->.
      { intros q l. revert q. induction l as [|it l IHl]; intros q; simpl;
          [reflexivity|].
        rewrite (enqueue_same_params _ _ q it Hsame1). apply IHl. }
      change (omap received_item (e :: es))
        with (match received_item e with
              | Some it => it :: omap received_item es
              | None => omap received_item es
              end).
      destruct (received_item e); reflexivity.
    + rewrite sent_to_app, Hsent1, Hsent'. reflexivity.
Qed.

Lemma foldl_enqueue_async w l : forall q,
  queue_policy w = Async ->
  foldl (enqueue w) q l = q ++ filter (fun it => wanted_by w it = true) l.
Proof.
  induction l as [|it l IH]; intros q Hp; simpl.
  - rewrite app_nil_r. reflexivity.
  - rewrite (IH _ Hp), filter_cons. unfold enqueue. rewrite Hp.
    destruct (wanted_by w it) eqn:E.
    + rewrite decide_True by reflexivity. rewrite <- app_assoc. reflexivity.
    + rewrite decide_False by discriminate. reflexivity.
Qed.

Lemma foldl_enqueue_skip w l : forall q,
  queue_policy w = Skip -> foldl (enqueue w) q l = q.
Proof.
  induction l as [|it l IH]; intros q Hp; simpl; [reflexivity|].
  rewrite (IH _ Hp). unfold enqueue. rewrite Hp.
  destruct (wanted_by w it); reflexivity.
Qed.

(** X3. A busy worker. From a state the broker reaches in which the worker
    filed under [i] has an outstanding item, events that are not messages of
    that worker leave its outstanding item and its parameters as they are and
    send it nothing, neither a [WORK_ITEM] nor a [HEARTBEAT]. Each producer
    item it wants goes to its waiting queue by the policy: [Async] appends it,
    so the queue holds all wanted items in their order of arrival;
    [PrebufferOne] replaces the queue by it; [Skip] drops it, so the queue
    stays empty. *)
Theorem busy_worker_queue es0 d0 out0 es d out i w :
  run es0 initial = Done (d0, out0) ->
  StdMap.find i (workers_ d0) = Some w ->
  outstanding_items w <> [] ->
  Forall (not_from i) es ->
  run es d0 = Done (d, out) ->
  exists w',
    StdMap.find i (workers_ d) = Some w' /\ same_params w w' /\
    outstanding_items w' = outstanding_items w /\
    sent_to i out = [] /\
    pointee <$> waiting_items w' =
      foldl (enqueue w) (pointee <$> waiting_items w) (omap received_item es) /\
    (queue_policy w = Async ->
     pointee <$> waiting_items w' =
       (pointee <$> waiting_items w) ++
       filter (fun it => wanted_by w it = true) (omap received_item es)) /\
    (queue_policy w = Skip -> waiting_items w' = []).
Proof.
  intros Hrun0 Hfind Hbusy Hnot Hrun.
  pose proof (run_wf _ _ _ _ wf_initial Hrun0) as Hwf.
  destruct (run_busy_any _ _ _ _ _ _ Hwf Hfind Hbusy Hnot Hrun)
    as (w' & Hfind' & Hsame & Ho & Hw & Hsent).
  exists w'. do 4 (split; [assumption|]). split; [exact Hw|]. split.
  - intros Hp. rewrite Hw. apply foldl_enqueue_async, Hp.
  - intros Hp. destruct Hwf as (_ & _ & _ & _ & Hok).
    destruct (Forall_ok_split _ _ _ Hfind Hok) as (_ & _ & _ & Hskip & _).
    rewrite (foldl_enqueue_skip _ _ _ Hp), (Hskip Hp) in Hw.
    destruct (waiting_items w'); [reflexivity | discriminate Hw].
Qed.

Lemma busy_worker_queue_witness :
  let es0 := [connected;
              worker_pollin None (worker_says "REGISTER 2 0 Async W");
              produce "10"] in
  let es := [produce "11"; produce "12"; heartbeat; produce "14"] in
  let item n a := {| address := a; pointee := {| id_ := n; payload_ := "" |} |} in
  let w := {| stride := 2; offset := 0; queue_policy := Async;
              client_name := "W"; waiting_items := [];
              outstanding_items := [item 10 0%nat];
              next_heartbeat_time := 0 |} in
  exists d0 out0 d out w',
    run es0 initial = Done (d0, out0) /\
    StdMap.find "" (workers_ d0) = Some w /\
    Forall (not_from "") es /\
    run es d0 = Done (d, out) /\
    StdMap.find "" (workers_ d) = Some w' /\
    sent_to "" out = [] /\
    pointee <$> waiting_items w' =
      [{| id_ := 12; payload_ := "" |}; {| id_ := 14; payload_ := "" |}].
Proof.
  intros es0 es item w.
  evar (D0 : ItemDistributor). evar (O0 : list output).
  assert (run es0 initial = Done (D0, O0)) as Hrun0
    by (subst D0 O0; vm_compute; reflexivity).
  assert (StdMap.find "" (workers_ D0) = Some w) as Hfind by reflexivity.
  assert (Forall (not_from "") es) as Hnot by (repeat constructor).
  evar (D : ItemDistributor). evar (O : list output).
  assert (run es D0 = Done (D, O)) as Hrun
    by (subst D0 D O; vm_compute; reflexivity).
  assert (outstanding_items w <> []) as Hbusy by discriminate.
  destruct (busy_worker_queue es0 D0 O0 es D O "" w Hrun0 Hfind Hbusy Hnot Hrun)
    as (w' & Hfind' & _ & _ & Hsent & _ & Hasync & _).
  exists D0, O0, D, O, w'.
  split; [exact Hrun0|]. split; [exact Hfind|]. split; [exact Hnot|].
  split; [exact Hrun|]. split; [exact Hfind'|]. split; [exact Hsent|].
  rewrite (Hasync eq_refl). reflexivity.
Defined.

(** ** Item intake: edge cases *)





(** A record the fan-out gets past: its stride is not zero, and the socket
    does not refuse the identity when the item is sent to it now. *)
Lemma distribute_to_done new_item identity w d :
  (exists r, distribute_to new_item identity w d = Done r) <->
  stride w <> 0 /\
  (takes_now (item_id new_item) w = true ->
   worker_socket_ d identity <> Unroutable).
Proof.
  unfold takes_now. split.
  - intros [[[w' d'] out] H]. distribute_to_inv H; rewrite ?Hout;
      (split; [exact Hstride|]); simpl; try discriminate.
    all: intros _ Hu;
         rewrite (send_work_item_same _ _ d) in Hsend by same_socket;
         unfold send_work_item, send in Hsend; rewrite Hu in Hsend;
         discriminate Hsend.
  - intros [Hs Hsock]. unfold distribute_to, wants_item.
    apply N.eqb_neq in Hs. rewrite Hs. simpl.
    destruct (_ mod stride w =? offset w); [|eauto]. simpl in Hsock.
    assert (forall p d0, outstanding_items w = [] ->
              worker_socket_ d0 = worker_socket_ d ->
              exists o, send_work_item identity p d0 = Done o) as Hsend.
    { intros p d0 Ho E. unfold send_work_item, send. rewrite E.
      rewrite Ho in Hsock. specialize (Hsock eq_refl).
      destruct (worker_socket_ d identity); [eauto | eauto | contradiction]. }
    destruct (decide (queue_policy w = PrebufferOne)); simpl;
      (destruct (outstanding_items w) eqn:Ho;
       [|destruct (decide (queue_policy w <> Skip)); eauto]).
    + destruct (Hsend new_item
                  (copy_ptr new_item (release_all (waiting_items w) d)) eq_refl)
        as [o ->]; [same_socket|]. simpl. eauto.
    + destruct (Hsend new_item (copy_ptr new_item d) eq_refl) as [o ->];
        [same_socket|]. simpl. eauto.
Qed.

Lemma distribute_done new_item ws : forall d,
  (exists r, distribute new_item ws d = Done r) <->
  Forall (fun kw : string * Worker =>
            stride kw.2 <> 0 /\
            (takes_now (item_id new_item) kw.2 = true ->
             worker_socket_ d kw.1 <> Unroutable)) ws.
Proof.
  induction ws as [|[i w] ws IH]; intros d.
  { split; [constructor | simpl; eauto]. }
  simpl. split.
  - intros [r H].
    destruct (distribute_to new_item i w d) as [[[w1 d1] out1]| | |] eqn:E1;
      try discriminate H. simpl in H.
    destruct (distribute new_item ws d1) as [r2| | |] eqn:E2; try discriminate H.
    constructor.
    + apply (distribute_to_done new_item i w d). eauto.
    + assert (exists r, distribute new_item ws d1 = Done r) as Hex by eauto.
      apply IH in Hex. eapply Forall_impl; [exact Hex|].
      intros [k v] [Hs Hsock]. split; [exact Hs|].
      rewrite <- (distribute_to_socket _ _ _ _ _ _ _ E1). exact Hsock.
  - intros HF. apply Forall_cons in HF as [Hw HF].
    apply (distribute_to_done new_item i w d) in Hw as [[[w1 d1] out1] E1].
    rewrite E1. simpl.
    assert (exists r, distribute new_item ws d1 = Done r) as [[[ws2 d2] out2] ->].
    { apply IH. eapply Forall_impl; [exact HF|].
      intros [k v] [Hs Hsock]. split; [exact Hs|].
      rewrite (distribute_to_socket _ _ _ _ _ _ _ E1). exact Hsock. }
    simpl. eauto.
Qed.

Lemma distribute_never_aborted new_item ws : forall d,
  distribute new_item ws d <> Aborted.
Proof.
  induction ws as [|[i w] ws IH]; intros d; simpl; [discriminate|].
  destruct (distribute_to new_item i w d) as [[[w1 d1] out1]| | |] eqn:E1;
    simpl; try discriminate.
  - specialize (IH d1).
    destruct (distribute new_item ws d1) as [[[ws2 d2] out2]| | |];
      simpl; try discriminate. contradiction.
  - exfalso. unfold distribute_to, wants_item in E1.
    destruct (stride w =? 0); simpl in E1; [discriminate E1|].
    destruct (_ mod stride w =? offset w); [|discriminate E1].
    destruct (decide (queue_policy w = PrebufferOne)); simpl in E1;
      (destruct (outstanding_items w);
       [|destruct (decide (queue_policy w <> Skip)); discriminate E1]);
      unfold send_work_item, send in E1;
      match type of E1 with
      | context [worker_socket_ ?x ?y] => destruct (worker_socket_ x y)
      end; discriminate E1.
Qed.

Lemma distribute_to_thrown new_item identity w d e :
  distribute_to new_item identity w d = Thrown e -> e = zmq_error.
Proof.
  intros E1. unfold distribute_to, wants_item in E1.
  destruct (stride w =? 0); simpl in E1; [discriminate E1|].
  destruct (_ mod stride w =? offset w); [|discriminate E1].
  destruct (decide (queue_policy w = PrebufferOne)); simpl in E1;
    (destruct (outstanding_items w);
     [|destruct (decide (queue_policy w <> Skip)); discriminate E1]);
    unfold send_work_item, send in E1;
    match type of E1 with
    | context [worker_socket_ ?x ?y] => destruct (worker_socket_ x y)
    end; simpl in E1; congruence.
Qed.

Lemma distribute_thrown new_item ws : forall d e,
  distribute new_item ws d = Thrown e -> e = zmq_error.
Proof.
  induction ws as [|[i w] l IH]; intros d0 e Hr; simpl in Hr; [discriminate Hr|].
  destruct (distribute_to new_item i w d0) as [[[w1 d1] out1]| |e0|] eqn:E1;
    simpl in Hr; try discriminate Hr.
  - destruct (distribute new_item l d1) as [[[ws2 d2] out2]| |e0|] eqn:E2;
      simpl in Hr; try discriminate Hr. injection Hr as ->. eauto.
  - injection Hr as ->. exact (distribute_to_thrown _ _ _ _ _ E1).
Qed.

Lemma on_generator_pollin_eq f first rest n d :
  Scan.stoull first = inr n ->
  let it := {| id_ := n;
               payload_ := match rest with [] => "" | second :: _ => second end |} in
  let new_item := (make_shared it d).1 in
  on_generator_pollin f (first :: rest) d =
  '(ws, d1, out) ← distribute new_item (workers_ d) (make_shared it d).2;
  Done (set_completed [] (release new_item (set_workers ws d1)),
        out ++ (send_pending_completions f (release new_item (set_workers ws d1))).2).
Proof.
  intros Hn. cbv zeta. unfold on_generator_pollin, receive_producer_item.
  rewrite Hn. cbn.
  match goal with
  | |- context [distribute ?p ?ws ?x] =>
      destruct (distribute p ws x) as [[[ws' d1] out1]| | |]
  end; reflexivity.
Qed.

(** X5. When the intake returns. [on_generator_pollin] never fails an
    assertion. It returns exactly when the producer message has a first part
    that [std::stoull] reads as an id, no registered worker has the stride
    zero, and the socket does not refuse the identity of any worker that the
    item is sent to. A first part without a number, or with one that does
    not fit 64 bits, lets the exception of [std::stoull] escape, and no other
    input does; an empty message is undefined behaviour. *)
Theorem intake_outcome f m d :
  on_generator_pollin f m d <> Aborted /\
  ((exists d' out, on_generator_pollin f m d = Done (d', out)) <->
   (exists first rest n,
      m = first :: rest /\ Scan.stoull first = inr n /\
      Forall (fun kw : string * Worker =>
                stride kw.2 <> 0 /\
                (takes_now n kw.2 = true ->
                 worker_socket_ d kw.1 <> Unroutable)) (workers_ d))) /\
  (forall e, e <> zmq_error ->
     (on_generator_pollin f m d = Thrown e <->
      exists first rest, m = first :: rest /\ Scan.stoull first = inl e)) /\
  (m = [] -> on_generator_pollin f m d = Undefined).
Proof.
  destruct m as [|first rest].
  { change (on_generator_pollin f [] d) with (@Undefined (ItemDistributor * list output)).
    split; [discriminate|]. split; [|split].
    - split; [intros (? & ? & [=]) | intros (? & ? & ? & [=] & _)].
    - intros e _. split; [discriminate | intros (? & ? & [=] & _)].
    - reflexivity. }
  destruct (Scan.stoull first) as [e|n] eqn:En.
  { assert (on_generator_pollin f (first :: rest) d = Thrown e) as ->
      by (unfold on_generator_pollin, receive_producer_item; rewrite En; reflexivity).
    split; [discriminate|]. split; [|split].
    - split; [intros (? & ? & [=])|].
      intros (? & ? & ? & [= <- <-] & E & _). congruence.
    - intros e' _. split.
      + intros [= <-]. eauto.
      + intros (? & ? & [= <- <-] & E). congruence.
    - discriminate. }
  rewrite (on_generator_pollin_eq f first rest n d En).
  set (it := {| id_ := n;
                payload_ := match rest with [] => "" | s :: _ => s end |}).
  set (new_item := (make_shared it d).1). set (d0 := (make_shared it d).2).
  pose proof (distribute_done new_item (workers_ d) d0) as Hdone.
  pose proof (distribute_never_aborted new_item (workers_ d) d0) as Hna.
  change (item_id new_item) with n in Hdone.
  change (worker_socket_ d0) with (worker_socket_ d) in Hdone.
  cbn zeta.
  destruct (distribute new_item (workers_ d) d0) as [[[ws d1] out]| |e|] eqn:Hr;
    cbn; (split; [first [discriminate | contradiction]|]);
    (split; [|split; [|discriminate]]).
  - split; [|eauto]. intros _. exists first, rest, n.
    split; [reflexivity|]. split; [exact En|]. apply Hdone. eauto.
  - intros e _. split; [discriminate|]. intros (? & ? & [= <- <-] & E'). congruence.
  - split; [intros (? & ? & [=])|]. intros _. contradiction.
  - intros e _. split; [discriminate|]. intros (? & ? & [= <- <-] & E'). congruence.
  - split; [intros (? & ? & [=])|].
    intros (? & ? & ? & [= <- <-] & E & HF). rewrite En in E. injection E as <-.
    apply Hdone in HF as [r Hr']. discriminate Hr'.
  - intros e' He'. split; [|intros (? & ? & [= <- <-] & E'); congruence].
    intros [= <-]. exfalso. apply He'. exact (distribute_thrown _ _ _ _ Hr).
  - split; [intros (? & ? & [=])|].
    intros (? & ? & ? & [= <- <-] & E & HF). rewrite En in E. injection E as <-.
    apply Hdone in HF as [r Hr']. discriminate Hr'.
  - intros e _. split; [discriminate|]. intros (? & ? & [= <- <-] & E'). congruence.
Qed.

Lemma intake_outcome_witness :
  let es := [worker_pollin None (worker_says "REGISTER 1 0 Async W")] in
  exists d out,
    run es initial = Done (d, out) /\
    worker_socket_ d "" = Unroutable /\
    on_generator_pollin None ["7"] d = Thrown zmq_error /\
    on_generator_pollin None ["seven"] d = Thrown invalid_argument /\
    on_generator_pollin None [] d = Undefined.
Proof.
  intros es. eexists _, _. split; [vm_compute; reflexivity|].
  split; [reflexivity|]. split; [vm_compute; reflexivity|]. split.
  - apply (proj1 (proj2 (proj2 (intake_outcome None ["seven"] _)))
             invalid_argument); [discriminate|].
    exists "seven", []. split; reflexivity.
  - apply (proj2 (proj2 (proj2 (intake_outcome None [] _)))). reflexivity.
Defined.

Lemma distribute_sent_idle new_item ws : forall d ws' d' out identity m,
  distribute new_item ws d = Done (ws', d', out) ->
  to_worker identity m ∈ out ->
  exists w, (identity, w) ∈ ws /\ outstanding_items w = [] /\
            matches w new_item /\
            m = WORK_ITEM (item_id new_item) (item_payload new_item).
Proof.
  induction ws as [|[i w] ws IH]; intros d ws' d' out identity m H Hin; simpl in H.
  - injection H as <- <- <-. inversion Hin.
  - destruct (distribute_to new_item i w d) as [[[w1 d1] out1]| | |] eqn:E1;
      try discriminate H. simpl in H.
    destruct (distribute new_item ws d1) as [[[ws2 d2] out2]| | |] eqn:E2;
      try discriminate H. simpl in H. injection H as <- <- <-.
    apply elem_of_app in Hin as [Hin|Hin].
    + destruct (distribute_to_out _ _ _ _ _ _ _ E1) as [->|(Hs & Hm & Hidle & _)].
      * inversion Hin.
      * destruct (send_elem _ _ _ _ _ _ Hs Hin) as (-> & -> & _).
        exists w. split; [left | auto].
    + destruct (IH _ _ _ _ _ _ E2 Hin) as (w0 & Hw0 & Hrest).
      exists w0. split; [right; exact Hw0 | exact Hrest].
Qed.

(** X6. What an intake sends. Every message that [on_generator_pollin] hands
    to the worker socket is a [WORK_ITEM] with the id read from the first
    part of the producer message and with its second part as payload (the
    empty payload when there is none), and it goes to a worker that had no
    outstanding item and wants that id. *)
Theorem intake_forwards f first rest n d d' out i m :
  Scan.stoull first = inr n ->
  on_generator_pollin f (first :: rest) d = Done (d', out) ->
  to_worker i m ∈ out ->
  m = WORK_ITEM n (match rest with [] => "" | second :: _ => second end) /\
  exists w, (i, w) ∈ workers_ d /\ outstanding_items w = [] /\
            stride w <> 0 /\ n mod stride w = offset w.
Proof.
  intros Hn H Hin.
  apply on_generator_pollin_inv in H
    as (first' & rest' & n' & ws' & d1 & out1 & E & Hn' & Hd & _ & ->).
  injection E as <- <-. rewrite Hn in Hn'. injection Hn' as <-.
  apply elem_of_app in Hin as [Hin|Hin];
    [|exfalso; exact (drain_no_worker _ _ _ _ Hin)].
  simpl in Hd.
  destruct (distribute_sent_idle _ _ _ _ _ _ _ _ Hd Hin)
    as (w & Hw & Hidle & [Hs Hm] & ->).
  split; [reflexivity|]. exists w. auto.
Qed.

Lemma intake_forwards_witness :
  let es := [connected; worker_pollin None (worker_says "REGISTER 3 1 Skip W")] in
  exists d out0 d' out,
    run es initial = Done (d, out0) /\
    Scan.stoull "7" = inr 7 /\
    on_generator_pollin None ["7"; "payload"; "ignored"] d = Done (d', out) /\
    to_worker "" (WORK_ITEM 7 "payload") ∈ out /\
    exists w0, ("", w0) ∈ workers_ d /\ outstanding_items w0 = [] /\
               stride w0 <> 0 /\ 7 mod stride w0 = offset w0.
Proof.
  intros es.
  evar (D0 : ItemDistributor). evar (O0 : list output).
  assert (run es initial = Done (D0, O0)) as Hrun
    by (subst D0 O0; vm_compute; reflexivity).
  evar (D : ItemDistributor). evar (O : list output).
  assert (on_generator_pollin None ["7"; "payload"; "ignored"] D0 = Done (D, O))
    as Hstep by (subst D0 D O; vm_compute; reflexivity).
  assert (to_worker "" (WORK_ITEM 7 "payload") ∈ O) as Hin by (subst O; left).
  exists D0, O0, D, O. split; [exact Hrun|]. split; [reflexivity|].
  split; [exact Hstep|]. split; [exact Hin|].
  apply (intake_forwards None "7" ["payload"; "ignored"] 7 D0 D O "" _
           eq_refl Hstep Hin).
Defined.

(** ** An item is queued at most once per worker *)

Lemma references_le_1_NoDup l :
  (forall a, (references a l <= 1)%nat) <-> NoDup (address <$> l).
Proof.
  induction l as [|p l IH].
  - split; [constructor | intros _ a; unfold references; simpl; lia].
  - rewrite fmap_cons, NoDup_cons, <- IH. split.
    + intros H. split.
      * intros Hin. apply list_elem_of_fmap in Hin as (q & Hq & Hin).
        specialize (H (address p)). rewrite references_cons in H.
        rewrite decide_True in H by reflexivity.
        assert (references (address p) l <> 0%nat); [|lia].
        intros Hz. eapply references_0; eauto.
      * intros a. specialize (H a). rewrite references_cons in H.
        destruct (decide (address p = a)); lia.
    + intros [Hnot H] a. rewrite references_cons.
      destruct (decide (address p = a)) as [<-|]; [|apply H].
      assert (references (address p) l = 0%nat) as ->; [|lia].
      apply references_0. intros q Hq E. apply Hnot.
      apply list_elem_of_fmap. exists q. auto.
Qed.

Lemma distribute_to_refs new_item i w d w' d' out a :
  distribute_to new_item i w d = Done (w', d', out) ->
  (references a (ptrs_of w') <= references a (new_item :: ptrs_of w))%nat.
Proof.
  intros H. unfold ptrs_of.
  distribute_to_inv H; simpl; rewrite ?Hout; simpl;
    repeat (rewrite references_app || rewrite references_cons);
    change (references a []) with 0%nat;
    repeat match goal with
    | |- context [decide ?P] => destruct (decide P)
    end; lia.
Qed.

Lemma distribute_distinct new_item ws : forall d ws' d' out,
  distribute new_item ws d = Done (ws', d', out) ->
  Forall (fun kw : string * Worker =>
            references (address new_item) (ptrs_of kw.2) = 0%nat) ws ->
  Forall (fun kw : string * Worker => distinct_ptrs kw.2) ws ->
  Forall (fun kw : string * Worker => distinct_ptrs kw.2) ws'.
Proof.
  induction ws as [|[i w] ws IH]; intros d ws' d' out H Hfresh Hdist; simpl in H.
  - injection H as <- <- <-. constructor.
  - destruct (distribute_to new_item i w d) as [[[w1 d1] out1]| | |] eqn:E1;
      try discriminate H. simpl in H.
    destruct (distribute new_item ws d1) as [[[ws2 d2] out2]| | |] eqn:E2;
      try discriminate H. simpl in H. injection H as <- <- <-.
    apply Forall_cons in Hfresh as [Hf Hfresh].
    apply Forall_cons in Hdist as [Hd Hdist].
    constructor; [|eapply IH; eassumption].
    intros a. simpl in *.
    pose proof (distribute_to_refs _ _ _ _ _ _ _ a E1) as Hle.
    rewrite references_cons in Hle. specialize (Hd a).
    destruct (decide (address new_item = a)) as [<-|]; lia.
Qed.

Lemma fresh_address d :
  owned_by (heap_ d) (all_ptrs (workers_ d)) -> below d ->
  Forall (fun kw : string * Worker =>
            references (next_address d) (ptrs_of kw.2) = 0%nat) (workers_ d).
Proof.
  intros [Hlive _] Hb. apply Forall_forall. intros [i w] Hiw. simpl.
  apply references_0. intros p Hp E.
  destruct (Hlive p) as [n Hn].
  { unfold all_ptrs. apply list_elem_of_bind. exists (i, w). auto. }
  assert (address p < next_address d)%nat by (apply Hb; eauto). lia.
Qed.

Lemma step_distinct e d d' out :
  wf d ->
  Forall (fun kw : string * Worker => distinct_ptrs kw.2) (workers_ d) ->
  step e d = Done (d', out) ->
  Forall (fun kw : string * Worker => distinct_ptrs kw.2) (workers_ d').
Proof.
  intros (Hl & Hs & Ho & Hb & Hok) Hdist H. destruct e as [f m|f m| |accepts].
  4: { injection H as <- _. exact Hdist. }
  3: { apply step_heartbeat_inv in H as [-> _]. exact Hdist. }
  all: simpl in H.
  - apply on_generator_pollin_inv in H
      as (first & rest & n & ws' & d1 & out1 & _ & _ & Hd & -> & _).
    change (workers_ (set_completed [] ?y)) with (workers_ y).
    match goal with
    | |- context [workers_ (release ?a ?b)] =>
        destruct (release_fields a b) as [-> _]
    end.
    simpl in *. eapply distribute_distinct; [exact Hd | | exact Hdist].
    apply (fresh_address d Ho Hb).
  - apply on_worker_pollin_inv in H
      as (part0 & identity & d1 & out1 & _ & _ & _ & _ & Hbody & -> & _).
    change (workers_ (set_completed [] d1)) with (workers_ d1).
    destruct Hbody as [[_ E]|(s & _ & _ & [[_ E]|[(_ & _ & E)|(_ & _ & -> & _)]])].
    + unfold handle_disconnect in E.
      destruct (StdMap.find identity (workers_ d)); injection E as -> _;
        [|exact Hdist].
      destruct (destroy_worker_fields w
                  (set_workers (StdMap.erase identity (workers_ d)) d)) as [-> _].
      apply StdMapFacts.Forall_erase, Hdist.
    + unfold handle_register in E.
      destruct (parse_register s) as [c|] eqn:Ec; [|discriminate E].
      destruct (parse_register_queues _ _ Ec) as (Hw & Hq & _).
      assert (distinct_ptrs c) as Hc.
      { intros a. unfold ptrs_of. rewrite Hw, Hq. unfold references. simpl. lia. }
      destruct (StdMap.find identity (workers_ d)) as [old|]; injection E as <- _.
      * destruct (destroy_worker_fields old
                    (set_workers (StdMap.assign identity c (workers_ d)) d))
          as [-> _].
        apply StdMapFacts.Forall_assign; assumption.
      * apply StdMapFacts.Forall_assign; assumption.
    + apply handle_complete_inv in E as (c & n & j & p & Ec & _ & _ & Hp & E).
      pose proof (Forall_ok_split _ _ _ Ec Hok) as Hcok.
      destruct (worker_ok_complete _ _ _ Hcok Hp) as (Eo & -> & _).
      assert (distinct_ptrs c) as Hc.
      { apply StdMapFacts.find_elem_of in Ec. rewrite Forall_forall in Hdist.
        apply (Hdist _ Ec). }
      destruct E as [(Ew & _ & ->)|(item & rest & Ew & _ & ->)]; simpl;
        repeat match goal with
        | |- context [workers_ (release ?x ?y)] =>
            destruct (release_fields x y) as [-> _]
        | |- context [workers_ (copy_ptr ?x ?y)] =>
            destruct (copy_ptr_fields x y) as (_ & -> & _)
        end;
        (apply StdMapFacts.Forall_assign; [|exact Hdist]);
        intros a; specialize (Hc a); unfold ptrs_of in *; simpl;
        rewrite Eo, ?Ew in *; simpl in *;
        rewrite ?references_app, ?references_cons in *;
        unfold references in *; simpl in *;
        repeat match goal with
        | |- context [decide ?P] => destruct (decide P)
        | H : context [decide ?P] |- _ => destruct (decide P)
        end; simpl in *; lia.
    + exact Hdist.
Qed.

Lemma run_distinct es : forall d d' out,
  wf d ->
  Forall (fun kw : string * Worker => distinct_ptrs kw.2) (workers_ d) ->
  run es d = Done (d', out) ->
  Forall (fun kw : string * Worker => distinct_ptrs kw.2) (workers_ d').
Proof.
  induction es as [|e es IH]; intros d d' out Hwf Hdist H.
  - injection H as <- _. exact Hdist.
  - apply run_cons_inv in H as (d1 & out1 & out2 & H1 & H2 & _).
    eapply IH; [eapply step_wf; eassumption | | exact H2].
    eapply step_distinct; eassumption.
Qed.

Lemma run_reached es d out :
  run es initial = Done (d, out) ->
  wf d /\ Forall (fun kw : string * Worker => distinct_ptrs kw.2) (workers_ d).
Proof.
  intros Hrun.
  split; [eapply run_wf | eapply run_distinct]; try eassumption.
  - exact wf_initial.
  - exact wf_initial.
  - constructor.
Qed.

(** X7. An item is queued at most once per worker. In every state the
    broker reaches, the items in the outstanding and waiting queues of one
    worker are pairwise different objects; the same object may be in the
    queues of several workers. *)
Theorem queued_once es d out i w :
  run es initial = Done (d, out) ->
  StdMap.find i (workers_ d) = Some w ->
  NoDup (address <$> outstanding_items w ++ waiting_items w).
Proof.
  intros Hrun Hfind.
  assert (Forall (fun kw : string * Worker => distinct_ptrs kw.2) (workers_ d)) as H.
  { exact (proj2 (run_reached _ _ _ Hrun)). }
  apply StdMapFacts.find_elem_of in Hfind. rewrite Forall_forall in H.
  apply references_le_1_NoDup. exact (H _ Hfind).
Qed.

Lemma queued_once_witness :
  let es := [connected;
              worker_pollin None (worker_says "REGISTER 1 0 Async W");
             produce "5"; produce "5"; produce "5"] in
  exists d out w,
    run es initial = Done (d, out) /\
    StdMap.find "" (workers_ d) = Some w /\
    item_id <$> outstanding_items w ++ waiting_items w = [5; 5; 5] /\
    NoDup (address <$> outstanding_items w ++ waiting_items w).
Proof.
  intros es.
  evar (D : ItemDistributor). evar (O : list output). evar (W : Worker).
  assert (run es initial = Done (D, O)) as Hrun
    by (subst D O; vm_compute; reflexivity).
  assert (StdMap.find "" (workers_ D) = Some W) as Hfind
    by (subst D W; reflexivity).
  exists D, O, W. split; [exact Hrun|]. split; [exact Hfind|].
  split; [subst W; reflexivity|].
  apply (queued_once es D O "" W Hrun Hfind).
Defined.

(** ** What destroying a worker record completes *)










(** ** What a [COMPLETE] reports *)

Lemma references_split q rest l a :
  l ≡ₚ q :: rest ->
  references a l =
  if decide (address q = a) then S (references a rest) else references a rest.
Proof. intros Hp. rewrite (references_perm _ _ _ Hp). apply references_cons. Qed.

Lemma handle_complete_ledger identity s d d' out :
  consistent d -> handle_complete identity s d = Done (d', out) ->
  exists c q n,
    StdMap.find identity (workers_ d) = Some c /\
    parse_complete s = Some n /\
    outstanding_items c = [q] /\ item_id q = n /\
    completed_items_ d' =
      completed_items_ d ++
      (if decide (references (address q) (all_ptrs (workers_ d)) = 1%nat)
       then [n] else []).
Proof.
  intros (Hs & Ho & Hb & Hok) H.
  apply handle_complete_inv in H as (c & n & i & p & Ec & Hn & Hfi & Hp & H).
  pose proof (Forall_ok_split _ _ _ Ec Hok) as Hc.
  destruct (worker_ok_complete _ _ _ Hc Hp) as (Eo & -> & _).
  destruct (find_if_Some _ _ _ Hfi) as (p' & Hp' & Hid & _).
  rewrite Hp in Hp'. injection Hp' as <-.
  exists c, p, n. do 4 (split; [assumption|]).
  set (R := all_ptrs (StdMap.erase identity (workers_ d))).
  assert (all_ptrs (workers_ d) ≡ₚ p :: waiting_items c ++ R) as Hperm.
  { rewrite (all_ptrs_split _ _ _ Ec). unfold ptrs_of. rewrite Eo. reflexivity. }
  assert (owned_by (heap_ d) (p :: waiting_items c ++ R)) as Ho0
    by (eapply owned_by_perm'; [exact Ho | symmetry; exact Hperm]).
  destruct (owned_by_release _ _ _ Ho0) as (Ho1 & Hledger & _).
  assert (completed_items_ (release p d) =
          completed_items_ d ++
          (if decide (references (address p) (all_ptrs (workers_ d)) = 1%nat)
           then [n] else [])) as Hl1.
  { rewrite Hledger, (references_split p _ _ _ Hperm).
    rewrite (decide_True (P := address p = address p)) by reflexivity.
    rewrite Hid.
    destruct (decide (references (address p) (waiting_items c ++ R) = 0%nat));
      [rewrite decide_True by lia | rewrite decide_False by lia]; reflexivity. }
  rewrite Eo in H. simpl in H.
  destruct H as [(Ew & _ & ->)|(item & rest & Ew & _ & H)].
  - exact Hl1.
  - rewrite Ew in Ho1.
    assert (item ∈ item :: rest ++ R) as Hin by left.
    rewrite (release_copy_ptr _ _ _ Ho1 Hin) in H.
    rewrite (release_copy_ptr _ _ _ Ho1 Hin) in H.
    subst d'. exact Hl1.
Qed.




(** ** The order of the items a worker is sent *)

Lemma work_items_to_app i o1 o2 :
  work_items_to i (o1 ++ o2) = work_items_to i o1 ++ work_items_to i o2.
Proof. unfold work_items_to. rewrite sent_to_app. apply omap_app. Qed.

Lemma work_items_to_quiet i out : sent_to i out = [] -> work_items_to i out = [].
Proof. unfold work_items_to. intros ->. reflexivity. Qed.

Lemma work_items_to_send i p d out :
  send_work_item i p d = Done out ->
  sublist (work_items_to i out) [pointee p] /\
  (cerr "Error: message send failed" ∉ out -> work_items_to i out = [pointee p]).
Proof.
  intros H. apply send_Done in H as [[_ ->]|[_ ->]].
  - assert (work_items_to i [to_worker i (WORK_ITEM (item_id p) (item_payload p))]
            = [pointee p]) as ->.
    { unfold work_items_to, sent_to. simpl. rewrite String.eqb_refl.
      destruct p as [a [n data]]. reflexivity. }
    split; [reflexivity | intros _; reflexivity].
  - split; [apply sublist_nil_l|]. intros Hno. exfalso. apply Hno. left.
Qed.

Lemma work_items_to_heartbeat i d out :
  send_heartbeat d = Done out -> work_items_to i out = [].
Proof.
  intros H. apply send_heartbeat_loop_inv in H.
  induction H as [|o out [k [->| ->]] _ IH]; [reflexivity| |exact IH].
  change (to_worker k HEARTBEAT :: out) with ([to_worker k HEARTBEAT] ++ out).
  rewrite work_items_to_app, IH, app_nil_r.
  unfold work_items_to, sent_to. simpl. destruct (String.eqb k i); reflexivity.
Qed.

Lemma handle_complete_sends identity s d d' out c :
  handle_complete identity s d = Done (d', out) ->
  StdMap.find identity (workers_ d) = Some c ->
  match waiting_items c with
  | [] => out = []
  | item :: _ => send_work_item identity item d = Done out
  end.
Proof.
  intros H Hfind.
  apply handle_complete_inv in H as (c' & n & i & p & Ec & _ & _ & _ & H).
  rewrite Hfind in Ec. injection Ec as <-.
  destruct H as [(-> & -> & _)|(item & rest & -> & Hsend & _)];
    [reflexivity | exact Hsend].
Qed.

Lemma distribute_to_order new_item i w d w' d' out :
  (outstanding_items w = [] -> waiting_items w = []) ->
  distribute_to new_item i w d = Done (w', d', out) ->
  let arrived := filter (fun it => wanted_by w it = true) [pointee new_item] in
  same_params w w' /\
  sublist (work_items_to i out ++ (pointee <$> waiting_items w'))
          ((pointee <$> waiting_items w) ++ arrived) /\
  (queue_policy w = Async -> cerr "Error: message send failed" ∉ out ->
   work_items_to i out ++ (pointee <$> waiting_items w') =
   (pointee <$> waiting_items w) ++ arrived).
Proof.
  intros Hidle H arrived. subst arrived. rewrite filter_cons, filter_nil.
  destruct (outstanding_items w) as [|x l] eqn:Ho.
  - rewrite (Hidle eq_refl). specialize (Hidle eq_refl).
    unfold wanted_by, same_params.
    change (id_ (pointee new_item)) with (item_id new_item).
    distribute_to_inv H; simpl; rewrite ?Hidle; simpl.
    all: try congruence.
    all: try (destruct (work_items_to_send _ _ _ _ Hsend) as [Hsub Heq];
              rewrite app_nil_r; split; [auto 10|];
              split; [exact Hsub | intros _; exact Heq]).
    split; [auto 10|]. split; [reflexivity | intros _ _; reflexivity].
  - assert (outstanding_items w <> []) as Hbusy by (rewrite Ho; discriminate).
    destruct (distribute_to_busy _ _ _ _ _ _ _ Hbusy H) as (Hsame & _ & Hw & ->).
    split; [exact Hsame|]. rewrite Hw. unfold enqueue. simpl.
    destruct (wanted_by w (pointee new_item)); simpl.
    + destruct (queue_policy w); (split; [|intros E _; try discriminate E]).
      * reflexivity.
      * reflexivity.
      * apply sublist_inserts_l. reflexivity.
      * apply sublist_inserts_r. reflexivity.
    + rewrite app_nil_r. split; reflexivity.
Qed.

Lemma step_order e d d' out i w :
  wf d ->
  StdMap.find i (workers_ d) = Some w ->
  keeps_record i e -> step e d = Done (d', out) ->
  let arrived := filter (fun it => wanted_by w it = true) (omap received_item [e]) in
  exists w',
    StdMap.find i (workers_ d') = Some w' /\ same_params w w' /\
    sublist (work_items_to i out ++ (pointee <$> waiting_items w'))
            ((pointee <$> waiting_items w) ++ arrived) /\
    (queue_policy w = Async -> cerr "Error: message send failed" ∉ out ->
     work_items_to i out ++ (pointee <$> waiting_items w') =
     (pointee <$> waiting_items w) ++ arrived).
Proof.
  intros (Hl & Hcons) Hfind Hkeep H arrived. subst arrived.
  pose proof Hcons as (Hs & _ & _ & Hok).
  pose proof (Forall_ok_split _ _ _ Hfind Hok) as (_ & Hidle & _).
  destruct e as [f m|f m| |accepts].
  4: { injection H as <- <-. exists w.
       change (omap received_item [peers accepts]) with (@nil Item).
       rewrite filter_nil, app_nil_r.
       split; [exact Hfind|]. split; [apply same_params_refl|].
       split; [reflexivity | intros _ _; reflexivity]. }
  3: { apply step_heartbeat_inv in H as [-> H]. exists w.
       rewrite (work_items_to_heartbeat _ _ _ H).
       change (omap received_item [heartbeat]) with (@nil Item).
       rewrite filter_nil, app_nil_r.
       split; [exact Hfind|]. split; [apply same_params_refl|].
       split; [reflexivity | intros _ _; reflexivity]. }
  all: simpl in H.
  - apply on_generator_pollin_inv in H
      as (first & rest & n & ws' & d1 & out1 & -> & Hn & Hd & -> & ->).
    simpl in Hd.
    assert (omap received_item [generator_pollin f (first :: rest)] =
            [{| id_ := n; payload_ := match rest with
                                       | [] => "" | second :: _ => second end |}])
      as -> by (simpl; rewrite Hn; reflexivity).
    destruct (distribute_sent_to _ _ _ _ _ _ _ _ Hs Hd Hfind)
      as (dk & dk' & outk & w' & Hto & Hfind' & Hsent & Hsubk).
    destruct (distribute_to_order _ _ _ _ _ _ _ Hidle Hto) as (Hsame & Hsub & Heq).
    exists w'. split.
    + change (workers_ (set_completed [] ?y)) with (workers_ y).
      match goal with
      | |- context [workers_ (release ?a ?b)] =>
          destruct (release_fields a b) as [-> _]
      end. exact Hfind'.
    + split; [exact Hsame|].
      assert (work_items_to i (out1 ++ (send_pending_completions f
                (release (make_shared {| id_ := n; payload_ := match rest with
                   [] => "" | second :: _ => second end |} d).1
                   (set_workers ws' d1))).2) = work_items_to i outk) as ->.
      { rewrite work_items_to_app, (work_items_to_quiet _ _ (sent_to_drain _ _ _)).
        rewrite app_nil_r. unfold work_items_to. rewrite Hsent. reflexivity. }
      split; [exact Hsub|]. intros Hp Hno. apply (Heq Hp).
      intros Hin. apply Hno, elem_of_app. left. exact (Hsubk _ Hin).
  - change (omap received_item [worker_pollin f m]) with (@nil Item).
    rewrite filter_nil, app_nil_r.
    destruct (decide (m !! 1%nat = Some i)) as [Hi|Hi].
    + destruct (Hkeep Hi) as (s & Hs3 & Hreg).
      apply on_worker_pollin_inv in H
        as (part0 & identity & d1 & out1 & _ & _ & Hid & -> & Hbody & -> & ->).
      rewrite Hi in Hid. injection Hid as ->.
      rewrite work_items_to_app, (work_items_to_quiet _ _ (sent_to_drain _ _ _)).
      rewrite app_nil_r.
      change (workers_ (set_completed [] d1)) with (workers_ d1).
      destruct Hbody as [[Hlen _]|(s' & _ & Hs3' & Hbody)].
      { apply lookup_lt_Some in Hs3. lia. }
      rewrite Hs3 in Hs3'. injection Hs3' as <-.
      destruct Hbody as [[E _]|[(_ & _ & Hc)|(_ & _ & -> & ->)]]; [congruence| |].
      * destruct (handle_complete_ledger _ _ _ _ _ Hcons Hc)
          as (c & q & n & Hfc & Hpc & Hoc & Hidq & _).
        rewrite Hfind in Hfc. injection Hfc as <-.
        assert (q ∈ outstanding_items w) as Hq by (rewrite Hoc; left).
        pose proof (handle_complete_sends _ _ _ _ _ _ Hc Hfind) as Hsend.
        destruct (handle_complete_spec "" s d w n q out1 Hpc Hfind Hq Hidq Hsend)
          as (d1' & c' & j & q' & Hstep & _ & _ & _ & Hfind' & Hsame
              & _ & Hqueues).
        rewrite Hc in Hstep. injection Hstep as <-.
        exists c'. split; [exact Hfind'|]. split; [exact Hsame|].
        destruct (waiting_items w) as [|item waiting];
          destruct Hqueues as (_ & ->).
        -- subst out1. split; [reflexivity | intros _ _; reflexivity].
        -- destruct (work_items_to_send _ _ _ _ Hsend) as [Hsub Heq].
           rewrite fmap_cons. split.
           ++ apply (sublist_app _ [pointee item] _ _ Hsub). reflexivity.
           ++ intros _ Hno. rewrite Heq; [reflexivity|].
              intros Hin. apply Hno, elem_of_app. left. exact Hin.
      * exists w. split; [exact Hfind|]. split; [apply same_params_refl|].
        split; [reflexivity | intros _ _; reflexivity].
    + exists w. rewrite (on_worker_pollin_other _ _ _ _ _ _ H Hi).
      rewrite (work_items_to_quiet _ _ (on_worker_pollin_sent_other _ _ _ _ _ _ H Hi)).
      split; [exact Hfind|]. split; [apply same_params_refl|].
      split; [reflexivity | intros _ _; reflexivity].
Qed.

Lemma filter_wanted_same w w' (l : list Item) :
  same_params w w' ->
  filter (fun it => wanted_by w' it = true) l =
  filter (fun it => wanted_by w it = true) l.
Proof.
  intros Hsame. induction l as [|it l IH]; [reflexivity|].
  rewrite !filter_cons, IH, (wanted_by_same_params _ _ it Hsame). reflexivity.
Qed.

Lemma run_order es : forall d d' out i w,
  wf d ->
  StdMap.find i (workers_ d) = Some w ->
  Forall (keeps_record i) es -> run es d = Done (d', out) ->
  let arrived := filter (fun it => wanted_by w it = true) (omap received_item es) in
  exists w',
    StdMap.find i (workers_ d') = Some w' /\ same_params w w' /\
    sublist (work_items_to i out ++ (pointee <$> waiting_items w'))
            ((pointee <$> waiting_items w) ++ arrived) /\
    (queue_policy w = Async -> cerr "Error: message send failed" ∉ out ->
     work_items_to i out ++ (pointee <$> waiting_items w') =
     (pointee <$> waiting_items w) ++ arrived).
Proof.
  induction es as [|e es IH]; intros d d' out i w Hwf Hfind Hkeep H arrived;
    subst arrived.
  - injection H as <- <-. exists w. split; [exact Hfind|].
    split; [apply same_params_refl|].
    change (omap received_item []) with (@nil Item).
    rewrite filter_nil, app_nil_r.
    split; [reflexivity | intros _ _; reflexivity].
  - apply run_cons_inv in H as (d1 & out1 & out2 & H1 & H2 & ->).
    apply Forall_cons in Hkeep as [Hkeep1 Hkeep].
    destruct (step_order _ _ _ _ _ _ Hwf Hfind Hkeep1 H1)
      as (w1 & Hfind1 & Hsame1 & Hsub1 & Heq1).
    destruct (IH _ _ _ _ _ (step_wf _ _ _ _ Hwf H1) Hfind1 Hkeep H2)
      as (w' & Hfind' & Hsame' & Hsub' & Heq').
    rewrite (filter_wanted_same _ _ _ Hsame1) in Hsub', Heq'.
    exists w'. split; [exact Hfind'|].
    split; [eapply same_params_trans; eassumption|].
    change (e :: es) with ([e] ++ es).
    rewrite omap_app, filter_app, work_items_to_app, !app_assoc, <- !app_assoc.
    split.
    + etransitivity; [apply sublist_app; [reflexivity | exact Hsub']|].
      rewrite !app_assoc. apply sublist_app; [exact Hsub1 | reflexivity].
    + intros Hp Hno.
      assert ((cerr "Error: message send failed" ∉ out1) /\
              (cerr "Error: message send failed" ∉ out2)) as [Hno1 Hno2].
      { split; intros Hin; apply Hno, elem_of_app; auto. }
      assert (queue_policy w1 = Async) as Hp1
        by (destruct Hsame1 as (_ & _ & -> & _); exact Hp).
      rewrite (Heq' Hp1 Hno2).
      rewrite !app_assoc. rewrite (Heq1 Hp Hno1). reflexivity.
Qed.

(** X11. The order of the items a worker is sent. While a record stays in
    the table, the [WORK_ITEM]s that reach the worker socket under its key,
    followed by the items of its waiting queue, are items it wants taken
    from its former waiting queue and from the producer messages, each at
    most once and in the order of arrival, whatever the policy. With the
    policy [Async], and no send reported as failed, none of them is lost. *)
Theorem items_in_order es0 d0 out0 es d out i w :
  run es0 initial = Done (d0, out0) ->
  StdMap.find i (workers_ d0) = Some w ->
  Forall (keeps_record i) es ->
  run es d0 = Done (d, out) ->
  exists w',
    StdMap.find i (workers_ d) = Some w' /\ same_params w w' /\
    sublist (work_items_to i out ++ (pointee <$> waiting_items w'))
            ((pointee <$> waiting_items w) ++
             filter (fun it => wanted_by w it = true) (omap received_item es)) /\
    (queue_policy w = Async -> cerr "Error: message send failed" ∉ out ->
     work_items_to i out ++ (pointee <$> waiting_items w') =
     (pointee <$> waiting_items w) ++
     filter (fun it => wanted_by w it = true) (omap received_item es)).
Proof.
  intros Hrun0 Hfind Hkeep Hrun.
  pose proof (run_wf _ _ _ _ wf_initial Hrun0) as Hwf.
  exact (run_order es d0 d out i w Hwf Hfind Hkeep Hrun).
Qed.

Lemma items_in_order_witness :
  let es0 := [connected; worker_pollin None (worker_says "REGISTER 1 0 Async A")] in
  let es := [produce "10"; produce "11"; produce "12";
             worker_pollin None (worker_says "COMPLETE 10"); heartbeat;
             produce "14"; worker_pollin None (worker_says "COMPLETE 11")] in
  let item n := {| id_ := n; payload_ := "" |} in
  exists d0 out0 d out w',
    run es0 initial = Done (d0, out0) /\
    StdMap.find "" (workers_ d0) = Some (fresh_record 1 0 Async "A") /\
    Forall (keeps_record "") es /\
    run es d0 = Done (d, out) /\
    StdMap.find "" (workers_ d) = Some w' /\
    work_items_to "" out = [item 10; item 11; item 12] /\
    pointee <$> waiting_items w' = [item 14] /\
    work_items_to "" out ++ (pointee <$> waiting_items w') =
      [item 10; item 11; item 12; item 14].
Proof.
  intros es0 es item.
  evar (D0 : ItemDistributor). evar (O0 : list output).
  assert (run es0 initial = Done (D0, O0)) as Hrun0
    by (subst D0 O0; vm_compute; reflexivity).
  assert (StdMap.find "" (workers_ D0) = Some (fresh_record 1 0 Async "A"))
    as Hfind by (subst D0; reflexivity).
  assert (Forall (keeps_record "") es) as Hkeep.
  { repeat constructor; intros _; eexists; split; reflexivity. }
  evar (D : ItemDistributor). evar (O : list output).
  assert (run es D0 = Done (D, O)) as Hrun
    by (subst D0 D O; vm_compute; reflexivity).
  assert (cerr "Error: message send failed" ∉ O) as Hno.
  { subst O. intros Hin. apply list_elem_of_In in Hin. simpl in Hin.
    repeat (destruct Hin as [Hin|Hin]; [discriminate Hin|]). exact Hin. }
  destruct (items_in_order es0 D0 O0 es D O "" (fresh_record 1 0 Async "A")
              Hrun0 Hfind Hkeep Hrun)
    as (w' & Hfind' & _ & _ & Heq).
  exists D0, O0, D, O, w'. split; [exact Hrun0|]. split; [exact Hfind|].
  split; [exact Hkeep|]. split; [exact Hrun|]. split; [exact Hfind'|].
  assert (work_items_to "" O = [item 10; item 11; item 12]) as Hsent
    by (subst O; reflexivity).
  split; [exact Hsent|].
  specialize (Heq eq_refl Hno). rewrite Hsent in Heq.
  split; [|rewrite Hsent, Heq; reflexivity].
  apply (app_inv_head [item 10; item 11; item 12]). rewrite Heq. reflexivity.
Defined.

(** ** One item through the broker *)




(** ** What the broker never sends *)

Lemma step_worker_messages e d d' out i m :
  step e d = Done (d', out) -> to_worker i m ∈ out ->
  m = HEARTBEAT \/ exists n data, m = WORK_ITEM n data.
Proof.
  intros H Hin. destruct e as [f msg|f msg| |accepts].
  4: { injection H as _ <-. inversion Hin. }
  3: { apply step_heartbeat_inv in H as [_ H]. left.
       exact (send_heartbeat_only _ _ _ _ H Hin). }
  all: simpl in H.
  - apply on_generator_pollin_inv in H
      as (first & rest & n & ws' & d1 & out1 & _ & _ & Hd & _ & ->).
    apply elem_of_app in Hin as [Hin|Hin];
      [|exfalso; exact (drain_no_worker _ _ _ _ Hin)].
    simpl in Hd.
    destruct (distribute_sent_idle _ _ _ _ _ _ _ _ Hd Hin) as (w & _ & _ & _ & ->).
    right. eauto.
  - apply on_worker_pollin_inv in H
      as (part0 & identity & d1 & out1 & _ & _ & _ & _ & Hbody & _ & ->).
    apply elem_of_app in Hin as [Hin|Hin];
      [|exfalso; exact (drain_no_worker _ _ _ _ Hin)].
    destruct Hbody as [[_ E]|(s & _ & _ & [[_ E]|[(_ & _ & E)|(_ & _ & _ & ->)]])].
    + unfold handle_disconnect in E.
      destruct (StdMap.find identity (workers_ d)); injection E as _ ->;
        repeat (apply elem_of_cons in Hin as [Hin|Hin]; [discriminate Hin|]);
        inversion Hin.
    + apply handle_register_conserve in E as [_ ->]. inversion Hin.
    + apply handle_complete_inv in E as (c & n & j & p & _ & _ & _ & _ & E).
      destruct E as [(_ & -> & _)|(item & rest & _ & Hsend & _)]; [inversion Hin|].
      destruct (send_elem _ _ _ _ _ _ Hsend Hin) as (_ & -> & _).
      right. eauto.
    + inversion Hin.
Qed.

Lemma run_worker_messages es : forall d d' out i m,
  run es d = Done (d', out) -> to_worker i m ∈ out ->
  m = HEARTBEAT \/ exists n data, m = WORK_ITEM n data.
Proof.
  induction es as [|e es IH]; intros d d' out i m H Hin.
  - injection H as _ <-. inversion Hin.
  - apply run_cons_inv in H as (d1 & out1 & out2 & H1 & H2 & ->).
    apply elem_of_app in Hin as [Hin|Hin].
    + exact (step_worker_messages _ _ _ _ _ _ H1 Hin).
    + exact (IH _ _ _ _ _ H2 Hin).
Qed.

(** X13. No [DISCONNECT]. [send_disconnect] has no caller: whatever the
    state and the events, the broker hands no [DISCONNECT] to the worker
    socket, also when it erases or replaces the record of a worker that
    still has items in its queues. *)
Theorem never_disconnects es d d' out i :
  run es d = Done (d', out) -> to_worker i DISCONNECT ∉ out.
Proof.
  intros H Hin.
  destruct (run_worker_messages es d d' out i DISCONNECT H Hin)
    as [E|(n & data & E)]; discriminate E.
Qed.

Lemma never_disconnects_witness :
  let es := [connected;
             worker_pollin None (worker_says "REGISTER 1 0 Async W");
             produce "100"; produce "101"; heartbeat;
             worker_pollin None (worker_says "REGISTER 2 1 Skip V");
             heartbeat; worker_pollin None worker_gone] in
  exists d out,
    run es initial = Done (d, out) /\
    to_worker "" HEARTBEAT ∈ out /\
    workers_ d = [] /\
    to_worker "" DISCONNECT ∉ out.
Proof.
  intros es.
  evar (D : ItemDistributor). evar (O : list output).
  assert (run es initial = Done (D, O)) as Hrun
    by (subst D O; vm_compute; reflexivity).
  exists D, O. split; [exact Hrun|].
  split; [subst O; apply list_elem_of_In; simpl;
          repeat first [left; reflexivity | right]|].
  split; [reflexivity|].
  exact (never_disconnects es initial D O "" Hrun).
Defined.

(** ** Ids as text *)




(** ** The item that [PrebufferOne] replaces *)



(** ** A [COMPLETE] for the record the handler looks up *)

(** The [COMPLETE] branch through the handler, for a text that scans. *)
Lemma on_worker_pollin_complete f c0 part0 part2 s rest d c n p :
  String.prefix "COMPLETE " s = true ->
  parse_complete s = Some n ->
  StdMap.find "" (workers_ d) = Some c ->
  p ∈ outstanding_items c -> item_id p = n ->
  (waiting_items c <> [] -> worker_socket_ d "" = Sent) ->
  exists d' out c' i q,
    on_worker_pollin f (String c0 part0 :: "" :: part2 :: s :: rest) d
    = Done (d', out) /\
    outstanding_items c !! i = Some q /\ item_id q = n /\
    (forall j q', (j < i)%nat -> outstanding_items c !! j = Some q' ->
                  item_id q' <> n) /\
    StdMap.find "" (workers_ d') = Some c' /\
    same_params c c' /\
    (forall k, k <> "" -> StdMap.find k (workers_ d') = StdMap.find k (workers_ d)) /\
    match waiting_items c with
    | [] =>
        outstanding_items c' = delete i (outstanding_items c) /\
        waiting_items c' = [] /\
        sent_to "" out = []
    | item :: waiting =>
        outstanding_items c' = delete i (outstanding_items c) ++ [item] /\
        waiting_items c' = waiting /\
        sent_to "" out = [WORK_ITEM (item_id item) (item_payload item)]
    end.
Proof.
  intros Hpre Hparse Hfind Hin Hid Hsock.
  rewrite on_worker_pollin_body, (prefix_complete_not_register _ Hpre), Hpre.
  set (out1 := match waiting_items c with
               | [] => []
               | item :: _ => [to_worker "" (WORK_ITEM (item_id item)
                                                       (item_payload item))]
               end).
  assert (match waiting_items c with
          | [] => out1 = []
          | item :: _ => send_work_item "" item d = Done out1
          end) as Hsend.
  { subst out1. destruct (waiting_items c) as [|item waiting]; [reflexivity|].
    apply send_Sent, Hsock. discriminate. }
  destruct (handle_complete_spec "" _ d c n p out1 Hparse Hfind Hin Hid Hsend)
    as (d1 & c' & i & q & -> & Hq & Hqid & Hfirst & Hfind' & Hsame
        & Hother & Hqueues).
  exists (set_completed [] d1), (out1 ++ (send_pending_completions f d1).2), c', i, q.
  split; [reflexivity|]. do 3 (split; [assumption|]).
  split; [exact Hfind'|]. split; [exact Hsame|]. split; [exact Hother|].
  rewrite sent_to_app, sent_to_drain, app_nil_r. subst out1.
  destruct (waiting_items c) as [|item waiting];
    destruct Hqueues as (Ho & Hw); repeat split; try assumption;
    apply sent_to_cons_worker.
Qed.

(** X16. What a [COMPLETE] does to the record the handler looks up. The
    text is ["COMPLETE "] followed by the decimal text of the id [n], at the
    index 3 where the handler reads it, and the record filed under the empty
    identity has an outstanding entry with the id [n]. When that record has
    nothing waiting, or the socket takes the [WORK_ITEM], the handler
    returns: the first outstanding entry with the id [n], and no other, is
    removed; the front of [waiting_items], if there is one, is popped,
    appended to [outstanding_items] and handed to the socket as a
    [WORK_ITEM] for the empty identity. The parameters of the record and
    the other records are unchanged. *)
Theorem complete_promotes f c0 part0 part2 rest d c n p :
  n < Scan.size_max ->
  StdMap.find "" (workers_ d) = Some c ->
  p ∈ outstanding_items c -> item_id p = n ->
  (waiting_items c <> [] -> worker_socket_ d "" = Sent) ->
  exists d' out c' i q,
    on_worker_pollin f
      (String c0 part0 :: "" :: part2 :: ("COMPLETE " +:+ to_string n) :: rest) d
    = Done (d', out) /\
    outstanding_items c !! i = Some q /\ item_id q = n /\
    (forall j q', (j < i)%nat -> outstanding_items c !! j = Some q' ->
                  item_id q' <> n) /\
    StdMap.find "" (workers_ d') = Some c' /\
    same_params c c' /\
    (forall k, k <> "" -> StdMap.find k (workers_ d') = StdMap.find k (workers_ d)) /\
    match waiting_items c with
    | [] =>
        outstanding_items c' = delete i (outstanding_items c) /\
        waiting_items c' = [] /\
        sent_to "" out = []
    | item :: waiting =>
        outstanding_items c' = delete i (outstanding_items c) ++ [item] /\
        waiting_items c' = waiting /\
        sent_to "" out = [WORK_ITEM (item_id item) (item_payload item)]
    end.
Proof.
  intros Hn Hfind Hin Hid Hsock.
  destruct (complete_frame_parses n Hn) as [Hpre Hparse].
  exact (on_worker_pollin_complete f c0 part0 part2 _ rest d c n p
           Hpre Hparse Hfind Hin Hid Hsock).
Qed.

Lemma complete_promotes_witness :
  let es := [connected;
             worker_pollin None (worker_says "REGISTER 1 0 Async W");
             produce "10"; produce "11"; produce "12"] in
  let item n a := {| address := a; pointee := {| id_ := n; payload_ := "" |} |} in
  let c := {| stride := 1; offset := 0; queue_policy := Async;
              client_name := "W"; waiting_items := [item 11 1%nat; item 12 2%nat];
              outstanding_items := [item 10 0%nat];
              next_heartbeat_time := 0 |} in
  exists d out0 d' out c',
    run es initial = Done (d, out0) /\
    StdMap.find "" (workers_ d) = Some c /\
    on_worker_pollin None (worker_says "COMPLETE 10") d = Done (d', out) /\
    StdMap.find "" (workers_ d') = Some c' /\
    outstanding_items c' = [item 11 1%nat] /\
    waiting_items c' = [item 12 2%nat] /\
    sent_to "" out = [WORK_ITEM 11 ""].
Proof.
  intros es item c.
  evar (D : ItemDistributor). evar (O : list output).
  assert (run es initial = Done (D, O)) as Hrun
    by (subst D O; vm_compute; reflexivity).
  assert (StdMap.find "" (workers_ D) = Some c) as Hfind by reflexivity.
  assert (10 < Scan.size_max) as Hn by reflexivity.
  assert (item 10 0%nat ∈ outstanding_items c) as Hin by left.
  assert (waiting_items c <> [] -> worker_socket_ D "" = Sent) as Hsock
    by (intros _; reflexivity).
  destruct (complete_promotes None "w"%char "orker-1" "" [] D c 10
              (item 10 0%nat) Hn Hfind Hin eq_refl Hsock)
    as (d' & out & c' & i & q & Hstep & Hq & _ & _ & Hfind' & _ & _ & Hqueues).
  destruct i as [|i]; [|destruct i; discriminate Hq].
  destruct Hqueues as (Ho & Hw & Hsent).
  exists D, O, d', out, c'.
  split; [exact Hrun|]. split; [exact Hfind|]. split; [exact Hstep|].
  split; [exact Hfind'|]. split; [exact Ho|]. split; [exact Hw | exact Hsent].
Defined.



(** ** The key of every record *)

Lemma sent_to_elem i m out : to_worker i m ∈ out -> m ∈ sent_to i out.
Proof.
  induction out as [|o out IH]; intros Hin; [inversion Hin|].
  rewrite sent_to_cons. apply elem_of_cons in Hin as [<-|Hin].
  - rewrite String.eqb_refl. left.
  - specialize (IH Hin). destruct o as [j m'| | |]; try exact IH.
    destruct (String.eqb j i); [right|]; exact IH.
Qed.

Lemma step_keys e d d' out :
  (forall i w, (i, w) ∈ workers_ d -> i = "") ->
  step e d = Done (d', out) ->
  (forall i w, (i, w) ∈ workers_ d' -> i = "") /\
  (forall i m, to_worker i m ∈ out -> i = "").
Proof.
  intros Hkeys H. destruct e as [f msg|f msg| |accepts].
  4: { injection H as <- <-. split; [exact Hkeys|]. intros i m Hin. inversion Hin. }
  3: { apply step_heartbeat_inv in H as [-> H]. split; [exact Hkeys|].
       intros i m Hin. pose proof (send_heartbeat_only _ _ _ _ H Hin) as ->.
       apply (send_heartbeat_loop_elem _ _ _ i H) in Hin as (w & Hw & _).
       exact (Hkeys _ _ Hw). }
  all: simpl in H.
  - apply on_generator_pollin_inv in H
      as (first & rest & n & ws' & d1 & out1 & _ & _ & Hd & -> & ->).
    simpl in Hd. split.
    + intros i w Hin.
      change (workers_ (set_completed [] ?y)) with (workers_ y) in Hin.
      match type of Hin with
      | context [workers_ (release ?a ?b)] =>
          destruct (release_fields a b) as [Hr _]; rewrite Hr in Hin
      end.
      simpl in Hin. destruct (distribute_workers _ _ _ _ _ _ Hd) as (Hk & _).
      assert (i ∈ (workers_ d).*1) as Hi.
      { rewrite <- Hk. apply list_elem_of_fmap. exists (i, w). auto. }
      apply list_elem_of_fmap in Hi as ([i' w'] & -> & Hi). exact (Hkeys _ _ Hi).
    + intros i m Hin. apply elem_of_app in Hin as [Hin|Hin];
        [|exfalso; exact (drain_no_worker _ _ _ _ Hin)].
      destruct (distribute_sent _ _ _ _ _ _ _ _ Hd Hin) as (w & Hw & _).
      exact (Hkeys _ _ Hw).
  - split.
    + intros i w Hin. destruct (decide (i = "")) as [->|Hne]; [reflexivity|].
      exfalso.
      assert (msg !! 1%nat <> Some i) as Hother.
      { apply on_worker_pollin_inv in H
          as (part0 & identity & d1 & out1 & _ & _ & Hid & -> & _).
        rewrite Hid. congruence. }
      pose proof (on_worker_pollin_other _ _ _ _ _ _ H Hother) as Hfind.
      assert (StdMap.find i (workers_ d) = None) as Hnone.
      { destruct (StdMap.find i (workers_ d)) as [w0|] eqn:E; [|reflexivity].
        apply StdMapFacts.find_elem_of in E. destruct (Hne (Hkeys _ _ E)). }
      rewrite Hnone in Hfind. apply StdMapFacts.find_None_keys in Hfind.
      apply Hfind, list_elem_of_fmap. exists (i, w). auto.
    + intros i m Hin. destruct (decide (i = "")) as [->|Hne]; [reflexivity|].
      exfalso.
      assert (msg !! 1%nat <> Some i) as Hother.
      { apply on_worker_pollin_inv in H
          as (part0 & identity & d1 & out1 & _ & _ & Hid & -> & _).
        rewrite Hid. congruence. }
      apply sent_to_elem in Hin.
      rewrite (on_worker_pollin_sent_other _ _ _ _ _ _ H Hother) in Hin.
      inversion Hin.
Qed.

Lemma run_keys es : forall d d' out,
  (forall i w, (i, w) ∈ workers_ d -> i = "") ->
  run es d = Done (d', out) ->
  (forall i w, (i, w) ∈ workers_ d' -> i = "") /\
  (forall i m, to_worker i m ∈ out -> i = "").
Proof.
  induction es as [|e es IH]; intros d d' out Hkeys H.
  - injection H as <- <-. split; [exact Hkeys|]. intros i m Hin. inversion Hin.
  - apply run_cons_inv in H as (d1 & out1 & out2 & H1 & H2 & ->).
    destruct (step_keys _ _ _ _ Hkeys H1) as [Hkeys1 Hout1].
    destruct (IH _ _ _ Hkeys1 H2) as [Hkeys2 Hout2].
    split; [exact Hkeys2|]. intros i m Hin.
    apply elem_of_app in Hin as [Hin|Hin]; eauto.
Qed.

(** X18. The key of every record. [on_worker_pollin] files, looks up and
    erases records under [message.peekstr(1)], the part that its third
    [assert] makes empty. So in every state the broker reaches the table
    has at most one record, filed under the empty identity, whoever sent
    the [REGISTER]; and every message the broker hands to the worker socket
    is addressed to the empty identity. *)
Theorem one_record es d out :
  run es initial = Done (d, out) ->
  (workers_ d = [] \/ exists w, workers_ d = [("", w)]) /\
  (forall i m, to_worker i m ∈ out -> i = "").
Proof.
  intros Hrun.
  assert (forall i w, (i, w) ∈ workers_ initial -> i = "") as H0
    by (intros i w Hin; inversion Hin).
  destruct (run_keys _ _ _ _ H0 Hrun) as [Hkeys Hout]. split; [|exact Hout].
  pose proof (run_wf _ _ _ _ wf_initial Hrun) as (_ & Hs & _).
  unfold sorted_keys in Hs.
  destruct (workers_ d) as [|[k w] [|[k2 w2] l]]; [left; reflexivity| |].
  - right. exists w. rewrite (Hkeys k w) by left. reflexivity.
  - exfalso. rewrite (Hkeys k w) in Hs by left.
    rewrite (Hkeys k2 w2) in Hs by (right; left).
    apply StronglySorted_inv in Hs as [_ HF]. apply Forall_cons in HF as [HF _].
    exact (StdMapFacts.key_lt_irrefl "" HF).
Qed.

Lemma one_record_witness :
  let es := [connected;
             worker_pollin None ["b"; ""; ""; "REGISTER 1 0 Async B"];
             worker_pollin None ["a"; ""; ""; "REGISTER 2 1 Skip A"];
             produce "5"; heartbeat] in
  exists d out w,
    run es initial = Done (d, out) /\
    workers_ d = [("", w)] /\ client_name w = "A" /\
    out = [to_worker "" (WORK_ITEM 5 "")] /\
    (forall i m, to_worker i m ∈ out -> i = "").
Proof.
  intros es.
  evar (D : ItemDistributor). evar (O : list output).
  assert (run es initial = Done (D, O)) as Hrun
    by (subst D O; vm_compute; reflexivity).
  destruct (one_record es D O Hrun) as [_ Hout].
  exists D, O. eexists. split; [exact Hrun|]. split; [reflexivity|].
  split; [reflexivity|]. split; [reflexivity | exact Hout].
Defined.
